(** * Scroll physics, section snapping and the scene window

    A shallow embedding of the scroll engine of the repository:
    - [EnhancedMomentumScroller], the scroller wired into [page.tsx];
    - [SmoothSectionScroller], the second scroller;
    - [PathRenderer.createDottedPath], the scene window builder.

    JavaScript numbers are modelled by the real numbers [R] (no rounding, no
    NaN, no infinities); values that the code only ever uses as integers
    (section positions, magnetism weights, row indices, agent indices) are
    modelled by [Z].  Calls to collaborators (scene rebuild, background
    notifier, audio cue, animation-load hint, tween driver) are recorded in a
    trace, oldest first.  Timers and animation frames are inputs of the step
    function, so that every interleaving of callbacks is covered. *)

From Stdlib Require Import ZArith List Bool Lia Sorted String.
From Stdlib Require Import Reals Lra.
Import ListNotations.

Open Scope Z_scope.

(** ** JavaScript number helpers *)

Module JS.

(** [a < b], [a <= b] and [a === b] on numbers, as booleans. *)
Definition Rltb (a b : R) : bool := if Rlt_dec a b then true else false.

Definition Rleb (a b : R) : bool := if Rle_dec a b then true else false.

Definition Reqb (a b : R) : bool := if Req_dec_T a b then true else false.

(** [Math.sign]. *)
Definition sign (x : R) : R :=
  if Rltb 0 x then 1%R else if Rltb x 0 then (-1)%R else 0%R.

(** [Math.max(lo, Math.min(hi, x))]. *)
Definition clamp (lo hi x : R) : R := Rmax lo (Rmin hi x).

(** [a % b] on integers: the remainder has the sign of the dividend. *)
Definition jsmod (a b : Z) : Z := Z.rem a b.

End JS.

Import JS.

(** ** Data shared by both scrollers *)

Inductive SectionType := agent | milestone | shape | decorative | micro.

Definition SectionType_eqb (a b : SectionType) : bool :=
  match a, b with
  | agent, agent | milestone, milestone | shape, shape
  | decorative, decorative | micro, micro => true
  | _, _ => false
  end.

(** The spacing of each section type along the path, and its priority
    (larger wins at shared positions). *)
Definition spacing (t : SectionType) : Z :=
  match t with
  | agent => 60 | milestone => 40 | shape => 15 | decorative => 8 | micro => 3
  end.

Definition typePriority (t : SectionType) : Z :=
  match t with
  | agent => 5 | milestone => 4 | shape => 3 | decorative => 2 | micro => 1
  end.

(** [xs.sort((a, b) => key(a) - key(b))]: a stable sort by an integer key. *)
Section StableSort.
Context {A : Type} (key : A -> Z).

Fixpoint insertByKey (x : A) (l : list A) : list A :=
  match l with
  | [] => [x]
  | y :: r => if key x <=? key y then x :: y :: r else y :: insertByKey x r
  end.

Definition sortByKey (l : list A) : list A := fold_right insertByKey [] l.

End StableSort.

(** [xs.sort(compare)] for a comparator that returns a number: a stable
    sort, [a] staying before [b] when [compare(a, b) <= 0]. *)
Section ComparatorSort.
Context {A : Type} (compare : A -> A -> R).

Fixpoint insertBy (x : A) (l : list A) : list A :=
  match l with
  | [] => [x]
  | y :: r =>
      if JS.Rleb (compare x y) 0 then x :: y :: r else y :: insertBy x r
  end.

Definition sortBy (l : list A) : list A := fold_right insertBy [] l.

End ComparatorSort.

(** The integers [0, 1, ..., h] visited by [for (pos = 0; pos <= h; pos++)]. *)
Definition upto (h : nat) : list Z := map Z.of_nat (seq 0 (S h)).

Definition pushOpt {A} (o : option A) : list A :=
  match o with Some a => [a] | None => [] end.

(** Which collaborators are there: [window.gsap], and the [current] of the
    three references handed to the constructor. *)
Record Host := mkHost {
  gsap : bool;
  pathRenderer : bool;
  sceneManager : bool;
  animationManager : bool
}.

(** Calls that leave the scroller. *)
Inductive Effect :=
| CreateDottedPath (position : R)
| UpdateBackgroundForAgent (agentIndex : Z)
| PlayTransitionSound
| OptimizeForGSAPAnimation (isAnimating : bool)
| GsapTo (tween : nat) (target : R) (seconds : R)
| TweenKill (tween : nat).

(** The ease of the snap transition, [power2.out]: of the tween driver's
    power eases, [powerN] raises to the power [N + 1], so [power2] is the
    cubic one. *)
Definition power2out (p : R) : R := (1 - (1 - p) * (1 - p) * (1 - p))%R.

(** Which of the navigation filters [findTargetSection] applies. *)
Inductive SnapType := snapAgent | snapAny.

(** ** EnhancedMomentumScroller *)

Module EnhancedMomentumScroller.

Record ScrollSection := mkSection {
  position : Z;
  type : SectionType;
  magnetism : Z;
  snapDuration : R
}.

(** The body of the loop of [generateSections]: the section pushed for
    [pos], if any. *)
Definition sectionAt (pos : Z) : option ScrollSection :=
  if pos =? 0 then Some (mkSection 0 agent 100 1.8)
  else if jsmod pos 60 =? 0 then Some (mkSection pos agent 100 2.0)
  else if jsmod pos 40 =? 0 then Some (mkSection pos milestone 90 1.6)
  else if jsmod pos 15 =? 0 then Some (mkSection pos shape 75 1.2)
  else if jsmod pos 8 =? 0 then Some (mkSection pos decorative 60 1.0)
  else if jsmod pos 3 =? 0 then Some (mkSection pos micro 35 0.6)
  else None.

Definition horizon : nat := 3000.

Definition generateSectionsUpTo (h : nat) : list ScrollSection :=
  sortByKey position (flat_map (fun pos => pushOpt (sectionAt pos)) (upto h)).

Definition generateSections : list ScrollSection := generateSectionsUpTo horizon.

Arguments generateSections : simpl never.

Module Touch.
Record State := mkState {
  startY : R;
  lastY : R;
  startTime : R;
  isActive : bool;
  velocity : R;
  lastVelocity : R;
  acceleration : R
}.
End Touch.

(** A tween created by [gsap.to(positionRef, {current: tweenTo, ...})] in
    [snapToSection]; [tweenTarget] is the section its [onComplete] closes
    over. *)
Record GSAPTween := mkTween {
  tweenId : nat;
  tweenFrom : R;
  tweenTo : R;
  tweenDuration : R;
  tweenTarget : ScrollSection
}.

(** The scroller, the two shared references it writes, and the part of the
    outside world it acts on: the tweens the driver is running on
    [positionRef], and the trace of collaborator calls.  Fields of the class
    that are never read ([inputVelocity], [lastInputTime], ...) and
    [momentumTween], which is never assigned, are left out. *)
Record Scroller := mkScroller {
  positionRef : R;
  currentAgentRef : Z;
  host : Host;
  velocity : R;
  isScrolling : bool;
  isSnapping : bool;
  lastUpdateTime : R;
  sections : list ScrollSection;
  lastTargetSection : option ScrollSection;
  inputAccumulator : R;
  touchState : Touch.State;
  currentTween : option GSAPTween;
  lastPlayedAgentIndex : option Z;
  isPhysicsPaused : bool;
  activeTweens : list GSAPTween;
  nextTweenId : nat;
  trace : list Effect
}.

Definition set_positionRef (x : R) (st : Scroller) : Scroller :=
  {| positionRef := x; currentAgentRef := currentAgentRef st; host := host st;
     velocity := velocity st; isScrolling := isScrolling st;
     isSnapping := isSnapping st; lastUpdateTime := lastUpdateTime st;
     sections := sections st; lastTargetSection := lastTargetSection st;
     inputAccumulator := inputAccumulator st; touchState := touchState st;
     currentTween := currentTween st;
     lastPlayedAgentIndex := lastPlayedAgentIndex st;
     isPhysicsPaused := isPhysicsPaused st; activeTweens := activeTweens st;
     nextTweenId := nextTweenId st; trace := trace st |}.

Definition set_currentAgentRef (x : Z) (st : Scroller) : Scroller :=
  {| positionRef := positionRef st; currentAgentRef := x; host := host st;
     velocity := velocity st; isScrolling := isScrolling st;
     isSnapping := isSnapping st; lastUpdateTime := lastUpdateTime st;
     sections := sections st; lastTargetSection := lastTargetSection st;
     inputAccumulator := inputAccumulator st; touchState := touchState st;
     currentTween := currentTween st;
     lastPlayedAgentIndex := lastPlayedAgentIndex st;
     isPhysicsPaused := isPhysicsPaused st; activeTweens := activeTweens st;
     nextTweenId := nextTweenId st; trace := trace st |}.

Definition set_velocity (x : R) (st : Scroller) : Scroller :=
  {| positionRef := positionRef st; currentAgentRef := currentAgentRef st;
     host := host st; velocity := x; isScrolling := isScrolling st;
     isSnapping := isSnapping st; lastUpdateTime := lastUpdateTime st;
     sections := sections st; lastTargetSection := lastTargetSection st;
     inputAccumulator := inputAccumulator st; touchState := touchState st;
     currentTween := currentTween st;
     lastPlayedAgentIndex := lastPlayedAgentIndex st;
     isPhysicsPaused := isPhysicsPaused st; activeTweens := activeTweens st;
     nextTweenId := nextTweenId st; trace := trace st |}.

Definition set_isScrolling (x : bool) (st : Scroller) : Scroller :=
  {| positionRef := positionRef st; currentAgentRef := currentAgentRef st;
     host := host st; velocity := velocity st; isScrolling := x;
     isSnapping := isSnapping st; lastUpdateTime := lastUpdateTime st;
     sections := sections st; lastTargetSection := lastTargetSection st;
     inputAccumulator := inputAccumulator st; touchState := touchState st;
     currentTween := currentTween st;
     lastPlayedAgentIndex := lastPlayedAgentIndex st;
     isPhysicsPaused := isPhysicsPaused st; activeTweens := activeTweens st;
     nextTweenId := nextTweenId st; trace := trace st |}.

Definition set_isSnapping (x : bool) (st : Scroller) : Scroller :=
  {| positionRef := positionRef st; currentAgentRef := currentAgentRef st;
     host := host st; velocity := velocity st; isScrolling := isScrolling st;
     isSnapping := x; lastUpdateTime := lastUpdateTime st;
     sections := sections st; lastTargetSection := lastTargetSection st;
     inputAccumulator := inputAccumulator st; touchState := touchState st;
     currentTween := currentTween st;
     lastPlayedAgentIndex := lastPlayedAgentIndex st;
     isPhysicsPaused := isPhysicsPaused st; activeTweens := activeTweens st;
     nextTweenId := nextTweenId st; trace := trace st |}.

Definition set_lastUpdateTime (x : R) (st : Scroller) : Scroller :=
  {| positionRef := positionRef st; currentAgentRef := currentAgentRef st;
     host := host st; velocity := velocity st; isScrolling := isScrolling st;
     isSnapping := isSnapping st; lastUpdateTime := x; sections := sections st;
     lastTargetSection := lastTargetSection st;
     inputAccumulator := inputAccumulator st; touchState := touchState st;
     currentTween := currentTween st;
     lastPlayedAgentIndex := lastPlayedAgentIndex st;
     isPhysicsPaused := isPhysicsPaused st; activeTweens := activeTweens st;
     nextTweenId := nextTweenId st; trace := trace st |}.

Definition set_sections (x : list ScrollSection) (st : Scroller) : Scroller :=
  {| positionRef := positionRef st; currentAgentRef := currentAgentRef st;
     host := host st; velocity := velocity st; isScrolling := isScrolling st;
     isSnapping := isSnapping st; lastUpdateTime := lastUpdateTime st;
     sections := x; lastTargetSection := lastTargetSection st;
     inputAccumulator := inputAccumulator st; touchState := touchState st;
     currentTween := currentTween st;
     lastPlayedAgentIndex := lastPlayedAgentIndex st;
     isPhysicsPaused := isPhysicsPaused st; activeTweens := activeTweens st;
     nextTweenId := nextTweenId st; trace := trace st |}.

Definition set_lastTargetSection (x : option ScrollSection) (st : Scroller) : Scroller :=
  {| positionRef := positionRef st; currentAgentRef := currentAgentRef st;
     host := host st; velocity := velocity st; isScrolling := isScrolling st;
     isSnapping := isSnapping st; lastUpdateTime := lastUpdateTime st;
     sections := sections st; lastTargetSection := x;
     inputAccumulator := inputAccumulator st; touchState := touchState st;
     currentTween := currentTween st;
     lastPlayedAgentIndex := lastPlayedAgentIndex st;
     isPhysicsPaused := isPhysicsPaused st; activeTweens := activeTweens st;
     nextTweenId := nextTweenId st; trace := trace st |}.

Definition set_inputAccumulator (x : R) (st : Scroller) : Scroller :=
  {| positionRef := positionRef st; currentAgentRef := currentAgentRef st;
     host := host st; velocity := velocity st; isScrolling := isScrolling st;
     isSnapping := isSnapping st; lastUpdateTime := lastUpdateTime st;
     sections := sections st; lastTargetSection := lastTargetSection st;
     inputAccumulator := x; touchState := touchState st;
     currentTween := currentTween st;
     lastPlayedAgentIndex := lastPlayedAgentIndex st;
     isPhysicsPaused := isPhysicsPaused st; activeTweens := activeTweens st;
     nextTweenId := nextTweenId st; trace := trace st |}.

Definition set_touchState (x : Touch.State) (st : Scroller) : Scroller :=
  {| positionRef := positionRef st; currentAgentRef := currentAgentRef st;
     host := host st; velocity := velocity st; isScrolling := isScrolling st;
     isSnapping := isSnapping st; lastUpdateTime := lastUpdateTime st;
     sections := sections st; lastTargetSection := lastTargetSection st;
     inputAccumulator := inputAccumulator st; touchState := x;
     currentTween := currentTween st;
     lastPlayedAgentIndex := lastPlayedAgentIndex st;
     isPhysicsPaused := isPhysicsPaused st; activeTweens := activeTweens st;
     nextTweenId := nextTweenId st; trace := trace st |}.

Definition set_currentTween (x : option GSAPTween) (st : Scroller) : Scroller :=
  {| positionRef := positionRef st; currentAgentRef := currentAgentRef st;
     host := host st; velocity := velocity st; isScrolling := isScrolling st;
     isSnapping := isSnapping st; lastUpdateTime := lastUpdateTime st;
     sections := sections st; lastTargetSection := lastTargetSection st;
     inputAccumulator := inputAccumulator st; touchState := touchState st;
     currentTween := x; lastPlayedAgentIndex := lastPlayedAgentIndex st;
     isPhysicsPaused := isPhysicsPaused st; activeTweens := activeTweens st;
     nextTweenId := nextTweenId st; trace := trace st |}.

Definition set_lastPlayedAgentIndex (x : option Z) (st : Scroller) : Scroller :=
  {| positionRef := positionRef st; currentAgentRef := currentAgentRef st;
     host := host st; velocity := velocity st; isScrolling := isScrolling st;
     isSnapping := isSnapping st; lastUpdateTime := lastUpdateTime st;
     sections := sections st; lastTargetSection := lastTargetSection st;
     inputAccumulator := inputAccumulator st; touchState := touchState st;
     currentTween := currentTween st; lastPlayedAgentIndex := x;
     isPhysicsPaused := isPhysicsPaused st; activeTweens := activeTweens st;
     nextTweenId := nextTweenId st; trace := trace st |}.

Definition set_isPhysicsPaused (x : bool) (st : Scroller) : Scroller :=
  {| positionRef := positionRef st; currentAgentRef := currentAgentRef st;
     host := host st; velocity := velocity st; isScrolling := isScrolling st;
     isSnapping := isSnapping st; lastUpdateTime := lastUpdateTime st;
     sections := sections st; lastTargetSection := lastTargetSection st;
     inputAccumulator := inputAccumulator st; touchState := touchState st;
     currentTween := currentTween st;
     lastPlayedAgentIndex := lastPlayedAgentIndex st; isPhysicsPaused := x;
     activeTweens := activeTweens st; nextTweenId := nextTweenId st;
     trace := trace st |}.

Definition set_activeTweens (x : list GSAPTween) (st : Scroller) : Scroller :=
  {| positionRef := positionRef st; currentAgentRef := currentAgentRef st;
     host := host st; velocity := velocity st; isScrolling := isScrolling st;
     isSnapping := isSnapping st; lastUpdateTime := lastUpdateTime st;
     sections := sections st; lastTargetSection := lastTargetSection st;
     inputAccumulator := inputAccumulator st; touchState := touchState st;
     currentTween := currentTween st;
     lastPlayedAgentIndex := lastPlayedAgentIndex st;
     isPhysicsPaused := isPhysicsPaused st; activeTweens := x;
     nextTweenId := nextTweenId st; trace := trace st |}.

Definition set_nextTweenId (x : nat) (st : Scroller) : Scroller :=
  {| positionRef := positionRef st; currentAgentRef := currentAgentRef st;
     host := host st; velocity := velocity st; isScrolling := isScrolling st;
     isSnapping := isSnapping st; lastUpdateTime := lastUpdateTime st;
     sections := sections st; lastTargetSection := lastTargetSection st;
     inputAccumulator := inputAccumulator st; touchState := touchState st;
     currentTween := currentTween st;
     lastPlayedAgentIndex := lastPlayedAgentIndex st;
     isPhysicsPaused := isPhysicsPaused st; activeTweens := activeTweens st;
     nextTweenId := x; trace := trace st |}.

Definition set_trace (x : list Effect) (st : Scroller) : Scroller :=
  {| positionRef := positionRef st; currentAgentRef := currentAgentRef st;
     host := host st; velocity := velocity st; isScrolling := isScrolling st;
     isSnapping := isSnapping st; lastUpdateTime := lastUpdateTime st;
     sections := sections st; lastTargetSection := lastTargetSection st;
     inputAccumulator := inputAccumulator st; touchState := touchState st;
     currentTween := currentTween st;
     lastPlayedAgentIndex := lastPlayedAgentIndex st;
     isPhysicsPaused := isPhysicsPaused st; activeTweens := activeTweens st;
     nextTweenId := nextTweenId st; trace := x |}.
Definition emit (e : Effect) (st : Scroller) : Scroller :=
  set_trace (trace st ++ [e]) st.

(** The constants of the class. *)
Definition friction : R := 0.015.
Definition maxVelocity : R := 25.
Definition minVelocity : R := 0.02.
Definition snapRadius : R := 30.
Definition accelerationMultiplier : R := 1.2.

(** The scroller as its fields are initialised.  The constructor ends with
    [startPhysicsLoop], which runs one round of the physics loop at once:
    that round is the first [AnimationFrame] of a run. *)
Definition construct (h : Host) (position0 : R) (agent0 : Z) : Scroller :=
  {| positionRef := position0; currentAgentRef := agent0; host := h;
     velocity := 0; isScrolling := false; isSnapping := false;
     lastUpdateTime := 0; sections := generateSections;
     lastTargetSection := None; inputAccumulator := 0;
     touchState := Touch.mkState 0 0 0 false 0 0 0;
     currentTween := None; lastPlayedAgentIndex := None;
     isPhysicsPaused := false; activeTweens := []; nextTweenId := 0%nat;
     trace := [] |}.

Definition playTransitionSound (st : Scroller) : Scroller :=
  emit PlayTransitionSound st.

Definition updateScene (st : Scroller) : Scroller :=
  let st1 :=
    if pathRenderer (host st) then emit (CreateDottedPath (positionRef st)) st
    else st in
  let currentAgent := Zfloor (positionRef st1 / 60) in
  let st2 :=
    if negb (currentAgent =? currentAgentRef st1) && sceneManager (host st1)
    then emit (UpdateBackgroundForAgent currentAgent)
              (set_currentAgentRef currentAgent st1)
    else st1 in
  match lastPlayedAgentIndex st2 with
  | Some last =>
      if last =? currentAgent then st2
      else
        let st3 := set_lastPlayedAgentIndex (Some currentAgent) st2 in
        if 0 <? currentAgent then playTransitionSound st3 else st3
  | None =>
      let st3 := set_lastPlayedAgentIndex (Some currentAgent) st2 in
      if 0 <? currentAgent then playTransitionSound st3 else st3
  end.

(** [tween.kill()]: the driver stops running the tween. *)
Definition kill (tw : GSAPTween) (st : Scroller) : Scroller :=
  emit (TweenKill (tweenId tw))
    (set_activeTweens
       (filter (fun t => negb (Nat.eqb (tweenId t) (tweenId tw)))
          (activeTweens st)) st).

Definition killAllTweens (st : Scroller) : Scroller :=
  if gsap (host st) then
    match currentTween st with
    | Some tw => set_currentTween None (kill tw st)
    | None => st
    end
  else st.

Definition applyMagneticForces (st : Scroller) : Scroller :=
  if Rltb 5 (Rabs (velocity st)) then st
  else
    let currentPos := positionRef st in
    let nearSections :=
      filter (fun s => Rleb (Rabs (IZR (position s) - currentPos)) snapRadius)
        (sections st) in
    fold_left
      (fun st' section =>
         let distance := (IZR (position section) - currentPos)%R in
         let absDistance := Rabs distance in
         if Rltb 0.5 absDistance && Rleb absDistance snapRadius then
           let force :=
             ((IZR (magnetism section) / 100) * (1 - absDistance / snapRadius))%R in
           let magneticForce := (sign distance * force * 0.02)%R in
           set_velocity (velocity st' + magneticForce)%R st'
         else st')
      nearSections st.

Definition updateMomentum (deltaTime : R) (st : Scroller) : Scroller :=
  if isSnapping st then st
  else
    let st1 :=
      set_velocity (velocity st * Rpower friction (deltaTime / 16))%R st in
    let st2 :=
      if Rltb 0.001 (Rabs (inputAccumulator st1)) then
        set_inputAccumulator (inputAccumulator st1 * 0.85)%R
          (set_velocity (velocity st1 + inputAccumulator st1 * 0.5)%R st1)
      else st1 in
    let st3 := applyMagneticForces st2 in
    if Rltb (Rabs (velocity st3)) minVelocity then set_velocity 0%R st3
    else set_velocity (clamp (- maxVelocity) maxVelocity (velocity st3)) st3.

Definition updatePosition (st : Scroller) : Scroller :=
  if Rltb 0.01 (Rabs (velocity st)) then
    let newPosition := Rmax 0 (positionRef st + velocity st) in
    if negb (Reqb newPosition (positionRef st)) then
      updateScene (set_positionRef newPosition st)
    else st
  else st.

(** A candidate of [findBestSnapTarget] with its score. *)
Record Scored := mkScored { section : ScrollSection; score : R }.

(** [scored.sort((a, b) => b.score - a.score)]: stable, best score first. *)
Fixpoint insertByScore (x : Scored) (l : list Scored) : list Scored :=
  match l with
  | [] => [x]
  | y :: r =>
      if Rleb (score y) (score x) then x :: y :: r else y :: insertByScore x r
  end.

Definition sortByScore (l : list Scored) : list Scored :=
  fold_right insertByScore [] l.

Definition findBestSnapTarget (st : Scroller) : option ScrollSection :=
  let currentPos := positionRef st in
  let velocityDirection := sign (velocity st) in
  let searchAhead :=
    (velocityDirection * Rmin (Rabs (velocity st) * 2) 20)%R in
  let predictedPos := (currentPos + searchAhead)%R in
  let candidates :=
    filter
      (fun s => Rleb (Rabs (IZR (position s) - predictedPos)) (snapRadius * 1.5))
      (sections st) in
  match candidates with
  | [] => None
  | _ =>
      let scored :=
        map (fun s =>
               let distance := Rabs (IZR (position s) - currentPos) in
               let predictedDistance := Rabs (IZR (position s) - predictedPos) in
               let magnetismScore := (IZR (magnetism s) / 100)%R in
               let proximityScore := (1 - distance / snapRadius)%R in
               let predictionScore :=
                 (1 - predictedDistance / (snapRadius * 1.5))%R in
               mkScored s
                 (magnetismScore * 0.4 + proximityScore * 0.4
                  + predictionScore * 0.2)%R)
          candidates in
      match sortByScore scored with
      | best :: _ => Some (section best)
      | [] => None
      end
  end.

Definition findTargetSection (direction : Z) (type_ : SnapType) (st : Scroller)
  : option ScrollSection :=
  let currentPos := positionRef st in
  let candidates :=
    match type_ with
    | snapAgent => filter (fun s => SectionType_eqb (type s) agent) (sections st)
    | snapAny => filter (fun s => 55 <=? magnetism s) (sections st)
    end in
  if 0 <? direction then
    find (fun s => Rltb (currentPos + 1) (IZR (position s))) candidates
  else
    find (fun s => Rltb (IZR (position s)) (currentPos - 1)) (rev candidates).

(** [gsap.to(positionRef, ...)]: the driver starts running a new tween. *)
Definition gsapTo (target : ScrollSection) (seconds : R) (st : Scroller)
  : Scroller :=
  let tw := mkTween (nextTweenId st) (positionRef st) (IZR (position target))
              seconds target in
  emit (GsapTo (tweenId tw) (tweenTo tw) seconds)
    (set_currentTween (Some tw)
       (set_nextTweenId (S (nextTweenId st))
          (set_activeTweens (activeTweens st ++ [tw]) st))).

Definition snapToSection (targetSection : ScrollSection) (st : Scroller)
  : Scroller :=
  if isSnapping st then st
  else
    let st1 :=
      set_inputAccumulator 0%R
        (set_velocity 0%R (set_isScrolling false (set_isSnapping true st))) in
    let st2 := killAllTweens st1 in
    if negb (gsap (host st2)) then
      set_isSnapping false
        (updateScene (set_positionRef (IZR (position targetSection)) st2))
    else
      let distance := Rabs (IZR (position targetSection) - positionRef st2) in
      let baseDuration := snapDuration targetSection in
      let adjustedDuration :=
        Rmin (baseDuration * (1 + distance / 100)) (baseDuration * 2) in
      let st3 :=
        if animationManager (host st2) then
          emit (OptimizeForGSAPAnimation true) st2
        else st2 in
      let st4 := gsapTo targetSection adjustedDuration st3 in
      match type targetSection with
      | agent => playTransitionSound st4
      | _ => st4
      end.

(** The target [checkForAutoSnap] hands to [snapToSection], if any. *)
Definition autoSnapTarget (st : Scroller) : option ScrollSection :=
  if isSnapping st || isScrolling st then None
  else
    let currentVel := Rabs (velocity st) in
    if Rltb 0.1 currentVel && Rltb currentVel 2 then
      match findBestSnapTarget st with
      | Some targetSection =>
          let distance := Rabs (IZR (position targetSection) - positionRef st) in
          let shouldSnap :=
            Rleb distance snapRadius && (55 <=? magnetism targetSection) in
          if shouldSnap then Some targetSection else None
      | None => None
      end
    else None.

Definition checkForAutoSnap (st : Scroller) : Scroller :=
  match autoSnapTarget st with
  | Some targetSection => snapToSection targetSection st
  | None => st
  end.

Definition handleWheel (deltaY : R) (ctrlKey metaKey : bool) (st : Scroller)
  : Scroller :=
  if ctrlKey || metaKey then st
  else
    let intensity := Rmin (Rabs deltaY) 150 in
    let direction := sign deltaY in
    let st1 :=
      set_isScrolling true
        (set_inputAccumulator
           (inputAccumulator st + direction * intensity * 0.01)%R st) in
    let acceleration :=
      (direction * intensity * 0.015 * accelerationMultiplier)%R in
    set_velocity
      (clamp (- maxVelocity) maxVelocity (velocity st1 + acceleration)) st1.

Definition keyIn (key : string) (keys : list string) : bool :=
  existsb (String.eqb key) keys.

(** The target [handleKeyDown] hands to [snapToSection], if any. *)
Definition keyDownTarget (key : string) (shiftKey : bool) (st : Scroller)
  : option ScrollSection :=
  if keyIn key ["ArrowUp"; "w"; "W"]%string then
    findTargetSection (-1) (if shiftKey then snapAgent else snapAny) st
  else if keyIn key ["ArrowDown"; "s"; "S"]%string then
    findTargetSection 1 (if shiftKey then snapAgent else snapAny) st
  else if keyIn key ["ArrowLeft"; "a"; "A"]%string then
    findTargetSection (-1) snapAgent st
  else if keyIn key ["ArrowRight"; "d"; "D"; " "]%string then
    findTargetSection 1 snapAgent st
  else None.

Definition handleKeyDown (key : string) (shiftKey : bool) (st : Scroller)
  : Scroller :=
  if isSnapping st then st
  else
    match keyDownTarget key shiftKey st with
    | Some targetSection => snapToSection targetSection st
    | None => st
    end.

Definition handleTouchStart (touches : list R) (now : R) (st : Scroller)
  : Scroller :=
  match touches with
  | [clientY] =>
      set_velocity 0%R
        (killAllTweens
           (set_touchState (Touch.mkState clientY clientY now true 0 0 0) st))
  | _ => st
  end.

Definition handleTouchMove (touches : list R) (now : R) (st : Scroller)
  : Scroller :=
  let ts := touchState st in
  match touches with
  | [currentY] =>
      if negb (Touch.isActive ts) then st
      else
        let deltaY := (Touch.lastY ts - currentY)%R in
        let timeDelta := (now - Touch.startTime ts)%R in
        if Rltb 1 (Rabs deltaY) then
          let lastVelocity' := Touch.velocity ts in
          let velocity' := (deltaY / Rmax timeDelta 1 * 60)%R in
          let acceleration' :=
            ((velocity' - lastVelocity') / Rmax timeDelta 1)%R in
          let enhancedDelta := (deltaY * 0.18)%R in
          set_isScrolling true
            (set_touchState
               (Touch.mkState (Touch.startY ts) currentY (Touch.startTime ts)
                  (Touch.isActive ts) velocity' lastVelocity' acceleration')
               (set_velocity
                  (clamp (- maxVelocity) maxVelocity (velocity st + enhancedDelta))
                  st))
        else st
  | _ => st
  end.

Definition handleTouchEnd (st : Scroller) : Scroller :=
  let ts := touchState st in
  if negb (Touch.isActive ts) then st
  else
    let finalVelocity := clamp (-35) 35 (Touch.velocity ts) in
    let accelerationBoost := (Touch.acceleration ts * 0.5)%R in
    set_touchState
      (Touch.mkState (Touch.startY ts) (Touch.lastY ts) (Touch.startTime ts)
         false (Touch.velocity ts) (Touch.lastVelocity ts)
         (Touch.acceleration ts))
      (set_velocity (velocity st + (finalVelocity * 0.35 + accelerationBoost))%R
         st).

(** The target [handleClick] hands to [snapToSection], if any. *)
Definition clickTarget (clickX clickY screenWidth : R) (st : Scroller)
  : option ScrollSection :=
  if Rleb (screenWidth - 200) clickX && Rleb clickY 100 then None
  else if Rltb clickX (screenWidth * 0.15) then findTargetSection (-1) snapAgent st
  else if Rltb (screenWidth * 0.85) clickX then findTargetSection 1 snapAgent st
  else if Rltb clickX (screenWidth * 0.35) then findTargetSection (-1) snapAny st
  else if Rltb (screenWidth * 0.65) clickX then findTargetSection 1 snapAny st
  else None.

Definition handleClick (clickX clickY screenWidth : R) (st : Scroller)
  : Scroller :=
  if isSnapping st then st
  else
    match clickTarget clickX clickY screenWidth st with
    | Some targetSection => snapToSection targetSection st
    | None => st
    end.

(** The first timer of the input handlers. *)
Definition handleInputEnd (st : Scroller) : Scroller :=
  set_inputAccumulator (inputAccumulator st * 0.5)%R (set_isScrolling false st).

(** The timer [handleInputEnd] sets. *)
Definition inputEndAutoSnap (st : Scroller) : Scroller :=
  if negb (isScrolling st) && negb (isSnapping st) then checkForAutoSnap st
  else st.

(** One round of the physics loop, [updatePhysics], at time [now]. *)
Definition updatePhysics (now : R) (st : Scroller) : Scroller :=
  if isPhysicsPaused st then st
  else
    let elapsed := (now - lastUpdateTime st)%R in
    let deltaTime := if Reqb elapsed 0 then 16%R else elapsed in
    checkForAutoSnap
      (updatePosition (updateMomentum deltaTime (set_lastUpdateTime now st))).

(** The tween driver (gsap, which is not code of this repository), as the
    scroller relies on it: a running tween writes the eased value between its
    start and its target into [positionRef] and calls [onUpdate]; when it
    completes it writes the target itself, calls [onUpdate] and [onComplete],
    and stops running. *)
Definition runningTween (id : nat) (st : Scroller) : option GSAPTween :=
  find (fun tw => Nat.eqb (tweenId tw) id) (activeTweens st).

Definition tweenUpdate (id : nat) (progress : R) (st : Scroller) : Scroller :=
  match runningTween id st with
  | Some tw =>
      let eased := power2out (clamp 0 1 progress) in
      updateScene
        (set_positionRef
           (tweenFrom tw + (tweenTo tw - tweenFrom tw) * eased)%R st)
  | None => st
  end.

Definition onComplete (tw : GSAPTween) (st : Scroller) : Scroller :=
  let st1 :=
    set_lastTargetSection (Some (tweenTarget tw)) (set_isSnapping false st) in
  if animationManager (host st1) then
    emit (OptimizeForGSAPAnimation false) st1
  else st1.

Definition tweenComplete (id : nat) (st : Scroller) : Scroller :=
  match runningTween id st with
  | Some tw =>
      let st1 := updateScene (set_positionRef (tweenTo tw) st) in
      let st2 :=
        set_activeTweens
          (filter (fun t => negb (Nat.eqb (tweenId t) id)) (activeTweens st1))
          st1 in
      onComplete tw st2
  | None => st
  end.

(** Everything that can happen to a scroller. *)
Inductive Input :=
| Wheel (deltaY : R) (ctrlKey metaKey : bool)
| KeyDown (key : string) (shiftKey : bool)
| TouchStart (touches : list R) (now : R)
| TouchMove (touches : list R) (now : R)
| TouchEnd
| Click (clientX clientY innerWidth : R)
| InputEndTimer
| AutoSnapTimer
| AnimationFrame (now : R)
| TweenUpdate (tween : nat) (progress : R)
| TweenComplete (tween : nat)
| PausePhysicsLoop
| ResumePhysicsLoop.

Definition step (st : Scroller) (i : Input) : Scroller :=
  match i with
  | Wheel deltaY ctrlKey metaKey => handleWheel deltaY ctrlKey metaKey st
  | KeyDown key shiftKey => handleKeyDown key shiftKey st
  | TouchStart touches now => handleTouchStart touches now st
  | TouchMove touches now => handleTouchMove touches now st
  | TouchEnd => handleTouchEnd st
  | Click x y w => handleClick x y w st
  | InputEndTimer => handleInputEnd st
  | AutoSnapTimer => inputEndAutoSnap st
  | AnimationFrame now => updatePhysics now st
  | TweenUpdate id progress => tweenUpdate id progress st
  | TweenComplete id => tweenComplete id st
  | PausePhysicsLoop => set_isPhysicsPaused true st
  | ResumePhysicsLoop => set_isPhysicsPaused false st
  end.

Definition run (st : Scroller) (inputs : list Input) : Scroller :=
  fold_left step inputs st.

(** The states of a run, one after each input. *)
Fixpoint states (st : Scroller) (inputs : list Input) : list Scroller :=
  match inputs with
  | [] => []
  | i :: rest => step st i :: states (step st i) rest
  end.

End EnhancedMomentumScroller.

(** ** SmoothSectionScroller *)

Module SmoothSectionScroller.

Record SectionConfig := mkSection {
  position : Z;
  type : SectionType;
  priority : Z
}.

Definition AGENT_SPACING : Z := 60.
Definition MILESTONE_SPACING : Z := 40.
Definition SHAPE_SPACING : Z := 15.
Definition DECORATIVE_SPACING : Z := 8.
Definition SCROLL_SENSITIVITY : R := 0.8.

(** The body of the loop of [generateSections]. *)
Definition sectionAt (pos : Z) : option SectionConfig :=
  if (jsmod pos AGENT_SPACING =? 0) && (0 <? pos) then
    Some (mkSection pos agent 100)
  else if (jsmod pos MILESTONE_SPACING =? 0) && (0 <? pos)
          && negb (jsmod pos AGENT_SPACING =? 0) then
    Some (mkSection pos milestone 80)
  else if (jsmod pos SHAPE_SPACING =? 0) && (0 <? pos)
          && negb (jsmod pos AGENT_SPACING =? 0)
          && negb (jsmod pos MILESTONE_SPACING =? 0) then
    Some (mkSection pos shape 60)
  else if (jsmod pos DECORATIVE_SPACING =? 0) && (0 <? pos)
          && negb (jsmod pos AGENT_SPACING =? 0)
          && negb (jsmod pos MILESTONE_SPACING =? 0)
          && negb (jsmod pos SHAPE_SPACING =? 0) then
    Some (mkSection pos decorative 40)
  else None.

Definition horizon : nat := 2000.

Definition generateSectionsUpTo (h : nat) : list SectionConfig :=
  sortByKey position (flat_map (fun pos => pushOpt (sectionAt pos)) (upto h)).

Definition generateSections : list SectionConfig := generateSectionsUpTo horizon.

Arguments generateSections : simpl never.

(** The eases this scroller asks the tween driver for: [power2] is the
    cubic ease and [power3] the quartic one. *)
Inductive Ease := power2_out | power2_inOut | power3_out.

Definition eased (e : Ease) (p : R) : R :=
  match e with
  | power2_out => power2out p
  | power3_out => (1 - (1 - p) * (1 - p) * (1 - p) * (1 - p))%R
  | power2_inOut =>
      if Rltb p 0.5 then (4 * p * p * p)%R
      else (1 - 4 * (1 - p) * (1 - p) * (1 - p))%R
  end.

(** A tween on [positionRef]; [tweenSnap] tells the tweens of
    [snapToSection], which have an [onComplete], from those of
    [applyImmediateScroll], which have none. *)
Record GSAPTween := mkTween {
  tweenId : nat;
  tweenFrom : R;
  tweenTo : R;
  tweenDuration : R;
  tweenEase : Ease;
  tweenSnap : bool
}.

Record Scroller := mkScroller {
  positionRef : R;
  currentAgentRef : Z;
  host : Host;
  isScrolling : bool;
  isSnapping : bool;
  scrollVelocity : R;
  scrollAccumulator : R;
  scrollDirection : R;
  sections : list SectionConfig;
  currentTween : option GSAPTween;
  touchStartY : R;
  activeTweens : list GSAPTween;
  nextTweenId : nat;
  trace : list Effect
}.

Definition set_positionRef (x : R) (st : Scroller) : Scroller :=
  {| positionRef := x; currentAgentRef := currentAgentRef st; host := host st;
     isScrolling := isScrolling st; isSnapping := isSnapping st;
     scrollVelocity := scrollVelocity st;
     scrollAccumulator := scrollAccumulator st;
     scrollDirection := scrollDirection st; sections := sections st;
     currentTween := currentTween st; touchStartY := touchStartY st;
     activeTweens := activeTweens st; nextTweenId := nextTweenId st;
     trace := trace st |}.

Definition set_isScrolling (x : bool) (st : Scroller) : Scroller :=
  {| positionRef := positionRef st; currentAgentRef := currentAgentRef st;
     host := host st; isScrolling := x; isSnapping := isSnapping st;
     scrollVelocity := scrollVelocity st;
     scrollAccumulator := scrollAccumulator st;
     scrollDirection := scrollDirection st; sections := sections st;
     currentTween := currentTween st; touchStartY := touchStartY st;
     activeTweens := activeTweens st; nextTweenId := nextTweenId st;
     trace := trace st |}.

Definition set_isSnapping (x : bool) (st : Scroller) : Scroller :=
  {| positionRef := positionRef st; currentAgentRef := currentAgentRef st;
     host := host st; isScrolling := isScrolling st; isSnapping := x;
     scrollVelocity := scrollVelocity st;
     scrollAccumulator := scrollAccumulator st;
     scrollDirection := scrollDirection st; sections := sections st;
     currentTween := currentTween st; touchStartY := touchStartY st;
     activeTweens := activeTweens st; nextTweenId := nextTweenId st;
     trace := trace st |}.

Definition set_scrollVelocity (x : R) (st : Scroller) : Scroller :=
  {| positionRef := positionRef st; currentAgentRef := currentAgentRef st;
     host := host st; isScrolling := isScrolling st;
     isSnapping := isSnapping st; scrollVelocity := x;
     scrollAccumulator := scrollAccumulator st;
     scrollDirection := scrollDirection st; sections := sections st;
     currentTween := currentTween st; touchStartY := touchStartY st;
     activeTweens := activeTweens st; nextTweenId := nextTweenId st;
     trace := trace st |}.

Definition set_scrollAccumulator (x : R) (st : Scroller) : Scroller :=
  {| positionRef := positionRef st; currentAgentRef := currentAgentRef st;
     host := host st; isScrolling := isScrolling st;
     isSnapping := isSnapping st; scrollVelocity := scrollVelocity st;
     scrollAccumulator := x; scrollDirection := scrollDirection st;
     sections := sections st; currentTween := currentTween st;
     touchStartY := touchStartY st; activeTweens := activeTweens st;
     nextTweenId := nextTweenId st; trace := trace st |}.

Definition set_scrollDirection (x : R) (st : Scroller) : Scroller :=
  {| positionRef := positionRef st; currentAgentRef := currentAgentRef st;
     host := host st; isScrolling := isScrolling st;
     isSnapping := isSnapping st; scrollVelocity := scrollVelocity st;
     scrollAccumulator := scrollAccumulator st; scrollDirection := x;
     sections := sections st; currentTween := currentTween st;
     touchStartY := touchStartY st; activeTweens := activeTweens st;
     nextTweenId := nextTweenId st; trace := trace st |}.

Definition set_sections (x : list SectionConfig) (st : Scroller) : Scroller :=
  {| positionRef := positionRef st; currentAgentRef := currentAgentRef st;
     host := host st; isScrolling := isScrolling st;
     isSnapping := isSnapping st; scrollVelocity := scrollVelocity st;
     scrollAccumulator := scrollAccumulator st;
     scrollDirection := scrollDirection st; sections := x;
     currentTween := currentTween st; touchStartY := touchStartY st;
     activeTweens := activeTweens st; nextTweenId := nextTweenId st;
     trace := trace st |}.

Definition set_currentTween (x : option GSAPTween) (st : Scroller) : Scroller :=
  {| positionRef := positionRef st; currentAgentRef := currentAgentRef st;
     host := host st; isScrolling := isScrolling st;
     isSnapping := isSnapping st; scrollVelocity := scrollVelocity st;
     scrollAccumulator := scrollAccumulator st;
     scrollDirection := scrollDirection st; sections := sections st;
     currentTween := x; touchStartY := touchStartY st;
     activeTweens := activeTweens st; nextTweenId := nextTweenId st;
     trace := trace st |}.

Definition set_touchStartY (x : R) (st : Scroller) : Scroller :=
  {| positionRef := positionRef st; currentAgentRef := currentAgentRef st;
     host := host st; isScrolling := isScrolling st;
     isSnapping := isSnapping st; scrollVelocity := scrollVelocity st;
     scrollAccumulator := scrollAccumulator st;
     scrollDirection := scrollDirection st; sections := sections st;
     currentTween := currentTween st; touchStartY := x;
     activeTweens := activeTweens st; nextTweenId := nextTweenId st;
     trace := trace st |}.

Definition set_activeTweens (x : list GSAPTween) (st : Scroller) : Scroller :=
  {| positionRef := positionRef st; currentAgentRef := currentAgentRef st;
     host := host st; isScrolling := isScrolling st;
     isSnapping := isSnapping st; scrollVelocity := scrollVelocity st;
     scrollAccumulator := scrollAccumulator st;
     scrollDirection := scrollDirection st; sections := sections st;
     currentTween := currentTween st; touchStartY := touchStartY st;
     activeTweens := x; nextTweenId := nextTweenId st; trace := trace st |}.

Definition set_nextTweenId (x : nat) (st : Scroller) : Scroller :=
  {| positionRef := positionRef st; currentAgentRef := currentAgentRef st;
     host := host st; isScrolling := isScrolling st;
     isSnapping := isSnapping st; scrollVelocity := scrollVelocity st;
     scrollAccumulator := scrollAccumulator st;
     scrollDirection := scrollDirection st; sections := sections st;
     currentTween := currentTween st; touchStartY := touchStartY st;
     activeTweens := activeTweens st; nextTweenId := x; trace := trace st |}.

Definition set_trace (x : list Effect) (st : Scroller) : Scroller :=
  {| positionRef := positionRef st; currentAgentRef := currentAgentRef st;
     host := host st; isScrolling := isScrolling st;
     isSnapping := isSnapping st; scrollVelocity := scrollVelocity st;
     scrollAccumulator := scrollAccumulator st;
     scrollDirection := scrollDirection st; sections := sections st;
     currentTween := currentTween st; touchStartY := touchStartY st;
     activeTweens := activeTweens st; nextTweenId := nextTweenId st; trace := x |}.
Definition emit (e : Effect) (st : Scroller) : Scroller :=
  set_trace (trace st ++ [e]) st.

Definition construct (h : Host) (position0 : R) (agent0 : Z) : Scroller :=
  {| positionRef := position0; currentAgentRef := agent0; host := h;
     isScrolling := false; isSnapping := false; scrollVelocity := 0;
     scrollAccumulator := 0; scrollDirection := 0;
     sections := generateSections; currentTween := None; touchStartY := 0;
     activeTweens := []; nextTweenId := 0%nat; trace := [] |}.

Definition playTransitionSound (st : Scroller) : Scroller :=
  emit PlayTransitionSound st.

Definition updateScene (st : Scroller) : Scroller :=
  let st1 :=
    if pathRenderer (host st) then emit (CreateDottedPath (positionRef st)) st
    else st in
  let currentAgent := Zfloor (positionRef st1 / 60) in
  if negb (currentAgent =? currentAgentRef st1) && sceneManager (host st1)
  then emit (UpdateBackgroundForAgent currentAgent) st1
  else st1.

(** [this.currentTween.kill(); this.currentTween = null], when there is one. *)
Definition killCurrentTween (st : Scroller) : Scroller :=
  match currentTween st with
  | Some tw =>
      set_currentTween None
        (emit (TweenKill (tweenId tw))
           (set_activeTweens
              (filter (fun t => negb (Nat.eqb (tweenId t) (tweenId tw)))
                 (activeTweens st)) st))
  | None => st
  end.

Definition gsapTo (target seconds : R) (e : Ease) (snap : bool) (st : Scroller)
  : Scroller :=
  let tw := mkTween (nextTweenId st) (positionRef st) target seconds e snap in
  emit (GsapTo (tweenId tw) target seconds)
    (set_currentTween (Some tw)
       (set_nextTweenId (S (nextTweenId st))
          (set_activeTweens (activeTweens st ++ [tw]) st))).

Definition applyImmediateScroll (st : Scroller) : Scroller :=
  if Rltb 0.1 (Rabs (scrollAccumulator st)) then
    let movement := (scrollAccumulator st * 0.3)%R in
    let newPosition := Rmax 0 (positionRef st + movement) in
    let st1 := killCurrentTween st in
    let st2 :=
      if gsap (host st1) then gsapTo newPosition 0.1 power2_out false st1
      else updateScene (set_positionRef newPosition st1) in
    set_scrollAccumulator (scrollAccumulator st2 * 0.7)%R st2
  else st.

Definition snapToSection (targetPosition : R) (seconds : R) (st : Scroller)
  : Scroller :=
  if isSnapping st || Reqb targetPosition (positionRef st) then st
  else
    let st1 :=
      set_scrollAccumulator 0%R (set_isScrolling false (set_isSnapping true st)) in
    let st2 := killCurrentTween st1 in
    if negb (gsap (host st2)) then
      set_isSnapping false (updateScene (set_positionRef targetPosition st2))
    else
      let distance := Rabs (targetPosition - positionRef st2) in
      let ease := if Rltb 100 distance then power2_inOut else power3_out in
      let st3 :=
        if animationManager (host st2) then
          emit (OptimizeForGSAPAnimation true) st2
        else st2 in
      let st4 := gsapTo targetPosition seconds ease true st3 in
      match find (fun s => Reqb (IZR (position s)) targetPosition) (sections st4) with
      | Some s =>
          match type s with
          | agent => playTransitionSound st4
          | _ => st4
          end
      | None => st4
      end.

Definition handleWheel (deltaY : R) (ctrlKey metaKey : bool) (st : Scroller)
  : Scroller :=
  if ctrlKey || metaKey then st
  else if isSnapping st then st
  else
    let scrollIntensity := Rmin (Rabs deltaY) 100 in
    let direction := if Rltb 0 deltaY then 1%R else (-1)%R in
    let st1 :=
      set_isScrolling true
        (set_scrollVelocity (scrollIntensity / 100)%R
           (set_scrollDirection direction st)) in
    applyImmediateScroll
      (set_scrollAccumulator
         (scrollAccumulator st1
          + direction * scrollIntensity * SCROLL_SENSITIVITY * 0.15)%R st1).

(** The public per-frame [update]. *)
Definition update (st : Scroller) : Scroller :=
  if isScrolling st && Rltb 0.01 (Rabs (scrollAccumulator st)) then
    applyImmediateScroll st
  else st.

(** The tween driver, as for the other scroller. *)
Definition runningTween (id : nat) (st : Scroller) : option GSAPTween :=
  find (fun tw => Nat.eqb (tweenId tw) id) (activeTweens st).

Definition tweenComplete (id : nat) (st : Scroller) : Scroller :=
  match runningTween id st with
  | Some tw =>
      let st1 := updateScene (set_positionRef (tweenTo tw) st) in
      let st2 :=
        set_activeTweens
          (filter (fun t => negb (Nat.eqb (tweenId t) id)) (activeTweens st1))
          st1 in
      if tweenSnap tw then
        let st3 := set_isSnapping false st2 in
        if animationManager (host st3) then
          emit (OptimizeForGSAPAnimation false) st3
        else st3
      else st2
  | None => st
  end.

Definition MIN_SNAP_DISTANCE : R := 5.

Definition getSnapDuration (sectionType : SectionType) : R :=
  match sectionType with
  | agent => 1.5
  | milestone => 1.2
  | shape => 0.8
  | decorative => 0.6
  | micro => 1.0
  end.

(** The comparator of [findBestSnapTarget]: by priority, highest first, then
    by distance from the position. *)
Definition compareTargets (currentPos : R) (a b : SectionConfig) : R :=
  let aDist := Rabs (IZR (position a) - currentPos) in
  let bDist := Rabs (IZR (position b) - currentPos) in
  if negb (priority a =? priority b) then IZR (priority b - priority a)
  else (aDist - bDist)%R.

Definition findBestSnapTarget (st : Scroller) : option SectionConfig :=
  let currentPos := positionRef st in
  let searchRange := 30%R in
  let nearSections :=
    filter (fun s => Rleb (Rabs (IZR (position s) - currentPos)) searchRange)
      (sections st) in
  match nearSections with
  | [] => None
  | _ => hd_error (sortBy (compareTargets currentPos) nearSections)
  end.

(** [type_] is [None] for ['any']. *)
Definition findNearestSection (fromPosition : R) (direction : Z)
  (type_ : option SectionType) (st : Scroller) : option SectionConfig :=
  let filteredSections :=
    match type_ with
    | None => sections st
    | Some t => filter (fun s => SectionType_eqb (type s) t) (sections st)
    end in
  if 0 <? direction then
    find (fun s => Rltb fromPosition (IZR (position s))) filteredSections
  else
    find (fun s => Rltb (IZR (position s)) fromPosition) (rev filteredSections).

(** The section [handleScrollEnd] snaps to, if any. *)
Definition scrollEndTarget (st : Scroller) : option SectionConfig :=
  match findBestSnapTarget st with
  | Some nearestSection =>
      let distance := Rabs (IZR (position nearestSection) - positionRef st) in
      if Rleb distance MIN_SNAP_DISTANCE || (80 <=? priority nearestSection)
      then Some nearestSection
      else None
  | None => None
  end.

Definition handleScrollEnd (st : Scroller) : Scroller :=
  if isSnapping st then st
  else
    let st1 := set_scrollVelocity 0%R (set_isScrolling false st) in
    match scrollEndTarget st1 with
    | Some nearestSection =>
        snapToSection (IZR (position nearestSection))
          (getSnapDuration (type nearestSection)) st1
    | None => st1
    end.

Definition keyIn (key : string) (keys : list string) : bool :=
  existsb (String.eqb key) keys.

(** The section [handleKeyDown] snaps to, if any. *)
Definition keyDownTarget (key : string) (shiftKey : bool) (st : Scroller)
  : option SectionConfig :=
  if keyIn key ["ArrowUp"; "w"; "W"]%string then
    findNearestSection (positionRef st) (-1)
      (if shiftKey then Some agent else None) st
  else if keyIn key ["ArrowDown"; "s"; "S"]%string then
    findNearestSection (positionRef st) 1
      (if shiftKey then Some agent else None) st
  else if keyIn key ["ArrowLeft"; "a"; "A"]%string then
    findNearestSection (positionRef st) (-1) (Some agent) st
  else if keyIn key ["ArrowRight"; "d"; "D"; " "]%string then
    findNearestSection (positionRef st) 1 (Some agent) st
  else None.

Definition handleKeyDown (key : string) (shiftKey : bool) (st : Scroller)
  : Scroller :=
  if isSnapping st then st
  else
    match keyDownTarget key shiftKey st with
    | Some targetSection =>
        snapToSection (IZR (position targetSection))
          (getSnapDuration (type targetSection)) st
    | None => st
    end.

(** The section [handleClick] snaps to, if any. *)
Definition clickTarget (clickX screenWidth : R) (st : Scroller)
  : option SectionConfig :=
  if Rltb clickX (screenWidth * 0.2) then
    findNearestSection (positionRef st) (-1) (Some agent) st
  else if Rltb (screenWidth * 0.8) clickX then
    findNearestSection (positionRef st) 1 (Some agent) st
  else if Rltb clickX (screenWidth * 0.4) then
    findNearestSection (positionRef st) (-1) None st
  else if Rltb (screenWidth * 0.6) clickX then
    findNearestSection (positionRef st) 1 None st
  else None.

Definition handleClick (clickX screenWidth : R) (st : Scroller) : Scroller :=
  if isSnapping st then st
  else
    match clickTarget clickX screenWidth st with
    | Some targetSection =>
        snapToSection (IZR (position targetSection))
          (getSnapDuration (type targetSection)) st
    | None => st
    end.

Definition handleTouchStart (touches : list R) (st : Scroller) : Scroller :=
  match touches with
  | [clientY] => set_touchStartY clientY st
  | _ => st
  end.

Definition handleTouchMove (touches : list R) (st : Scroller) : Scroller :=
  if isSnapping st then st
  else
    match touches with
    | [touchY] =>
        let deltaY := (touchStartY st - touchY)%R in
        if Rltb 5 (Rabs deltaY) then
          let direction := if Rltb 0 deltaY then 1%R else (-1)%R in
          set_touchStartY touchY
            (applyImmediateScroll
               (set_scrollAccumulator
                  (scrollAccumulator st + direction * Rabs deltaY * 0.1)%R st))
        else st
    | _ => st
    end.

(** A running tween writes the eased value into [positionRef] and calls
    [onUpdate]. *)
Definition tweenUpdate (id : nat) (progress : R) (st : Scroller) : Scroller :=
  match runningTween id st with
  | Some tw =>
      let e := eased (tweenEase tw) (clamp 0 1 progress) in
      updateScene
        (set_positionRef (tweenFrom tw + (tweenTo tw - tweenFrom tw) * e)%R st)
  | None => st
  end.

(** Everything that can happen to this scroller; [TouchEnd] only sets the
    timer that [ScrollEndTimer] stands for. *)
Inductive Input :=
| Wheel (deltaY : R) (ctrlKey metaKey : bool)
| KeyDown (key : string) (shiftKey : bool)
| TouchStart (touches : list R)
| TouchMove (touches : list R)
| TouchEnd
| Click (clientX innerWidth : R)
| ScrollEndTimer
| Update
| TweenUpdate (tween : nat) (progress : R)
| TweenComplete (tween : nat).

Definition step (st : Scroller) (i : Input) : Scroller :=
  match i with
  | Wheel deltaY ctrlKey metaKey => handleWheel deltaY ctrlKey metaKey st
  | KeyDown key shiftKey => handleKeyDown key shiftKey st
  | TouchStart touches => handleTouchStart touches st
  | TouchMove touches => handleTouchMove touches st
  | TouchEnd => st
  | Click x w => handleClick x w st
  | ScrollEndTimer => handleScrollEnd st
  | Update => update st
  | TweenUpdate id progress => tweenUpdate id progress st
  | TweenComplete id => tweenComplete id st
  end.

Definition run (st : Scroller) (inputs : list Input) : Scroller :=
  fold_left step inputs st.

End SmoothSectionScroller.

(** ** PathRenderer: the scene window *)

Module PathRenderer.

Inductive Group := dotsGroup | cardsGroup | textGroup.

(** Where [createDottedPath] leaves a mesh built by
    [shapeManager.createVariousShapes]: on the path (the every-30 block), or
    moved [screenWidth * 0.35] to the left or to the right of it (the
    every-40 block). *)
Inductive Placement := onPath | leftOfPath | rightOfPath.

Inductive Kind :=
| Dot (col : Z)
| MilestoneText
| AgentBox
| VariousShape (place : Placement)
| BreakableCube (left : bool)
| DecorativeShape
| SplineObject.

(** What [createDottedPath] adds to the three groups: the objects of a row,
    with the curve offset, distance and height they are placed at, and the
    'Scroll to Explore' label.  Materials, colours and opacity are left
    out. *)
Inductive Object3D :=
| RowObject (g : Group) (k : Kind) (globalRowIndex : Z)
    (curveOffset : R) (distance : Z) (elevation : R)
| StartText.

Definition scrollThreshold : R := 0.1.
Definition visibleRange : Z := 30.

Definition hasScrollStarted (position : R) : bool :=
  Rltb scrollThreshold position.

Definition screenWidth : R := (2 * tan ((75 * PI / 180) / 2) * 25)%R.

Definition smoothStep (t : R) : R := (t * t * t * (t * (t * 6 - 15) + 10))%R.

Definition calculateRoundedCurve (position : R) (globalRowIndex : Z) : R :=
  if negb (hasScrollStarted position) then 0%R
  else
    let adjustedRowIndex := (IZR globalRowIndex - scrollThreshold)%R in
    let helixRadius := (screenWidth * 0.25)%R in
    let helixSpeed := 0.1%R in
    let angle := (Rmax 0 adjustedRowIndex * helixSpeed)%R in
    let xOffset := (cos angle * helixRadius)%R in
    let secondaryWave := (sin (angle * 2) * (screenWidth * 0.05))%R in
    let tertiaryWave := (cos (angle * 3) * (screenWidth * 0.02))%R in
    let helixOffset := (xOffset + secondaryWave + tertiaryWave)%R in
    let organicVariation :=
      (sin (adjustedRowIndex * 0.015) * (screenWidth * 0.01)
       + cos (adjustedRowIndex * 0.025) * (screenWidth * 0.005))%R in
    let progress := Rmin 1 (Rmax 0 adjustedRowIndex / 10) in
    let easedProgress := smoothStep progress in
    (helixOffset * easedProgress + organicVariation)%R.

Definition calculateHelixElevation (position : R) (globalRowIndex : Z) : R :=
  if negb (hasScrollStarted position) then 0.01%R
  else
    let adjustedRowIndex := (IZR globalRowIndex - scrollThreshold)%R in
    let elevationAmplitude := 3%R in
    let elevationSpeed := 0.15%R in
    let elevationAngle := (Rmax 0 adjustedRowIndex * elevationSpeed)%R in
    let mainElevation := (sin elevationAngle * elevationAmplitude)%R in
    let secondaryElevation :=
      (cos (elevationAngle * 2) * (elevationAmplitude * 0.3))%R in
    let organicVariation := (sin (adjustedRowIndex * 0.02) * 0.5)%R in
    let progress := Rmin 1 (Rmax 0 adjustedRowIndex / 10) in
    let easedProgress := smoothStep progress in
    let baseHeight := 0.01%R in
    (baseHeight
     + (mainElevation + secondaryElevation + organicVariation) * easedProgress)%R.

(** [when c objs]: the objects of a guarded block of the loop body. *)
Definition when (c : bool) (objs : list Object3D) : list Object3D :=
  if c then objs else [].

(** The body of the loop of [createDottedPath] for the row offset [i]. *)
Definition createRow (position : R) (i : Z) : list Object3D :=
  let globalRowIndex := Zfloor position + i in
  if globalRowIndex <? 0 then []
  else
    let distance := i * 8 in
    let started := hasScrollStarted position in
    let curveOffset :=
      if started then calculateRoundedCurve position globalRowIndex else 0%R in
    let elevation :=
      if started then calculateHelixElevation position globalRowIndex
      else 0.01%R in
    let place g k y := RowObject g k globalRowIndex curveOffset distance y in
    let positive := 0 <? globalRowIndex in
    let every n := jsmod globalRowIndex n =? 0 in
    map (fun col => place dotsGroup (Dot col) elevation) [0; 1; 2; 3; 4; 5]
    ++ when (positive && every 40 && started)
         [place textGroup MilestoneText elevation]
    ++ when (positive && every 60 && started)
         [place cardsGroup AgentBox elevation]
    ++ when (positive && every 30 && negb (every 120) && started)
         [place cardsGroup (VariousShape onPath) elevation]
    ++ when (positive && every 100 && started)
         [place cardsGroup (BreakableCube true) elevation;
          place cardsGroup (BreakableCube false) elevation]
    ++ when (positive && every 16 && negb (every 30) && started)
         [place cardsGroup DecorativeShape elevation]
    ++ when (positive && every 90 && started)
         [place cardsGroup SplineObject (elevation + 2)%R]
    ++ when (positive && every 40 && started)
         [place cardsGroup (VariousShape leftOfPath) (elevation + 2)%R;
          place cardsGroup (VariousShape rightOfPath) (elevation + 2)%R].

(** The row offsets [-visibleRange, ..., visibleRange - 1]. *)
Definition rowOffsets : list Z :=
  map (fun k => Z.of_nat k - visibleRange)
    (seq 0 (Z.to_nat (2 * visibleRange))).

(** [createDottedPath], when the three groups are there: everything the
    rebuild adds after clearing them. *)
Definition createDottedPath (position : R) : list Object3D :=
  flat_map (createRow position) rowOffsets ++ [StartText].

(** The scene holds an object of kind [k] for row [row]. *)
Definition emits (k : Kind) (row : Z) (scene : list Object3D) : Prop :=
  exists g c d e, In (RowObject g k row c d e) scene.

End PathRenderer.

(** * Derived notions used to state the properties *)

Module Notions.

Definition sumR (l : list R) : R := fold_right Rplus 0%R l.

(** The agent indices handed to [updateBackgroundForAgent], oldest first. *)
Fixpoint notifications (tr : list Effect) : list Z :=
  match tr with
  | [] => []
  | UpdateBackgroundForAgent i :: rest => i :: notifications rest
  | _ :: rest => notifications rest
  end.

Section Scene.
Import PathRenderer.

(** The decision the loop body takes for an object of kind [k] in a row. *)
Definition rowHas (started : bool) (row : Z) (k : Kind) : bool :=
  let positive := 0 <? row in
  let every n := jsmod row n =? 0 in
  match k with
  | Dot col => (0 <=? col) && (col <? 6)
  | MilestoneText => positive && every 40 && started
  | AgentBox => positive && every 60 && started
  | VariousShape onPath =>
      positive && every 30 && negb (every 120) && started
  | VariousShape _ => positive && every 40 && started
  | BreakableCube _ => positive && every 100 && started
  | DecorativeShape => positive && every 16 && negb (every 30) && started
  | SplineObject => positive && every 90 && started
  end.

End Scene.

Section Scrolling.
Import EnhancedMomentumScroller.

(** The pull of one section on a scroller at [currentPos], as the loop body
    of [applyMagneticForces] computes it. *)
Definition pullOf (currentPos : R) (s : ScrollSection) : R :=
  let distance := (IZR (position s) - currentPos)%R in
  let absDistance := Rabs distance in
  if Rltb 0.5 absDistance && Rleb absDistance snapRadius then
    (sign distance
     * ((IZR (magnetism s) / 100) * (1 - absDistance / snapRadius)) * 0.02)%R
  else 0%R.

(** A snap target is acceptable when it is an agent section or its magnetism
    is at least 55. *)
Definition acceptable (t : ScrollSection) : Prop :=
  type t = agent \/ 55 <= magnetism t.

(** The pull toward a section as the specification words it:
    [(magnetism/100) * (1 - distance/snapRadius)], signed toward the section,
    with the code's factor 0.02. *)
Definition towardPull (currentPos : R) (s : ScrollSection) : R :=
  let distance := (IZR (position s) - currentPos)%R in
  (sign distance
   * ((IZR (magnetism s) / 100) * (1 - Rabs distance / snapRadius)) * 0.02)%R.

Definition within (radius currentPos : R) (s : ScrollSection) : bool :=
  Rleb (Rabs (IZR (position s) - currentPos)) radius.

Definition beyond (radius currentPos : R) (s : ScrollSection) : bool :=
  Rltb radius (Rabs (IZR (position s) - currentPos)).

(** The velocity after the magnetic pull if every section within
    [snapRadius] contributed. *)
Definition pulledByAllWithin (st : Scroller) : R :=
  (velocity st
   + sumR (map (towardPull (positionRef st))
             (filter (within snapRadius (positionRef st)) (sections st))))%R.

(** The data position safety depends on: the position, the section
    positions, and the end points of the tweens the driver is running. *)
Definition wellFormed (st : Scroller) : Prop :=
  (0 <= positionRef st)%R /\
  (forall s, In s (sections st) -> 0 <= position s) /\
  (forall tw, In tw (activeTweens st) ->
              (0 <= tweenFrom tw)%R /\ (0 <= tweenTo tw)%R).

(** The tween [snapToSection] starts toward [t] from the state [st]. *)
Definition snapTween (t : ScrollSection) (st : Scroller) : GSAPTween :=
  mkTween (nextTweenId st) (positionRef st) (IZR (position t))
    (Rmin (snapDuration t
           * (1 + Rabs (IZR (position t) - positionRef st) / 100))
       (snapDuration t * 2)) t.

(** The running tweens once the one held in [currentTween] is killed. *)
Definition survivors (st : Scroller) : list GSAPTween :=
  match currentTween st with
  | Some tw =>
      filter (fun t => negb (Nat.eqb (tweenId t) (tweenId tw))) (activeTweens st)
  | None => activeTweens st
  end.

(** At most one tween is running on the position, and it is the one the
    scroller holds. *)
Definition singleTween (st : Scroller) : Prop :=
  activeTweens st = [] \/
  (gsap (host st) = true /\
   exists tw, currentTween st = Some tw /\ activeTweens st = [tw]).

(** A page where every collaborator is there. *)
Definition allThere : Host := mkHost true true true true.

Definition agent60 : ScrollSection := mkSection 60 agent 100 2.0.

Definition agent120 : ScrollSection := mkSection 120 agent 100 2.0.

(** A page without the tween driver. *)
Definition noGsap : Host := mkHost false true true true.

(** The last step of [updateMomentum]: a speed below [minVelocity] becomes
    0, any other velocity is clamped to [maxVelocity]. *)
Definition settle (v : R) : R :=
  if Rltb (Rabs v) minVelocity then 0%R
  else clamp (- maxVelocity) maxVelocity v.

(** A scroller in free motion with no impulse pending and no section pulling
    on it. *)
Definition quiet (st : Scroller) : Prop :=
  isSnapping st = false /\ isPhysicsPaused st = false /\
  (Rabs (inputAccumulator st) <= 0.001)%R /\
  forall s, In s (sections st) ->
            beyond 0.5 (positionRef st) s && within snapRadius (positionRef st) s
            = false.

(** Frames of the physics loop at the times [nows] (milliseconds, as
    [Date.now()] gives them: two readings are equal or at least 1 apart),
    each of them starting from a quiet scroller. *)
Fixpoint quietFrames (st : Scroller) (nows : list R) : Prop :=
  match nows with
  | [] => True
  | now :: rest =>
      quiet st /\
      ((now - lastUpdateTime st = 0)%R \/ (1 <= now - lastUpdateTime st)%R) /\
      quietFrames (updatePhysics now st) rest
  end.

(** The [deltaTime] a frame of the physics loop at time [now] works with:
    [now - lastUpdateTime || 16]. *)
Definition frameDelta (now : R) (st : Scroller) : R :=
  let elapsed := (now - lastUpdateTime st)%R in
  if Reqb elapsed 0 then 16%R else elapsed.

(** No magnetism in a step of [updateMomentum] over [dt] without impulse:
    the speed left by friction is above 5, where [applyMagneticForces]
    returns at once, or no section is in pulling range. *)
Definition unpulled (dt : R) (st : Scroller) : Prop :=
  (5 < Rabs (velocity st * Rpower friction (dt / 16)))%R \/
  forall s, In s (sections st) ->
            beyond 0.5 (positionRef st) s && within snapRadius (positionRef st) s
            = false.

(** A step of [updateMomentum] over [dt] in which friction alone acts: no
    snap in flight, no impulse pending, no magnetism. *)
Definition frictionOnly (dt : R) (st : Scroller) : Prop :=
  isSnapping st = false /\ (Rabs (inputAccumulator st) <= 0.001)%R /\
  unpulled dt st.

(** Frames of the physics loop at the times [nows] (milliseconds, as
    [Date.now()] gives them: two readings are equal or at least 1 apart), in
    each of which friction alone acts. *)
Fixpoint frictionFrames (st : Scroller) (nows : list R) : Prop :=
  match nows with
  | [] => True
  | now :: rest =>
      isPhysicsPaused st = false /\
      frictionOnly (frameDelta now st) st /\
      ((now - lastUpdateTime st = 0)%R \/ (1 <= now - lastUpdateTime st)%R) /\
      frictionFrames (updatePhysics now st) rest
  end.

(** The friction law along the frames at the times [nows]: each frame leaves
    the velocity [friction ^ (deltaTime / 16)] times the one before, passed
    through the final clamp of [updateMomentum]; or 0, when the frame ends in
    an auto-snap, which cannot happen while the speed is above 5. *)
Fixpoint decays (st : Scroller) (nows : list R) : Prop :=
  match nows with
  | [] => True
  | now :: rest =>
      let v := (velocity st * Rpower friction (frameDelta now st / 16))%R in
      (velocity (updatePhysics now st) = settle v \/
       velocity (updatePhysics now st) = 0%R) /\
      ((5 < Rabs v)%R -> velocity (updatePhysics now st) = settle v) /\
      decays (updatePhysics now st) rest
  end.

(** The velocity before the first frame and after each frame. *)
Definition speeds (st : Scroller) (nows : list R) : list R :=
  map velocity (st :: states st (map AnimationFrame nows)).

(** Frame times 16 ms apart, starting after [t]. *)
Fixpoint everySixteen (t : R) (n : nat) : list R :=
  match n with
  | O => []
  | S n' => (t + 16)%R :: everySixteen (t + 16) n'
  end.

(** Each time is at least 1 ms after the one before, starting after [last]. *)
Fixpoint ticking (last : R) (nows : list R) : Prop :=
  match nows with
  | [] => True
  | now :: rest => (1 <= now - last)%R /\ ticking now rest
  end.

(** A scroller in free motion beyond the last section of the map, moving
    away from it or at rest, with no impulse pending. *)
Definition coasting (st : Scroller) : Prop :=
  sections st = generateSections /\
  isSnapping st = false /\ isPhysicsPaused st = false /\
  (Rabs (inputAccumulator st) <= 0.001)%R /\
  (3050 <= positionRef st)%R /\ (0 <= velocity st)%R.

End Scrolling.

End Notions.

Import Notions.

(** The scroller as [page.tsx] constructs it. *)
Abbreviation start := (EnhancedMomentumScroller.construct allThere 0 0).

(** A scroller at position 4000 moving on at velocity 20. *)
Abbreviation coastingStart :=
  (EnhancedMomentumScroller.set_velocity 20
     (EnhancedMomentumScroller.construct allThere 4000 0)).

(** A scroller at the start of the path moving at the top speed 25. *)
Abbreviation fastStart :=
  (EnhancedMomentumScroller.set_velocity 25
     (EnhancedMomentumScroller.construct allThere 0 0)).

(** The state right after the first press of [ArrowRight]: a snap toward the
    agent section at 60 is in flight. *)
Abbreviation snapInFlight :=
  (EnhancedMomentumScroller.run start
     [EnhancedMomentumScroller.KeyDown "ArrowRight" false]).

(** * Further notions, for the properties beyond the claims *)

Module CoverageNotions.

(** No value occurs twice in a row. *)
Fixpoint noRepeat (l : list Z) : Prop :=
  match l with
  | a :: ((b :: _) as rest) => a <> b /\ noRepeat rest
  | _ => True
  end.

Section Scrolling.
Import EnhancedMomentumScroller.

(** The sections [findTargetSection] chooses among. *)
Definition eligible (type_ : SnapType) (s : ScrollSection) : Prop :=
  match type_ with
  | snapAgent => type s = agent
  | snapAny => 55 <= magnetism s
  end.

(** The score [findBestSnapTarget] gives a section. *)
Definition scoreOf (st : Scroller) (s : ScrollSection) : R :=
  let currentPos := positionRef st in
  let predictedPos :=
    (currentPos
     + sign (velocity st) * Rmin (Rabs (velocity st) * 2) 20)%R in
  let distance := Rabs (IZR (position s) - currentPos) in
  let predictedDistance := Rabs (IZR (position s) - predictedPos) in
  (IZR (magnetism s) / 100 * 0.4 + (1 - distance / snapRadius) * 0.4
   + (1 - predictedDistance / (snapRadius * 1.5)) * 0.2)%R.

(** The position [findBestSnapTarget] looks around. *)
Definition predictedPosition (st : Scroller) : R :=
  (positionRef st + sign (velocity st) * Rmin (Rabs (velocity st) * 2) 20)%R.

(** [r] is the nearest section of [l] of the kind [type_] more than 1 ahead
    of [pos], or nothing when there is none. *)
Definition nearestAhead (type_ : SnapType) (pos : R) (l : list ScrollSection)
    (r : option ScrollSection) : Prop :=
  match r with
  | Some t =>
      In t l /\ eligible type_ t /\ (pos + 1 < IZR (position t))%R /\
      forall s, In s l -> eligible type_ s -> (pos + 1 < IZR (position s))%R ->
                position t <= position s
  | None =>
      forall s, In s l -> eligible type_ s -> (IZR (position s) <= pos + 1)%R
  end.

(** [r] is the nearest section of [l] of the kind [type_] more than 1 behind
    [pos], or nothing when there is none. *)
Definition nearestBehind (type_ : SnapType) (pos : R) (l : list ScrollSection)
    (r : option ScrollSection) : Prop :=
  match r with
  | Some t =>
      In t l /\ eligible type_ t /\ (IZR (position t) < pos - 1)%R /\
      forall s, In s l -> eligible type_ s -> (IZR (position s) < pos - 1)%R ->
                position s <= position t
  | None =>
      forall s, In s l -> eligible type_ s -> (pos - 1 <= IZR (position s))%R
  end.

(** [r] has the best score among the sections within 1.5 snap radii of the
    predicted position, or is nothing when there is none. *)
Definition bestScored (st : Scroller) (r : option ScrollSection) : Prop :=
  match r with
  | Some t =>
      In t (sections st) /\
      (Rabs (IZR (position t) - predictedPosition st) <= snapRadius * 1.5)%R /\
      forall s, In s (sections st) ->
                (Rabs (IZR (position s) - predictedPosition st)
                 <= snapRadius * 1.5)%R ->
                (scoreOf st s <= scoreOf st t)%R
  | None =>
      forall s, In s (sections st) ->
                (snapRadius * 1.5
                 < Rabs (IZR (position s) - predictedPosition st))%R
  end.

(** What the background has been told so far, read against the agent index
    [a0] the page started with: the indices told, preceded by [a0], never
    repeat a value twice in a row, and the last of them is the last-known
    index. *)
Definition notifierInv (a0 : Z) (st : Scroller) : Prop :=
  sceneManager (host st) = true /\
  noRepeat (a0 :: notifications (trace st)) /\
  last (notifications (trace st)) a0 = currentAgentRef st.

(** The positions the path was rebuilt at ([createDottedPath]), oldest
    first. *)
Fixpoint drawn (tr : list Effect) : list R :=
  match tr with
  | [] => []
  | CreateDottedPath p :: rest => p :: drawn rest
  | _ :: rest => drawn rest
  end.

(** The agent index of a position. *)
Definition agentOf (p : R) : Z := Zfloor (p / 60).

(** The values of [l] that differ from the value before them, [prev] being
    the value before the first. *)
Fixpoint changes (prev : Z) (l : list Z) : list Z :=
  match l with
  | [] => []
  | x :: rest =>
      if x =? prev then changes prev rest else x :: changes x rest
  end.

(** The background is in step with the position, on a page [h] with a scene
    manager that started at position [p0] with agent index [a0]: the
    last-known index is the last one told; it is the agent index of the
    position, unless nothing was told and the position is still the initial
    one; and, where the path renderer is there to witness every scene
    update, the indices told are the changes of the agent index along the
    positions the path was rebuilt at, the last of which is the current
    position. *)
Definition sceneSync (h : Host) (a0 : Z) (p0 : R) (st : Scroller) : Prop :=
  host st = h /\ sceneManager h = true /\
  currentAgentRef st = last (notifications (trace st)) a0 /\
  ((positionRef st = p0 /\ notifications (trace st) = []) \/
   currentAgentRef st = agentOf (positionRef st)) /\
  (pathRenderer h = true ->
   notifications (trace st) = changes a0 (map agentOf (drawn (trace st))) /\
   positionRef st = last (drawn (trace st)) p0).

(** A snap is in flight and no tween is running: nothing can end it. *)
Definition snapLocked (st : Scroller) : Prop :=
  isSnapping st = true /\ activeTweens st = [].

End Scrolling.

Section Smooth.
Import SmoothSectionScroller.

(** The data position safety depends on, for the second scroller. *)
Definition smoothWellFormed (st : Scroller) : Prop :=
  (0 <= positionRef st)%R /\
  (forall s, In s (sections st) -> 0 <= position s) /\
  (forall tw, In tw (activeTweens st) ->
              (0 <= tweenFrom tw)%R /\ (0 <= tweenTo tw)%R).

(** At most one tween is running on the position, the one the scroller
    holds. *)
Definition smoothSingleTween (st : Scroller) : Prop :=
  activeTweens st = [] \/
  exists tw, currentTween st = Some tw /\ activeTweens st = [tw].

(** While a snap is in flight the scroller is not scrolling and holds no
    pending scroll. *)
Definition smoothSnapQuiet (st : Scroller) : Prop :=
  isSnapping st = true ->
  isScrolling st = false /\ scrollAccumulator st = 0%R.

(** What holds of every state a run of this scroller reaches. *)
Definition smoothInv (st : Scroller) : Prop :=
  smoothWellFormed st /\ smoothSingleTween st /\ smoothSnapQuiet st /\
  sections st = generateSections.

(** The sections [findNearestSection] chooses among; [None] is ['any']. *)
Definition ofType (type_ : option SectionType) (s : SectionConfig) : Prop :=
  match type_ with
  | Some t => type s = t
  | None => True
  end.

(** [r] is the first section of [l] of the kind [type_] after [from], or
    nothing when there is none. *)
Definition nextOfType (type_ : option SectionType) (from : R)
    (l : list SectionConfig) (r : option SectionConfig) : Prop :=
  match r with
  | Some t =>
      In t l /\ ofType type_ t /\ (from < IZR (position t))%R /\
      forall s, In s l -> ofType type_ s -> (from < IZR (position s))%R ->
                position t <= position s
  | None =>
      forall s, In s l -> ofType type_ s -> (IZR (position s) <= from)%R
  end.

(** [r] is the last section of [l] of the kind [type_] before [from], or
    nothing when there is none. *)
Definition previousOfType (type_ : option SectionType) (from : R)
    (l : list SectionConfig) (r : option SectionConfig) : Prop :=
  match r with
  | Some t =>
      In t l /\ ofType type_ t /\ (IZR (position t) < from)%R /\
      forall s, In s l -> ofType type_ s -> (IZR (position s) < from)%R ->
                position s <= position t
  | None =>
      forall s, In s l -> ofType type_ s -> (from <= IZR (position s))%R
  end.

(** [r] is, among the sections within 30 of the position, one of the highest
    priority and, among those, one nearest to the position; or nothing when
    no section is within 30. *)
Definition bestNearby (st : Scroller) (r : option SectionConfig) : Prop :=
  match r with
  | Some t =>
      In t (sections st) /\
      (Rabs (IZR (position t) - positionRef st) <= 30)%R /\
      forall s, In s (sections st) ->
                (Rabs (IZR (position s) - positionRef st) <= 30)%R ->
                priority s <= priority t /\
                (priority s = priority t ->
                 (Rabs (IZR (position t) - positionRef st)
                  <= Rabs (IZR (position s) - positionRef st))%R)
  | None =>
      forall s, In s (sections st) ->
                (30 < Rabs (IZR (position s) - positionRef st))%R
  end.

(** The inputs that come from the tween driver. *)
Definition fromDriver (i : Input) : bool :=
  match i with
  | TweenUpdate _ _ | TweenComplete _ => true
  | _ => false
  end.

End Smooth.

End CoverageNotions.

Import CoverageNotions.

(** * Properties *)

(** ** Numbers *)

Lemma Rltb_true a b : (a < b)%R -> Rltb a b = true.
Proof. unfold Rltb; destruct (Rlt_dec a b); tauto. Qed.

Lemma Rltb_false a b : (b <= a)%R -> Rltb a b = false.
Proof. unfold Rltb; destruct (Rlt_dec a b); [lra | reflexivity]. Qed.

Lemma Rleb_true a b : (a <= b)%R -> Rleb a b = true.
Proof. unfold Rleb; destruct (Rle_dec a b); tauto. Qed.

Lemma Rleb_false a b : (b < a)%R -> Rleb a b = false.
Proof. unfold Rleb; destruct (Rle_dec a b); [lra | reflexivity]. Qed.

Lemma Rltb_spec a b : Rltb a b = true <-> (a < b)%R.
Proof.
  unfold Rltb; destruct (Rlt_dec a b); split; intros; try tauto; discriminate.
Qed.

Lemma Rleb_spec a b : Rleb a b = true <-> (a <= b)%R.
Proof.
  unfold Rleb; destruct (Rle_dec a b); split; intros; try tauto; discriminate.
Qed.

Lemma Reqb_true a b : a = b -> Reqb a b = true.
Proof. unfold Reqb; destruct (Req_dec_T a b); tauto. Qed.

Lemma Reqb_false a b : a <> b -> Reqb a b = false.
Proof. unfold Reqb; destruct (Req_dec_T a b); tauto. Qed.

Lemma jsmod_divide a d : 0 <= a -> 0 < d -> (jsmod a d =? 0) = true <-> (d | a).
Proof.
  intros Ha Hd. unfold jsmod. rewrite Z.rem_mod_nonneg by lia.
  rewrite Z.eqb_eq, Z.mod_divide by lia. tauto.
Qed.

Lemma jsmod_not_divide a d :
  0 <= a -> 0 < d -> (jsmod a d =? 0) = false <-> ~ (d | a).
Proof.
  intros Ha Hd. rewrite <- (jsmod_divide a d Ha Hd).
  destruct (jsmod a d =? 0); split; intros; try congruence; tauto.
Qed.

(** ** Sorting and the loop range *)

Lemma sortByKey_sorted_id {A} (key : A -> Z) (l : list A) :
  StronglySorted Z.lt (map key l) -> sortByKey key l = l.
Proof.
  induction l as [|x l IH]; simpl; intros H; [reflexivity|].
  inversion H as [|? ? Hs Hall]; subst.
  rewrite (IH Hs). destruct l as [|y r]; simpl; [reflexivity|].
  inversion Hall as [|? ? Hxy _]; subst.
  destruct (Z.leb_spec (key x) (key y)); [reflexivity | lia].
Qed.

Section LoopRange.
Context {A : Type} (key : A -> Z) (body : Z -> option A).
Hypothesis body_key : forall pos a, body pos = Some a -> key a = pos.

Let pushed (a n : nat) : list A :=
  flat_map (fun pos => pushOpt (body pos)) (map Z.of_nat (seq a n)).

Lemma pushed_In a n x :
  In x (pushed a n) <->
  exists pos, Z.of_nat a <= pos < Z.of_nat (a + n) /\ body pos = Some x.
Proof.
  unfold pushed. rewrite in_flat_map. split.
  - intros (pos & Hin & Hx). rewrite in_map_iff in Hin.
    destruct Hin as (k & <- & Hk). rewrite in_seq in Hk.
    exists (Z.of_nat k). split; [lia|].
    destruct (body (Z.of_nat k)); simpl in Hx; [|tauto].
    destruct Hx as [->|[]]. reflexivity.
  - intros (pos & Hr & Hb). exists pos. split.
    + rewrite in_map_iff. exists (Z.to_nat pos). split; [lia|].
      rewrite in_seq. lia.
    + rewrite Hb. simpl. auto.
Qed.

Lemma pushed_sorted n : forall a, StronglySorted Z.lt (map key (pushed a n)).
Proof.
  induction n as [|n IH]; intros a; [constructor|].
  change (pushed a (S n)) with (pushOpt (body (Z.of_nat a)) ++ pushed (S a) n).
  destruct (body (Z.of_nat a)) as [x|] eqn:E; simpl; [|apply IH].
  constructor; [apply IH|].
  rewrite Forall_forall. intros k Hk. rewrite in_map_iff in Hk.
  destruct Hk as (y & <- & Hy). apply pushed_In in Hy.
  destruct Hy as (pos & Hr & Hb).
  rewrite (body_key _ _ E), (body_key _ _ Hb). lia.
Qed.

Lemma sorted_loop_In h x :
  In x (sortByKey key (flat_map (fun pos => pushOpt (body pos)) (upto h))) <->
  exists pos, 0 <= pos <= Z.of_nat h /\ body pos = Some x.
Proof.
  unfold upto. rewrite sortByKey_sorted_id by apply (pushed_sorted (S h) 0).
  pose proof (pushed_In 0 (S h) x) as P. unfold pushed in P. rewrite P.
  split; intros (pos & Hr & Hb); exists pos; (split; [lia | exact Hb]).
Qed.

Lemma sorted_loop_sorted h :
  StronglySorted Z.lt
    (map key (sortByKey key (flat_map (fun pos => pushOpt (body pos)) (upto h)))).
Proof.
  unfold upto. rewrite sortByKey_sorted_id by apply (pushed_sorted (S h) 0).
  apply (pushed_sorted (S h) 0).
Qed.

Lemma sorted_loop_eq h :
  sortByKey key (flat_map (fun pos => pushOpt (body pos)) (upto h)) =
  flat_map (fun pos => pushOpt (body pos)) (upto h).
Proof.
  unfold upto. apply sortByKey_sorted_id. apply (pushed_sorted (S h) 0).
Qed.

End LoopRange.

(** ** The section map *)

Lemma notifications_app tr tr' :
  notifications (tr ++ tr') = notifications tr ++ notifications tr'.
Proof.
  induction tr as [|e tr IH]; [reflexivity|].
  destruct e; simpl; rewrite IH; reflexivity.
Qed.

Ltac Rstep :=
  match goal with
  | |- context [Rltb ?a ?b] =>
      first [rewrite (Rltb_true a b) by lra | rewrite (Rltb_false a b) by lra]
  | |- context [Rleb ?a ?b] =>
      first [rewrite (Rleb_true a b) by lra | rewrite (Rleb_false a b) by lra]
  | |- context [Reqb ?a ?b] =>
      first [rewrite (Reqb_true a b) by lra | rewrite (Reqb_false a b) by lra]
  | |- context [Rabs ?a] =>
      first [rewrite (Rabs_pos_eq a) by lra | rewrite (Rabs_left1 a) by lra]
  | |- context [Rmin ?a ?b] =>
      first [rewrite (Rmin_left a b) by lra | rewrite (Rmin_right a b) by lra]
  | |- context [Rmax ?a ?b] =>
      first [rewrite (Rmax_left a b) by lra | rewrite (Rmax_right a b) by lra]
  end.

Module SectionMapFacts.
Import EnhancedMomentumScroller.

Lemma sectionAt_position pos s : sectionAt pos = Some s -> position s = pos.
Proof.
  unfold sectionAt. destruct (Z.eqb_spec pos 0) as [->|_].
  - intros [= <-]. reflexivity.
  - repeat match goal with
           | |- (if ?c then _ else _) = _ -> _ => destruct c
           end; intros [= <-]; reflexivity.
Qed.

Ltac divisors :=
  repeat match goal with
         | H : (jsmod _ _ =? 0) = true |- _ => apply jsmod_divide in H; [|lia|lia]
         | H : (jsmod _ _ =? 0) = false |- _ =>
             apply jsmod_not_divide in H; [|lia|lia]
         end.

(** The section pushed for a position is the one of the highest-priority
    spacing that divides it; nothing is pushed where no spacing divides. *)
Lemma sectionAt_spec pos :
  0 <= pos ->
  match sectionAt pos with
  | Some s =>
      position s = pos /\ (spacing (type s) | pos) /\
      forall t, (spacing t | pos) -> typePriority t <= typePriority (type s)
  | None => forall t, ~ (spacing t | pos)
  end.
Proof.
  intros Hpos. unfold sectionAt. destruct (Z.eqb_spec pos 0) as [->|Hne].
  - simpl. repeat split; [apply Z.divide_0_r|]. intros []; simpl; lia.
  - destruct (jsmod pos 60 =? 0) eqn:E60; [|
    destruct (jsmod pos 40 =? 0) eqn:E40; [|
    destruct (jsmod pos 15 =? 0) eqn:E15; [|
    destruct (jsmod pos 8 =? 0) eqn:E8; [|
    destruct (jsmod pos 3 =? 0) eqn:E3]]]]; divisors; simpl.
    all: try (repeat split; [assumption|]).
    all: intros []; simpl; intros; try lia; try tauto.
Qed.

Lemma generateSections_In s :
  In s generateSections <->
  exists pos, 0 <= pos <= 3000 /\ sectionAt pos = Some s.
Proof.
  unfold generateSections, generateSectionsUpTo.
  rewrite (sorted_loop_In position sectionAt sectionAt_position).
  reflexivity.
Qed.

(** C3, as the code has it: the section map is strictly ascending by
    position, so it holds at most one section per position; it holds a
    section at a position between 0 and the horizon exactly when one of the
    spacings 60, 40, 15, 8, 3 divides the position (positions such as 1 or 2
    have none); and the type of each section is the one of highest priority,
    agent > milestone > shape > decorative > micro, among the spacings that
    divide its position. *)
Theorem generateSections_priority_map :
  StronglySorted Z.lt (map position generateSections) /\
  (forall pos,
      (exists s, In s generateSections /\ position s = pos) <->
      (0 <= pos <= 3000 /\ exists t, (spacing t | pos))) /\
  (forall s, In s generateSections ->
      (spacing (type s) | position s) /\
      forall t, (spacing t | position s) ->
                typePriority t <= typePriority (type s)).
Proof.
  split; [|split].
  - unfold generateSections, generateSectionsUpTo.
    exact (sorted_loop_sorted position sectionAt sectionAt_position horizon).
  - intros pos. split.
    + intros (s & Hin & Hp). apply (proj1 (generateSections_In s)) in Hin.
      destruct Hin as (q & Hr & Hs).
      pose proof (sectionAt_spec q (proj1 Hr)) as Hq. rewrite Hs in Hq.
      destruct Hq as (Hpq & Hd & _). rewrite Hp in Hpq. subst q.
      split; [exact Hr|]. exists (type s). exact Hd.
    + intros (Hr & t & Hd).
      pose proof (sectionAt_spec pos (proj1 Hr)) as Hq.
      destruct (sectionAt pos) as [s|] eqn:Hs.
      * exists s. split; [|tauto]. apply (proj2 (generateSections_In s)). exists pos. split; assumption.
      * exfalso. exact (Hq t Hd).
  - intros s Hin. apply (proj1 (generateSections_In s)) in Hin.
    destruct Hin as (q & Hr & Hs).
    pose proof (sectionAt_spec q (proj1 Hr)) as Hq. rewrite Hs in Hq.
    destruct Hq as (Hpq & Hd & Hmax). rewrite Hpq. tauto.
Qed.

(** C3, as stated, fails: position 1 lies between 0 and the horizon and the
    section map has no section there. *)
Lemma generateSections_nothing_at_1 :
  0 <= 1 <= 3000 /\ ~ exists s, In s generateSections /\ position s = 1.
Proof.
  split; [lia|]. intros (s & Hin & Hp).
  apply (proj1 (generateSections_In s)) in Hin. destruct Hin as (q & Hr & Hs).
  pose proof (sectionAt_position _ _ Hs) as Hq. rewrite Hp in Hq. subst q.
  discriminate Hs.
Qed.

Lemma generateSections_magnetism s :
  In s generateSections -> 35 <= magnetism s <= 100.
Proof.
  intros Hin. apply (proj1 (generateSections_In s)) in Hin.
  destruct Hin as (pos & _ & Hs). revert Hs. unfold sectionAt.
  repeat match goal with
         | |- (if ?c then _ else _) = _ -> _ => destruct c
         end; intros [= <-]; simpl; lia.
Qed.

Lemma generateSections_micro s :
  In s generateSections -> type s = micro -> magnetism s = 35.
Proof.
  intros Hin. apply (proj1 (generateSections_In s)) in Hin.
  destruct Hin as (pos & _ & Hs). revert Hs. unfold sectionAt.
  repeat match goal with
         | |- (if ?c then _ else _) = _ -> _ => destruct c
         end; intros [= <-]; simpl; intros; try reflexivity; discriminate.
Qed.

Lemma generateSections_nonneg s : In s generateSections -> 0 <= position s.
Proof.
  intros Hin. apply (proj1 (generateSections_In s)) in Hin.
  destruct Hin as (pos & Hr & Hs). rewrite (sectionAt_position _ _ Hs). lia.
Qed.

Lemma generateSections_range s :
  In s generateSections -> 0 <= position s <= 3000.
Proof.
  intros Hin. apply (proj1 (generateSections_In s)) in Hin.
  destruct Hin as (pos & Hr & Hs). rewrite (sectionAt_position _ _ Hs). lia.
Qed.

Lemma generateSections_agent_60 :
  In (mkSection 60 agent 100 2.0) generateSections.
Proof.
  apply (proj2 (generateSections_In _)). exists 60. split; [lia | reflexivity].
Qed.

Lemma generateSections_eq :
  generateSections = flat_map (fun pos => pushOpt (sectionAt pos)) (upto horizon).
Proof.
  unfold generateSections, generateSectionsUpTo.
  apply (sorted_loop_eq position sectionAt sectionAt_position).
Qed.

(** The first two agent sections of the map. *)
Lemma generateSections_agents :
  exists rest,
    filter (fun s => SectionType_eqb (type s) agent) generateSections =
    mkSection 0 agent 100 1.8 :: mkSection 60 agent 100 2.0 :: rest.
Proof.
  rewrite generateSections_eq. unfold upto, horizon.
  change (seq 0 3001) with (seq 0 (61 + 2940)).
  rewrite seq_app, map_app, flat_map_app, filter_app.
  eexists. 
  change (filter (fun s => SectionType_eqb (type s) agent)
            (flat_map (fun pos => pushOpt (sectionAt pos))
               (map Z.of_nat (seq 0 61))))
    with [mkSection 0 agent 100 1.8; mkSection 60 agent 100 2.0].
  reflexivity.
Qed.

End SectionMapFacts.

(** ** The scene window *)

Module SceneWindowFacts.
Import PathRenderer.

Lemma rowOffsets_In i : In i rowOffsets <-> - visibleRange <= i < visibleRange.
Proof.
  unfold rowOffsets, visibleRange. rewrite in_map_iff. split.
  - intros (k & <- & Hk). apply in_seq in Hk. lia.
  - intros Hi. exists (Z.to_nat (i + 30)). split; [lia|].
    apply in_seq. lia.
Qed.

Lemma createRow_In p i g k row c d e :
  In (RowObject g k row c d e) (createRow p i) ->
  row = Zfloor p + i /\ 0 <= row /\ rowHas (hasScrollStarted p) row k = true.
Proof.
  unfold createRow. destruct (Z.ltb_spec (Zfloor p + i) 0) as [|Hge];
    [intros []|].
  cbv zeta. rewrite !in_app_iff. unfold when.
  intros H.
  repeat match type of H with
         | _ \/ _ => destruct H as [H|H]
         end.
  - apply in_map_iff in H. destruct H as (col & [= <- <- <- <- <- <-] & Hcol).
    split; [reflexivity|]. split; [assumption|].
    simpl in Hcol. simpl.
    repeat (destruct Hcol as [<-|Hcol]; [reflexivity|]). destruct Hcol.
  - destruct (_ && _) eqn:E in H; simpl in H;
      [destruct H as [[= <- <- <- <- <- <-]|[]]|destruct H].
    repeat split; assumption.
  - destruct (_ && _) eqn:E in H; simpl in H;
      [destruct H as [[= <- <- <- <- <- <-]|[]]|destruct H].
    repeat split; assumption.
  - destruct (_ && _) eqn:E in H; simpl in H;
      [destruct H as [[= <- <- <- <- <- <-]|[]]|destruct H].
    repeat split; assumption.
  - destruct (_ && _) eqn:E in H; simpl in H;
      [destruct H as [[= <- <- <- <- <- <-]|[[= <- <- <- <- <- <-]|[]]]
      |destruct H]; repeat split; assumption.
  - destruct (_ && _) eqn:E in H; simpl in H;
      [destruct H as [[= <- <- <- <- <- <-]|[]]|destruct H].
    repeat split; assumption.
  - destruct (_ && _) eqn:E in H; simpl in H;
      [destruct H as [[= <- <- <- <- <- <-]|[]]|destruct H].
    repeat split; assumption.
  - destruct (_ && _) eqn:E in H; simpl in H;
      [destruct H as [[= <- <- <- <- <- <-]|[[= <- <- <- <- <- <-]|[]]]
      |destruct H]; repeat split; assumption.
Qed.

Lemma createRow_emits p i k :
  0 <= Zfloor p + i ->
  rowHas (hasScrollStarted p) (Zfloor p + i) k = true ->
  emits k (Zfloor p + i) (createRow p i).
Proof.
  intros Hge Hk. unfold emits, createRow.
  destruct (Z.ltb_spec (Zfloor p + i) 0) as [|_]; [lia|].
  cbv zeta. unfold when.
  destruct k as [col| | |place|left| |]; [| | |destruct place| | |];
    simpl in Hk.
  - exists dotsGroup. do 3 eexists. rewrite in_app_iff. left.
    apply in_map_iff. exists col. split; [reflexivity|].
    simpl. assert (Hc : 0 <= col < 6) by lia.
    assert (col = 0 \/ col = 1 \/ col = 2 \/ col = 3 \/ col = 4 \/ col = 5)
      by lia.
    intuition auto.
  - exists textGroup. do 3 eexists. rewrite !in_app_iff. right. left.
    rewrite Hk. left. reflexivity.
  - exists cardsGroup. do 3 eexists. rewrite !in_app_iff. do 2 right. left.
    rewrite Hk. left. reflexivity.
  - exists cardsGroup. do 3 eexists. rewrite !in_app_iff. do 3 right. left.
    rewrite Hk. left. reflexivity.
  - exists cardsGroup. do 3 eexists. rewrite !in_app_iff. do 7 right.
    rewrite Hk. left. reflexivity.
  - exists cardsGroup. do 3 eexists. rewrite !in_app_iff. do 7 right.
    rewrite Hk. right. left. reflexivity.
  - exists cardsGroup. do 3 eexists. rewrite !in_app_iff. do 4 right. left.
    rewrite Hk. destruct left; [left | right; left]; reflexivity.
  - exists cardsGroup. do 3 eexists. rewrite !in_app_iff. do 5 right. left.
    rewrite Hk. left. reflexivity.
  - exists cardsGroup. do 3 eexists. rewrite !in_app_iff. do 6 right. left.
    rewrite Hk. left. reflexivity.
Qed.

(** What a rebuild holds: an object of kind [k] for row [row] exactly when
    the row is non-negative, lies in the window of [visibleRange] rows before
    and after the floor of the position, and the loop body decides for it. *)
Lemma createDottedPath_emits p k row :
  emits k row (createDottedPath p) <->
  (Zfloor p - visibleRange <= row < Zfloor p + visibleRange /\ 0 <= row /\
   rowHas (hasScrollStarted p) row k = true).
Proof.
  unfold createDottedPath, emits. split.
  - intros (g & c & d & e & H). rewrite in_app_iff, in_flat_map in H.
    destruct H as [(i & Hi & H)|[H|[]]]; [|discriminate H].
    apply rowOffsets_In in Hi. apply createRow_In in H.
    destruct H as (-> & H0 & Hk). split; [lia|]. split; assumption.
  - intros (Hw & H0 & Hk).
    replace row with (Zfloor p + (row - Zfloor p)) in * by lia.
    destruct (createRow_emits p (row - Zfloor p) k H0 Hk) as (g & c & d & e & H).
    exists g, c, d, e. rewrite in_app_iff, in_flat_map. left.
    exists (row - Zfloor p). split; [|exact H].
    apply rowOffsets_In. lia.
Qed.

Lemma scene_at_90 k row :
  emits k row (createDottedPath 90) <->
  (60 <= row < 120 /\ rowHas true row k = true).
Proof.
  rewrite createDottedPath_emits. rewrite (ZfloorZ 90).
  unfold hasScrollStarted, scrollThreshold, visibleRange.
  rewrite Rltb_true by lra. intuition lia.
Qed.

(** C8, as the code has it: the rebuild at position 90 with visibility
    radius 30 covers the rows 60 to 119; it holds the every-90 feature object
    at row 90 and a milestone text at row 80, and no milestone text at row 60
    nor at row 40, which is outside the window. *)
Theorem rebuild_at_90 :
  let scene := createDottedPath 90 in
  (forall k row, emits k row scene -> 60 <= row < 120) /\
  emits SplineObject 90 scene /\
  emits MilestoneText 80 scene /\
  ~ emits MilestoneText 60 scene /\
  ~ emits MilestoneText 40 scene.
Proof.
  cbv zeta. repeat split.
  - apply scene_at_90 in H. lia.
  - apply scene_at_90 in H. lia.
  - apply scene_at_90. split; [lia | reflexivity].
  - apply scene_at_90. split; [lia | reflexivity].
  - intros H. apply scene_at_90 in H. destruct H as [_ H]. discriminate H.
  - intros H. apply scene_at_90 in H. lia.
Qed.

(** C8, as stated, fails: the rebuild at position 90 holds no milestone text
    for row 40. *)
Lemma rebuild_at_90_no_milestone_40 :
  ~ emits MilestoneText 40 (createDottedPath 90).
Proof. intros H. apply scene_at_90 in H. lia. Qed.

(** Where a row is a multiple of both 40 and 60 the rebuild holds the
    milestone text and the agent panel alike: the scene window does not
    dedupe by priority. *)
Lemma rebuild_at_120_both :
  emits MilestoneText 120 (createDottedPath 120) /\
  emits AgentBox 120 (createDottedPath 120).
Proof.
  split; apply createDottedPath_emits; rewrite (ZfloorZ 120);
    unfold hasScrollStarted, scrollThreshold, visibleRange;
    rewrite Rltb_true by lra; repeat split; try lia; reflexivity.
Qed.

End SceneWindowFacts.

(** ** The momentum scroller: what each method leaves alone *)

Module ScrollerFacts.
Import EnhancedMomentumScroller.

Ltac branches :=
  repeat match goal with
         | |- context [if ?c then _ else _] => destruct c
         | |- context [match ?x with Some _ => _ | None => _ end] => destruct x
         end; simpl; try reflexivity.

Lemma updateScene_positionRef st : positionRef (updateScene st) = positionRef st.
Proof. unfold updateScene, playTransitionSound, emit. branches. Qed.

Lemma updateScene_velocity st : velocity (updateScene st) = velocity st.
Proof. unfold updateScene, playTransitionSound, emit. branches. Qed.

Lemma updateScene_isSnapping st : isSnapping (updateScene st) = isSnapping st.
Proof. unfold updateScene, playTransitionSound, emit. branches. Qed.

Lemma updateScene_isScrolling st : isScrolling (updateScene st) = isScrolling st.
Proof. unfold updateScene, playTransitionSound, emit. branches. Qed.

Lemma updateScene_sections st : sections (updateScene st) = sections st.
Proof. unfold updateScene, playTransitionSound, emit. branches. Qed.

Lemma updateScene_activeTweens st :
  activeTweens (updateScene st) = activeTweens st.
Proof. unfold updateScene, playTransitionSound, emit. branches. Qed.

Lemma updateScene_currentTween st :
  currentTween (updateScene st) = currentTween st.
Proof. unfold updateScene, playTransitionSound, emit. branches. Qed.

Lemma updateScene_inputAccumulator st :
  inputAccumulator (updateScene st) = inputAccumulator st.
Proof. unfold updateScene, playTransitionSound, emit. branches. Qed.

Lemma updateScene_host st : host (updateScene st) = host st.
Proof. unfold updateScene, playTransitionSound, emit. branches. Qed.

Lemma killAllTweens_positionRef st :
  positionRef (killAllTweens st) = positionRef st.
Proof. unfold killAllTweens, kill, emit. branches. Qed.

Lemma killAllTweens_velocity st : velocity (killAllTweens st) = velocity st.
Proof. unfold killAllTweens, kill, emit. branches. Qed.

Lemma killAllTweens_isSnapping st :
  isSnapping (killAllTweens st) = isSnapping st.
Proof. unfold killAllTweens, kill, emit. branches. Qed.

Lemma killAllTweens_sections st : sections (killAllTweens st) = sections st.
Proof. unfold killAllTweens, kill, emit. branches. Qed.

Lemma killAllTweens_host st : host (killAllTweens st) = host st.
Proof. unfold killAllTweens, kill, emit. branches. Qed.

Lemma killAllTweens_activeTweens_incl st tw :
  In tw (activeTweens (killAllTweens st)) -> In tw (activeTweens st).
Proof.
  unfold killAllTweens, kill, emit.
  destruct (gsap (host st)); [|auto].
  destruct (currentTween st); simpl; [|auto].
  intros H. apply filter_In in H. tauto.
Qed.

(** ** Snap targets are sections of the map *)

Lemma insertByScore_In x y l : In x (insertByScore y l) <-> x = y \/ In x l.
Proof.
  induction l as [|z l IH]; simpl; [intuition auto|].
  destruct (Rleb (score z) (score y)); simpl; [intuition auto|].
  rewrite IH. intuition auto.
Qed.

Lemma sortByScore_In x l : In x (sortByScore l) <-> In x l.
Proof.
  induction l as [|y l IH]; simpl; [tauto|].
  rewrite insertByScore_In, IH. intuition auto.
Qed.

Lemma findBestSnapTarget_In st t :
  findBestSnapTarget st = Some t -> In t (sections st).
Proof.
  unfold findBestSnapTarget. cbv zeta.
  set (cands := filter _ (sections st)).
  destruct cands as [|c cs] eqn:Ec; [discriminate|].
  set (scored := map _ (c :: cs)).
  destruct (sortByScore scored) as [|best rest] eqn:Es; [discriminate|].
  intros [= <-].
  assert (Hb : In best scored).
  { apply sortByScore_In. rewrite Es. left. reflexivity. }
  unfold scored in Hb. apply in_map_iff in Hb.
  destruct Hb as (s & <- & Hs). simpl. rewrite <- Ec in Hs.
  unfold cands in Hs. apply filter_In in Hs. tauto.
Qed.

Lemma SectionType_eqb_eq a b : SectionType_eqb a b = true <-> a = b.
Proof. destruct a, b; simpl; split; intros; try reflexivity; discriminate. Qed.

Lemma findTargetSection_ok direction type_ st t :
  findTargetSection direction type_ st = Some t ->
  In t (sections st) /\ acceptable t.
Proof.
  unfold findTargetSection, acceptable. cbv zeta. intros H.
  assert (Hc : In t (match type_ with
                     | snapAgent =>
                         filter (fun s => SectionType_eqb (type s) agent)
                           (sections st)
                     | snapAny => filter (fun s => 55 <=? magnetism s) (sections st)
                     end)).
  { destruct (0 <? direction); apply find_some in H; destruct H as [H _];
      [exact H | apply in_rev; exact H]. }
  destruct type_; apply filter_In in Hc; destruct Hc as [Hin Hp];
    (split; [exact Hin|]).
  - left. apply SectionType_eqb_eq. exact Hp.
  - right. lia.
Qed.

Lemma autoSnapTarget_ok st t :
  autoSnapTarget st = Some t -> In t (sections st) /\ acceptable t.
Proof.
  unfold autoSnapTarget, acceptable. cbv zeta.
  destruct (isSnapping st || isScrolling st); [discriminate|].
  destruct (_ && _); [|discriminate].
  destruct (findBestSnapTarget st) as [s|] eqn:Eb; [|discriminate].
  destruct (Rleb _ _ && (55 <=? magnetism s)) eqn:Es; [|discriminate].
  intros [= <-]. apply andb_true_iff in Es. destruct Es as [_ Hm].
  split; [apply findBestSnapTarget_In; exact Eb | right; lia].
Qed.

Lemma keyDownTarget_ok key shiftKey st t :
  keyDownTarget key shiftKey st = Some t -> In t (sections st) /\ acceptable t.
Proof.
  unfold keyDownTarget.
  repeat match goal with
         | |- context [if keyIn ?k ?l then _ else _] => destruct (keyIn k l)
         end; try discriminate; apply findTargetSection_ok.
Qed.

Lemma clickTarget_ok x y w st t :
  clickTarget x y w st = Some t -> In t (sections st) /\ acceptable t.
Proof.
  unfold clickTarget.
  repeat match goal with
         | |- context [if ?c then _ else _] => destruct c
         end; try discriminate; apply findTargetSection_ok.
Qed.

(** ** Magnetic pull *)

Lemma set_velocity_same st : set_velocity (velocity st) st = st.
Proof. destruct st; reflexivity. Qed.

Lemma set_velocity_twice a b st :
  set_velocity a (set_velocity b st) = set_velocity a st.
Proof. reflexivity. Qed.

Lemma magnetic_loop currentPos l : forall st,
  fold_left
    (fun st' section =>
       let distance := (IZR (position section) - currentPos)%R in
       let absDistance := Rabs distance in
       if Rltb 0.5 absDistance && Rleb absDistance snapRadius then
         let force :=
           ((IZR (magnetism section) / 100) * (1 - absDistance / snapRadius))%R in
         let magneticForce := (sign distance * force * 0.02)%R in
         set_velocity (velocity st' + magneticForce)%R st'
       else st') l st
  = set_velocity (velocity st + sumR (map (pullOf currentPos) l))%R st.
Proof.
  induction l as [|s l IH]; intros st; simpl.
  - rewrite Rplus_0_r. symmetry. apply set_velocity_same.
  - rewrite IH. unfold pullOf at 2. cbv zeta.
    destruct (Rltb 0.5 _ && Rleb _ snapRadius); simpl.
    + rewrite set_velocity_twice. f_equal. lra.
    + f_equal. lra.
Qed.

(** [applyMagneticForces] changes the velocity only, by the sum of the pulls
    of the sections within [snapRadius], and only when the speed is at most
    5. *)
Lemma applyMagneticForces_eq st :
  applyMagneticForces st =
  if Rltb 5 (Rabs (velocity st)) then st
  else
    set_velocity
      (velocity st
       + sumR (map (pullOf (positionRef st))
                 (filter
                    (fun s =>
                       Rleb (Rabs (IZR (position s) - positionRef st)) snapRadius)
                    (sections st))))%R st.
Proof.
  unfold applyMagneticForces. destruct (Rltb 5 (Rabs (velocity st)));
    [reflexivity|].
  cbv zeta. apply magnetic_loop.
Qed.

Lemma sum_filtered_pulls currentPos l :
  sumR (map (pullOf currentPos) (filter (within snapRadius currentPos) l)) =
  sumR (map (towardPull currentPos)
          (filter (fun s => beyond 0.5 currentPos s && within snapRadius currentPos s)
             l)).
Proof.
  induction l as [|s l IH]; [reflexivity|].
  cbn [filter].
  destruct (within snapRadius currentPos s) eqn:Ew;
    destruct (beyond 0.5 currentPos s) eqn:Eb;
    cbn [andb map sumR fold_right];
    unfold within in Ew; unfold beyond in Eb.
  - change (fold_right Rplus 0%R) with sumR. rewrite IH. f_equal.
    unfold pullOf, towardPull. cbv zeta. rewrite Ew, Eb. reflexivity.
  - change (fold_right Rplus 0%R) with sumR. rewrite IH.
    unfold pullOf. cbv zeta. rewrite Eb. simpl. lra.
  - exact IH.
  - exact IH.
Qed.

(** C6, as the code has it: the pull is applied only when the speed is at
    most 5, and then the velocity grows by the sum, over every section whose
    distance lies in (0.5, snapRadius], of
    [(magnetism/100) * (1 - distance/snapRadius) * 0.02] signed toward the
    section; nothing else of the scroller changes.  Sections at a distance of
    at most 0.5 do not pull. *)
Theorem magnetic_pull_accumulates st :
  applyMagneticForces st =
  if Rltb 5 (Rabs (velocity st)) then st
  else
    set_velocity
      (velocity st
       + sumR (map (towardPull (positionRef st))
                 (filter
                    (fun s => beyond 0.5 (positionRef st) s
                              && within snapRadius (positionRef st) s)
                    (sections st))))%R st.
Proof.
  rewrite applyMagneticForces_eq.
  destruct (Rltb 5 (Rabs (velocity st))); [reflexivity|].
  f_equal. f_equal. apply sum_filtered_pulls.
Qed.

Lemma sumR_split {A} (f : A -> R) (d w : A -> bool) l :
  sumR (map f (filter w l)) =
  (sumR (map f (filter (fun s => d s && w s) l))
   + sumR (map f (filter (fun s => negb (d s) && w s) l)))%R.
Proof.
  induction l as [|x l IH]; simpl; [lra|].
  destruct (w x), (d x); simpl; lra.
Qed.

Lemma sumR_positive {A} (f : A -> R) l :
  (forall x, In x l -> (0 < f x)%R) -> l <> [] -> (0 < sumR (map f l))%R.
Proof.
  induction l as [|x l IH]; [congruence|]. intros Hpos _. simpl.
  pose proof (Hpos x (or_introl eq_refl)).
  destruct l as [|y l]; [simpl; lra|].
  assert (0 < sumR (map f (y :: l)))%R.
  { apply IH; [|discriminate]. intros z Hz. apply Hpos. right. exact Hz. }
  lra.
Qed.

(** A scroller whose position, 59.7, is within 0.5 of the agent section at
    60. *)
Definition nearSixty : Scroller := construct (mkHost true true true true) 59.7 0.

(** C6, as stated, fails: at position 59.7 the agent section at 60 is within
    [snapRadius], yet it adds nothing to the velocity, so the velocity after
    the pull is not the one obtained from every section within
    [snapRadius]. *)
Lemma magnetic_pull_skips_near_section :
  (Rabs (velocity nearSixty) <= 5)%R /\
  velocity (applyMagneticForces nearSixty) <> pulledByAllWithin nearSixty.
Proof.
  assert (Hv : velocity nearSixty = 0%R) by reflexivity.
  split; [rewrite Hv, Rabs_R0; lra|].
  rewrite magnetic_pull_accumulates. unfold pulledByAllWithin.
  rewrite Hv, Rabs_R0, Rltb_false by lra.
  change (positionRef nearSixty) with 59.7%R.
  change (sections nearSixty) with generateSections.
  cbn [velocity set_velocity].
  rewrite (sumR_split _ (beyond 0.5 59.7) (within snapRadius 59.7)).
  set (far_ := sumR (map _ (filter (fun s => beyond _ _ s && _) _))).
  set (dead := filter (fun s => negb _ && _) generateSections).
  assert (Hdead : (0 < sumR (map (towardPull 59.7) dead))%R).
  { apply sumR_positive.
    - intros s Hs. unfold dead in Hs. apply (proj1 (filter_In _ _ _)) in Hs.
      destruct Hs as [Hin Hc]. apply andb_true_iff in Hc. destruct Hc as [Hb _].
      apply negb_true_iff in Hb. unfold beyond in Hb.
      assert (Hd : (Rabs (IZR (position s) - 59.7) <= 0.5)%R).
      { unfold Rltb in Hb. destruct (Rlt_dec _ _); [discriminate | lra]. }
      unfold Rabs in Hd. destruct (Rcase_abs _) in Hd.
      all: try (assert (Hp : position s = 60);
        [assert (59 < position s) by (apply lt_IZR; lra);
         assert (position s < 61) by (apply lt_IZR; lra); lia|]).
      all: pose proof (SectionMapFacts.generateSections_magnetism s Hin) as Hm;
        unfold towardPull; cbv zeta; rewrite Hp;
        replace (60 - 59.7)%R with 0.3%R by lra;
        rewrite Rabs_pos_eq by lra; unfold sign; rewrite Rltb_true by lra;
        unfold snapRadius;
        assert (35 <= IZR (magnetism s))%R by (apply IZR_le; lia);
        nra.
    - intros Hnil.
      assert (Hin : In (mkSection 60 agent 100 2.0) dead).
      { unfold dead. apply (proj2 (filter_In _ _ _)).
        split; [apply SectionMapFacts.generateSections_agent_60|].
        unfold beyond, within, snapRadius. cbn [position].
        replace (60 - 59.7)%R with 0.3%R by lra.
        rewrite Rabs_pos_eq by lra.
        rewrite Rltb_false, Rleb_true by lra. reflexivity. }
      rewrite Hnil in Hin. destruct Hin. }
  lra.
Qed.

(** ** The position stays on the path *)

Ltac expose st :=
  destruct st as [pos0 agent0 [g0 pr0 sm0 am0] v0 scrolling0 snapping0 time0
                  secs0 last0 acc0 touch0 tween0 played0 paused0 active0 next0
                  trace0].

Lemma updateScene_wellFormed st : wellFormed st -> wellFormed (updateScene st).
Proof.
  unfold wellFormed.
  rewrite updateScene_positionRef, updateScene_sections,
    updateScene_activeTweens. tauto.
Qed.

Lemma killAllTweens_wellFormed st :
  wellFormed st -> wellFormed (killAllTweens st).
Proof.
  intros (Hp & Hs & Ha). unfold wellFormed.
  rewrite killAllTweens_positionRef, killAllTweens_sections.
  split; [exact Hp|]. split; [exact Hs|].
  intros tw Htw. apply Ha. apply killAllTweens_activeTweens_incl. exact Htw.
Qed.

Lemma snapToSection_sections t st : sections (snapToSection t st) = sections st.
Proof.
  unfold snapToSection. destruct (isSnapping st); [reflexivity|]. cbv zeta.
  destruct (negb _).
  - cbn [sections set_isSnapping]. rewrite updateScene_sections.
    cbn [sections set_positionRef]. rewrite killAllTweens_sections. reflexivity.
  - unfold gsapTo, playTransitionSound, emit.
    destruct (animationManager _), (type t); cbn;
      rewrite killAllTweens_sections; reflexivity.
Qed.

Lemma snapToSection_wellFormed t st :
  0 <= position t -> wellFormed st -> wellFormed (snapToSection t st).
Proof.
  intros Ht H. unfold snapToSection.
  destruct (isSnapping st); [exact H|]. destruct H as (Hp & Hs & Ha). cbv zeta.
  set (st1 := set_inputAccumulator _ _).
  assert (H1 : wellFormed (killAllTweens st1)).
  { repeat split.
    - rewrite killAllTweens_positionRef. exact Hp.
    - rewrite killAllTweens_sections. exact Hs.
    - apply Ha. apply (killAllTweens_activeTweens_incl st1). assumption.
    - apply Ha. apply (killAllTweens_activeTweens_incl st1). assumption. }
  destruct H1 as (Hp2 & Hs2 & Ha2).
  destruct (negb _).
  - assert (H : wellFormed (updateScene
               (set_positionRef (IZR (position t)) (killAllTweens st1)))).
    { apply updateScene_wellFormed. repeat split; try assumption.
      - cbn. apply IZR_le. exact Ht.
      - apply Ha2. assumption.
      - apply Ha2. assumption. }
    exact H.
  - set (st3 := if animationManager _ then _ else _).
    assert (H3 : positionRef st3 = positionRef (killAllTweens st1) /\
                 sections st3 = sections (killAllTweens st1) /\
                 activeTweens st3 = activeTweens (killAllTweens st1)).
    { unfold st3. destruct (animationManager _); repeat split. }
    destruct H3 as (E1 & E2 & E3).
    assert (H4 : wellFormed (gsapTo t
                   (Rmin (snapDuration t
                          * (1 + Rabs (IZR (position t)
                                       - positionRef (killAllTweens st1)) / 100))
                      (snapDuration t * 2)) st3)).
    { unfold gsapTo, emit. repeat split; cbn.
      - rewrite E1. exact Hp2.
      - rewrite E2. exact Hs2.
      - rewrite E3 in H. apply in_app_or in H. destruct H as [H|[<-|[]]].
        + apply Ha2. exact H.
        + cbn. rewrite E1. exact Hp2.
      - rewrite E3 in H. apply in_app_or in H. destruct H as [H|[<-|[]]].
        + apply Ha2. exact H.
        + cbn. apply IZR_le. exact Ht. }
    destruct (type t); try exact H4; exact H4.
Qed.

Lemma checkForAutoSnap_wellFormed st :
  wellFormed st -> wellFormed (checkForAutoSnap st).
Proof.
  intros H. unfold checkForAutoSnap.
  destruct (autoSnapTarget st) as [t|] eqn:E; [|exact H].
  apply snapToSection_wellFormed; [|exact H].
  apply autoSnapTarget_ok in E. destruct H as (_ & Hs & _). apply Hs. tauto.
Qed.

Lemma updateMomentum_geometry dt st :
  positionRef (updateMomentum dt st) = positionRef st /\
  sections (updateMomentum dt st) = sections st /\
  activeTweens (updateMomentum dt st) = activeTweens st.
Proof.
  unfold updateMomentum. destruct (isSnapping st); [tauto|]. cbv zeta.
  rewrite applyMagneticForces_eq.
  repeat match goal with
         | |- context [if ?c then _ else _] => destruct c
         end; cbn; tauto.
Qed.

Lemma updatePosition_wellFormed st :
  wellFormed st -> wellFormed (updatePosition st).
Proof.
  intros H. unfold updatePosition.
  destruct (Rltb 0.01 _); [|exact H]. cbv zeta.
  destruct (negb _); [|exact H].
  apply updateScene_wellFormed. destruct H as (Hp & Hs & Ha).
  repeat split; try (apply Hs; assumption); try (apply Ha; assumption).
  cbn. apply Rmax_l.
Qed.

Lemma power2out_range p : (0 <= p <= 1)%R -> (0 <= power2out p <= 1)%R.
Proof.
  unfold power2out. intros Hp.
  assert (H2 : (0 <= (1 - p) * (1 - p) <= 1)%R) by nra. nra.
Qed.

Lemma clamp_range lo hi x : (lo <= hi)%R -> (lo <= clamp lo hi x <= hi)%R.
Proof.
  intros H. unfold clamp, Rmax, Rmin.
  destruct (Rle_dec hi x); destruct (Rle_dec lo _); lra.
Qed.

Lemma runningTween_In id st tw :
  runningTween id st = Some tw -> In tw (activeTweens st).
Proof. unfold runningTween. intros H. apply find_some in H. tauto. Qed.

Lemma step_wellFormed st i : wellFormed st -> wellFormed (step st i).
Proof.
  intros H. destruct i; cbn [step].
  - unfold handleWheel. destruct (_ || _); exact H.
  - unfold handleKeyDown. destruct (isSnapping st); [exact H|].
    destruct (keyDownTarget key shiftKey st) as [t|] eqn:E; [|exact H].
    apply snapToSection_wellFormed; [|exact H].
    apply keyDownTarget_ok in E. destruct H as (_ & Hs & _). apply Hs. tauto.
  - unfold handleTouchStart. destruct touches as [|y [|? ?]]; try exact H.
    exact (killAllTweens_wellFormed
             (set_touchState (Touch.mkState y y now true 0 0 0) st) H).
  - unfold handleTouchMove. cbv zeta. destruct touches as [|y [|? ?]]; try exact H.
    destruct (negb _); [exact H|]. destruct (Rltb 1 _); exact H.
  - unfold handleTouchEnd. cbv zeta. destruct (negb _); exact H.
  - unfold handleClick. destruct (isSnapping st); [exact H|].
    destruct (clickTarget clientX clientY innerWidth st) as [t|] eqn:E;
      [|exact H].
    apply snapToSection_wellFormed; [|exact H].
    apply clickTarget_ok in E. destruct H as (_ & Hs & _). apply Hs. tauto.
  - exact H.
  - unfold inputEndAutoSnap. destruct (_ && _); [|exact H].
    apply checkForAutoSnap_wellFormed. exact H.
  - unfold updatePhysics. destruct (isPhysicsPaused st); [exact H|]. cbv zeta.
    apply checkForAutoSnap_wellFormed, updatePosition_wellFormed.
    unfold wellFormed.
    destruct (updateMomentum_geometry
                (if Reqb (now - lastUpdateTime st) 0 then 16%R
                 else (now - lastUpdateTime st)%R)
                (set_lastUpdateTime now st)) as (-> & -> & ->).
    exact H.
  - unfold tweenUpdate. destruct (runningTween tween st) as [tw|] eqn:E;
      [|exact H].
    cbv zeta. apply updateScene_wellFormed.
    destruct H as (Hp & Hs & Ha).
    repeat split; try (apply Hs; assumption); try (apply Ha; assumption).
    cbn. apply runningTween_In in E. destruct (Ha _ E) as [Hf Ht].
    pose proof (power2out_range (clamp 0 1 progress)
                  (clamp_range 0 1 progress ltac:(lra))).
    nra.
  - unfold tweenComplete. destruct (runningTween tween st) as [tw|] eqn:E;
      [|exact H].
    cbv zeta. apply runningTween_In in E.
    destruct H as (Hp & Hs & Ha). destruct (Ha _ E) as [Hf Ht].
    unfold onComplete. cbv zeta.
    assert (W : wellFormed (updateScene (set_positionRef (tweenTo tw) st))).
    { apply updateScene_wellFormed. repeat split; try assumption;
        apply Ha; assumption. }
    destruct W as (Wp & Ws & Wa).
    destruct (animationManager _); repeat split; cbn; try assumption;
      try (apply Wa; apply (proj1 (filter_In _ _ _)) in H; tauto).
  - exact H.
  - exact H.
Qed.

Lemma states_wellFormed inputs : forall st,
  wellFormed st -> Forall wellFormed (states st inputs).
Proof.
  induction inputs as [|i rest IH]; intros st H; simpl; constructor.
  - apply step_wellFormed. exact H.
  - apply IH. apply step_wellFormed. exact H.
Qed.

Lemma construct_wellFormed h p0 a0 :
  (0 <= p0)%R -> wellFormed (construct h p0 a0).
Proof.
  intros Hp. unfold wellFormed.
  change (positionRef (construct h p0 a0)) with p0.
  change (sections (construct h p0 a0)) with generateSections.
  change (activeTweens (construct h p0 a0)) with (@nil GSAPTween).
  split; [exact Hp|]. split.
  - apply SectionMapFacts.generateSections_nonneg.
  - intros tw [].
Qed.

Lemma updatePosition_positionRef st :
  positionRef (updatePosition st) =
  if Rltb 0.01 (Rabs (velocity st)) then Rmax 0 (positionRef st + velocity st)
  else positionRef st.
Proof.
  unfold updatePosition. destruct (Rltb 0.01 _); [|reflexivity]. cbv zeta.
  unfold Reqb. destruct (Req_dec_T _ _) as [E|E]; simpl.
  - symmetry. exact E.
  - rewrite updateScene_positionRef. reflexivity.
Qed.

(** ** Snapping *)

Lemma snapToSection_snapping t st :
  isSnapping st = true -> snapToSection t st = st.
Proof. intros H. unfold snapToSection. rewrite H. reflexivity. Qed.

Lemma snapToSection_instant t st :
  isSnapping st = false -> gsap (host st) = false ->
  snapToSection t st =
  set_isSnapping false
    (updateScene
       (set_positionRef (IZR (position t))
          (set_inputAccumulator 0%R
             (set_velocity 0%R (set_isScrolling false (set_isSnapping true st)))))).
Proof.
  intros Hs Hg. unfold snapToSection. rewrite Hs. cbv zeta.
  unfold killAllTweens. cbn [host set_inputAccumulator set_velocity
                               set_isScrolling set_isSnapping].
  rewrite Hg. cbn [negb host set_inputAccumulator set_velocity
                     set_isScrolling set_isSnapping]. rewrite Hg. reflexivity.
Qed.

Lemma snapToSection_tween t st :
  isSnapping st = false -> gsap (host st) = true ->
  let st' := snapToSection t st in
  isSnapping st' = true /\ isScrolling st' = false /\
  velocity st' = 0%R /\ inputAccumulator st' = 0%R /\
  positionRef st' = positionRef st /\
  host st' = host st /\
  currentTween st' = Some (snapTween t st) /\
  activeTweens st' = survivors st ++ [snapTween t st].
Proof.
  intros Hs Hg. expose st. cbn in Hs, Hg. subst.
  unfold snapToSection, killAllTweens, kill, gsapTo, playTransitionSound, emit,
    snapTween, survivors.
  cbn. destruct tween0; cbn; destruct am0; cbn; destruct (type t); cbn;
    repeat split.
Qed.

(** ** At most one tween drives the position *)

(** What the tween bookkeeping of a state consists of. *)
Lemma updateScene_tweens st :
  host (updateScene st) = host st /\
  currentTween (updateScene st) = currentTween st /\
  activeTweens (updateScene st) = activeTweens st.
Proof.
  rewrite updateScene_host, updateScene_currentTween, updateScene_activeTweens.
  tauto.
Qed.

Lemma singleTween_ext st st' :
  host st' = host st -> currentTween st' = currentTween st ->
  activeTweens st' = activeTweens st -> singleTween st -> singleTween st'.
Proof. unfold singleTween. intros -> -> ->. tauto. Qed.

Lemma survivors_nil st : singleTween st -> survivors st = [].
Proof.
  unfold singleTween, survivors.
  intros [H|(_ & tw & Hc & Ha)].
  - rewrite H. destruct (currentTween st); reflexivity.
  - rewrite Hc, Ha. cbn. rewrite Nat.eqb_refl. reflexivity.
Qed.

Lemma killAllTweens_single st : singleTween st -> singleTween (killAllTweens st).
Proof.
  intros H. pose proof (survivors_nil st H) as Hn. unfold survivors in Hn.
  unfold killAllTweens, kill, emit.
  destruct (gsap (host st)) eqn:Hg; [|exact H].
  destruct (currentTween st) as [tw|] eqn:Hc; [|exact H].
  left. cbn. exact Hn.
Qed.

Lemma snapToSection_single t st : singleTween st -> singleTween (snapToSection t st).
Proof.
  intros H. destruct (isSnapping st) eqn:Hs.
  - rewrite snapToSection_snapping by exact Hs. exact H.
  - destruct (gsap (host st)) eqn:Hg.
    + destruct (snapToSection_tween t st Hs Hg)
        as (_ & _ & _ & _ & _ & Hh & Hc & Ha).
      right. rewrite Hh. split; [exact Hg|].
      exists (snapTween t st). split; [exact Hc|].
      rewrite Ha, (survivors_nil st H). reflexivity.
    + rewrite snapToSection_instant by assumption.
      left. cbn [activeTweens set_isSnapping].
      rewrite updateScene_activeTweens. cbn.
      destruct H as [H|(Hg' & _)]; [exact H | congruence].
Qed.

Lemma checkForAutoSnap_single st :
  singleTween st -> singleTween (checkForAutoSnap st).
Proof.
  intros H. unfold checkForAutoSnap.
  destruct (autoSnapTarget st); [apply snapToSection_single|]; exact H.
Qed.

Lemma updateMomentum_tweens dt st :
  host (updateMomentum dt st) = host st /\
  currentTween (updateMomentum dt st) = currentTween st /\
  activeTweens (updateMomentum dt st) = activeTweens st.
Proof.
  unfold updateMomentum. destruct (isSnapping st); [tauto|]. cbv zeta.
  rewrite applyMagneticForces_eq.
  repeat match goal with
         | |- context [if ?c then _ else _] => destruct c
         end; cbn; tauto.
Qed.

Lemma updatePosition_tweens st :
  host (updatePosition st) = host st /\
  currentTween (updatePosition st) = currentTween st /\
  activeTweens (updatePosition st) = activeTweens st.
Proof.
  unfold updatePosition. destruct (Rltb 0.01 _); [|tauto]. cbv zeta.
  destruct (negb _); [|tauto].
  destruct (updateScene_tweens
              (set_positionRef (Rmax 0 (positionRef st + velocity st)) st))
    as (-> & -> & ->). tauto.
Qed.

Lemma step_single st i : singleTween st -> singleTween (step st i).
Proof.
  intros H. destruct i; cbn [step].
  - unfold handleWheel. destruct (_ || _); exact H.
  - unfold handleKeyDown. destruct (isSnapping st); [exact H|].
    destruct (keyDownTarget key shiftKey st);
      [apply snapToSection_single|]; exact H.
  - unfold handleTouchStart. destruct touches as [|y [|? ?]]; try exact H.
    exact (killAllTweens_single
             (set_touchState (Touch.mkState y y now true 0 0 0) st) H).
  - unfold handleTouchMove. cbv zeta. destruct touches as [|y [|? ?]]; try exact H.
    destruct (negb _); [exact H|]. destruct (Rltb 1 _); exact H.
  - unfold handleTouchEnd. cbv zeta. destruct (negb _); exact H.
  - unfold handleClick. destruct (isSnapping st); [exact H|].
    destruct (clickTarget clientX clientY innerWidth st);
      [apply snapToSection_single|]; exact H.
  - exact H.
  - unfold inputEndAutoSnap. destruct (_ && _); [|exact H].
    apply checkForAutoSnap_single. exact H.
  - unfold updatePhysics. destruct (isPhysicsPaused st); [exact H|]. cbv zeta.
    apply checkForAutoSnap_single.
    set (st1 := updateMomentum _ _).
    destruct (updatePosition_tweens st1) as (E1 & E2 & E3).
    apply (singleTween_ext st1 _ E1 E2 E3). unfold st1.
    set (dt := if Reqb _ _ then _ else _).
    destruct (updateMomentum_tweens dt (set_lastUpdateTime now st))
      as (F1 & F2 & F3).
    apply (singleTween_ext (set_lastUpdateTime now st) _ F1 F2 F3). exact H.
  - unfold tweenUpdate. destruct (runningTween tween st); [|exact H].
    cbv zeta. set (st1 := set_positionRef _ _).
    destruct (updateScene_tweens st1) as (E1 & E2 & E3).
    apply (singleTween_ext st1 _ E1 E2 E3). exact H.
  - unfold tweenComplete. destruct (runningTween tween st) as [tw|]; [|exact H].
    cbv zeta. unfold onComplete. cbv zeta.
    set (st1 := set_positionRef _ _).
    destruct (updateScene_tweens st1) as (E1 & E2 & E3).
    assert (W : singleTween
                  (set_activeTweens
                     (filter (fun t => negb (Nat.eqb (tweenId t) tween))
                        (activeTweens (updateScene st1))) (updateScene st1))).
    { unfold singleTween. cbn. rewrite E1, E2, E3. cbn.
      destruct H as [H|(Hg & tw' & Hc & Ha)].
      - left. rewrite H. reflexivity.
      - rewrite Ha. cbn. destruct (negb _).
        + right. split; [exact Hg|]. exists tw'. split; [exact Hc | reflexivity].
        + left. reflexivity. }
    destruct (animationManager _); exact W.
  - exact H.
  - exact H.
Qed.

Lemma run_single inputs : forall st, singleTween st -> singleTween (run st inputs).
Proof.
  unfold run. induction inputs as [|i rest IH]; intros st H; simpl; [exact H|].
  apply IH, step_single, H.
Qed.

Lemma singleTween_length st : singleTween st -> (List.length (activeTweens st) <= 1)%nat.
Proof.
  intros [H|(_ & tw & _ & H)]; rewrite H; simpl; lia.
Qed.

(** ** A snap in flight *)

Lemma start_ArrowRight : keyDownTarget "ArrowRight" false start = Some agent60.
Proof.
  change (keyDownTarget "ArrowRight" false start)
    with (findTargetSection 1 snapAgent start).
  unfold findTargetSection. cbv zeta.
  change (sections start) with generateSections.
  change (positionRef start) with 0%R.
  destruct SectionMapFacts.generateSections_agents as (rest & ->).
  cbn [Z.ltb Z.compare find position].
  rewrite Rltb_false by lra. rewrite Rltb_true by lra. reflexivity.
Qed.

Lemma snapInFlight_eq : snapInFlight = snapToSection agent60 start.
Proof.
  unfold run. cbn [fold_left step]. unfold handleKeyDown.
  change (isSnapping start) with false. cbv iota.
  rewrite start_ArrowRight. reflexivity.
Qed.

Lemma snapInFlight_state :
  isSnapping snapInFlight = true /\ velocity snapInFlight = 0%R /\
  positionRef snapInFlight = 0%R /\ host snapInFlight = allThere /\
  isPhysicsPaused snapInFlight = false /\ lastUpdateTime snapInFlight = 0%R /\
  currentTween snapInFlight = Some (snapTween agent60 start) /\
  activeTweens snapInFlight = [snapTween agent60 start].
Proof.
  rewrite snapInFlight_eq.
  destruct (snapToSection_tween agent60 start eq_refl eq_refl)
    as (H1 & _ & H3 & _ & H5 & H6 & H7 & H8).
  repeat split; assumption.
Qed.

Lemma tweenComplete_lands id st tw :
  runningTween id st = Some tw ->
  positionRef (tweenComplete id st) = tweenTo tw /\
  isSnapping (tweenComplete id st) = false /\
  lastTargetSection (tweenComplete id st) = Some (tweenTarget tw).
Proof.
  intros H. unfold tweenComplete. rewrite H. cbv zeta. unfold onComplete, emit.
  cbv zeta. destruct (animationManager _); cbn;
    rewrite updateScene_positionRef; repeat split.
Qed.

(** C4, as the code has it: when a snap is already in flight, a new call of
    [snapToSection] changes nothing, so the transition in flight goes on and
    the new target is dropped; and in every state a run can reach, before and
    after such a call, at most one tween drives the position. *)
Theorem snap_request_while_snapping h p0 a0 inputs t :
  let st := run (construct h p0 a0) inputs in
  isSnapping st = true ->
  snapToSection t st = st /\
  (List.length (activeTweens (snapToSection t st)) <= 1)%nat.
Proof.
  cbv zeta. intros Hs. split; [apply snapToSection_snapping; exact Hs|].
  apply singleTween_length, snapToSection_single, run_single.
  left. reflexivity.
Qed.

Lemma snap_request_while_snapping_witness :
  isSnapping snapInFlight = true /\
  snapToSection agent120 snapInFlight = snapInFlight.
Proof.
  split; [exact (proj1 snapInFlight_state)|].
  exact (proj1 (snap_request_while_snapping allThere 0 0
                  [KeyDown "ArrowRight" false] agent120
                  (proj1 snapInFlight_state))).
Defined.

(** C4, as stated, fails: with the snap toward 60 in flight, a call of
    [snapToSection] toward 120 leaves the tween toward 60 running and held,
    and no call reaches the tween driver. *)
Lemma snap_request_while_snapping_keeps_tween :
  isSnapping snapInFlight = true /\
  currentTween (snapToSection agent120 snapInFlight)
  = Some (snapTween agent60 start) /\
  activeTweens (snapToSection agent120 snapInFlight) = [snapTween agent60 start] /\
  tweenTo (snapTween agent60 start) = 60%R /\
  trace (snapToSection agent120 snapInFlight) = trace snapInFlight.
Proof.
  destruct snapInFlight_state as (Hs & _ & _ & _ & _ & _ & Hc & Ha).
  rewrite (snapToSection_snapping agent120 snapInFlight Hs).
  split; [exact Hs|]. split; [exact Hc|]. split; [exact Ha|].
  split; reflexivity.
Qed.

(** C7, as the code has it: a call of [snapToSection] toward [t] while no
    snap is in flight ends with the position exactly at [t], whatever the
    distance.  Without the tween driver the position is assigned at once, the
    scene is rebuilt and the snapping flag is cleared; with it, the tween
    started is the one running and held, and whenever it completes the
    position is the one of [t] and the snapping flag is cleared. *)
Theorem snap_reaches_target t st :
  isSnapping st = false ->
  let st' := snapToSection t st in
  if gsap (host st) then
    currentTween st' = Some (snapTween t st) /\
    In (snapTween t st) (activeTweens st') /\
    tweenTo (snapTween t st) = IZR (position t) /\
    forall later,
      runningTween (tweenId (snapTween t st)) later = Some (snapTween t st) ->
      positionRef (tweenComplete (tweenId (snapTween t st)) later)
      = IZR (position t) /\
      isSnapping (tweenComplete (tweenId (snapTween t st)) later) = false
  else
    positionRef st' = IZR (position t) /\
    isSnapping st' = false /\
    (pathRenderer (host st) = true ->
     In (CreateDottedPath (IZR (position t))) (trace st')).
Proof.
  intros Hs. cbv zeta. destruct (gsap (host st)) eqn:Hg.
  - destruct (snapToSection_tween t st Hs Hg)
      as (_ & _ & _ & _ & _ & _ & Hc & Ha).
    split; [exact Hc|]. split; [rewrite Ha; apply in_or_app; right; left;
                                reflexivity|].
    split; [reflexivity|]. intros later Hr.
    destruct (tweenComplete_lands _ _ _ Hr) as (Hp & Hn & _).
    split; [exact Hp | exact Hn].
  - rewrite (snapToSection_instant t st Hs Hg).
    cbn [positionRef isSnapping trace set_isSnapping].
    rewrite updateScene_positionRef. split; [reflexivity|].
    split; [reflexivity|]. intros Hr.
    unfold updateScene, playTransitionSound, emit.
    cbn [host set_positionRef set_inputAccumulator set_velocity set_isScrolling
           set_isSnapping positionRef]. rewrite Hr.
    repeat match goal with
           | |- context [if ?c then _ else _] => destruct c
           | |- context [match ?x with Some _ => _ | None => _ end] => destruct x
           end; cbn; rewrite ?in_app_iff; cbn; tauto.
Qed.

Lemma snap_reaches_target_witness :
  isSnapping (construct noGsap 0 0) = false /\
  positionRef (snapToSection agent60 (construct noGsap 0 0)) = 60%R /\
  isSnapping (snapToSection agent60 (construct noGsap 0 0)) = false.
Proof.
  split; [reflexivity|].
  pose proof (snap_reaches_target agent60 (construct noGsap 0 0) eq_refl) as H.
  cbv zeta in H. change (gsap (host (construct noGsap 0 0))) with false in H.
  cbv iota in H. split; [exact (proj1 H) | exact (proj1 (proj2 H))].
Defined.

(** C7, as stated, fails: with the snap toward 60 in flight, a call of
    [snapToSection] toward 120 does not move the position, and when the
    transition completes the position is 60, not 120. *)
Lemma snap_request_while_snapping_misses_target :
  positionRef (snapToSection agent120 snapInFlight) = 0%R /\
  positionRef
    (tweenComplete (tweenId (snapTween agent60 start))
       (snapToSection agent120 snapInFlight)) = 60%R /\
  IZR (position agent120) = 120%R.
Proof.
  destruct snapInFlight_state as (Hs & _ & Hp & _ & _ & _ & _ & Ha).
  rewrite (snapToSection_snapping agent120 snapInFlight Hs).
  split; [exact Hp|]. split; [|reflexivity].
  assert (Hr : runningTween (tweenId (snapTween agent60 start)) snapInFlight
               = Some (snapTween agent60 start)).
  { unfold runningTween. rewrite Ha. reflexivity. }
  destruct (tweenComplete_lands _ _ _ Hr) as (H & _). exact H.
Qed.

(** ** Free physics while a snap is in flight *)

Lemma updateMomentum_snapping dt st :
  isSnapping st = true -> updateMomentum dt st = st.
Proof. intros H. unfold updateMomentum. rewrite H. reflexivity. Qed.

Lemma checkForAutoSnap_snapping st :
  isSnapping st = true -> checkForAutoSnap st = st.
Proof.
  intros H. unfold checkForAutoSnap, autoSnapTarget. rewrite H. reflexivity.
Qed.

Lemma updatePosition_velocity st : velocity (updatePosition st) = velocity st.
Proof.
  unfold updatePosition. destruct (Rltb 0.01 _); [|reflexivity]. cbv zeta.
  destruct (negb _); [|reflexivity]. rewrite updateScene_velocity. reflexivity.
Qed.

Lemma updatePosition_isSnapping st :
  isSnapping (updatePosition st) = isSnapping st.
Proof.
  unfold updatePosition. destruct (Rltb 0.01 _); [|reflexivity]. cbv zeta.
  destruct (negb _); [|reflexivity]. rewrite updateScene_isSnapping.
  reflexivity.
Qed.

(** While a snap is in flight a frame of the physics loop is
    [updatePosition] alone: friction, impulse and magnetism are skipped, the
    position update is not. *)
Lemma updatePhysics_snapping now st :
  isSnapping st = true -> isPhysicsPaused st = false ->
  updatePhysics now st = updatePosition (set_lastUpdateTime now st).
Proof.
  intros Hs Hp. unfold updatePhysics. rewrite Hp. cbv zeta.
  rewrite updateMomentum_snapping by exact Hs.
  apply checkForAutoSnap_snapping. rewrite updatePosition_isSnapping. exact Hs.
Qed.

(** A wheel event and a frame of the physics loop, from any state at rest
    at position 0 in which a snap is in flight. *)
Lemma wheel_then_frame_while_snapping s1 :
  isSnapping s1 = true -> velocity s1 = 0%R -> positionRef s1 = 0%R ->
  isPhysicsPaused s1 = false ->
  let st2 := EnhancedMomentumScroller.step s1 (Wheel 100 false false) in
  let st3 := EnhancedMomentumScroller.step st2 (AnimationFrame 16) in
  (isSnapping s1 = true /\ velocity s1 = 0%R /\ positionRef s1 = 0%R) /\
  (isSnapping st2 = true /\ velocity st2 = 1.8%R /\ positionRef st2 = 0%R) /\
  (isSnapping st3 = true /\ velocity st3 = 1.8%R /\ positionRef st3 = 1.8%R).
Proof.
  intros Hs Hv Hp Hpaused. cbv zeta.
  split; [split; [exact Hs | split; [exact Hv | exact Hp]]|].
  cbn [step]. unfold handleWheel. cbn [orb]. cbv zeta.
  set (s2 := set_velocity _ _).
  assert (Hs2 : isSnapping s2 = true) by exact Hs.
  assert (Hp2 : positionRef s2 = 0%R) by exact Hp.
  assert (Hv2 : velocity s2 = 1.8%R).
  { unfold s2. cbn [velocity set_velocity set_isScrolling set_inputAccumulator].
    rewrite Hv. unfold clamp, sign, maxVelocity, accelerationMultiplier.
    repeat Rstep. lra. }
  split; [split; [exact Hs2 | split; [exact Hv2 | exact Hp2]]|].
  rewrite (updatePhysics_snapping 16 s2 Hs2 Hpaused).
  rewrite updatePosition_isSnapping, updatePosition_velocity,
    updatePosition_positionRef.
  cbn [isSnapping velocity positionRef set_lastUpdateTime].
  rewrite Hv2, Hp2. repeat Rstep.
  split; [exact Hs | split; [reflexivity | lra]].
Qed.

(** C2 fails on the code: a wheel event that arrives while the snap toward
    60 is in flight makes the velocity 1.8, and the next frame of the physics
    loop, with the snap still in flight, keeps that velocity and moves the
    position from 0 to 1.8. *)
Theorem wheel_during_snap_moves_position :
  let st1 := snapInFlight in
  let st2 := EnhancedMomentumScroller.step st1 (Wheel 100 false false) in
  let st3 := EnhancedMomentumScroller.step st2 (AnimationFrame 16) in
  (isSnapping st1 = true /\ velocity st1 = 0%R /\ positionRef st1 = 0%R) /\
  (isSnapping st2 = true /\ velocity st2 = 1.8%R /\ positionRef st2 = 0%R) /\
  (isSnapping st3 = true /\ velocity st3 = 1.8%R /\ positionRef st3 = 1.8%R).
Proof.
  destruct snapInFlight_state as (Hs & Hv & Hp & _ & Hpaused & _).
  exact (wheel_then_frame_while_snapping snapInFlight Hs Hv Hp Hpaused).
Qed.

(** ** Snap targets *)

Lemma checkForAutoSnap_sections st :
  sections (checkForAutoSnap st) = sections st.
Proof.
  unfold checkForAutoSnap. destruct (autoSnapTarget st); [|reflexivity].
  apply snapToSection_sections.
Qed.

Lemma updatePosition_sections st : sections (updatePosition st) = sections st.
Proof.
  unfold updatePosition. destruct (Rltb 0.01 _); [|reflexivity]. cbv zeta.
  destruct (negb _); [|reflexivity]. rewrite updateScene_sections. reflexivity.
Qed.

Lemma step_sections st i : sections (step st i) = sections st.
Proof.
  destruct i; cbn [step].
  - unfold handleWheel. destruct (_ || _); reflexivity.
  - unfold handleKeyDown. destruct (isSnapping st); [reflexivity|].
    destruct (keyDownTarget key shiftKey st); [|reflexivity].
    apply snapToSection_sections.
  - unfold handleTouchStart. destruct touches as [|y [|? ?]]; try reflexivity.
    cbn [sections set_velocity]. rewrite killAllTweens_sections. reflexivity.
  - unfold handleTouchMove. cbv zeta. destruct touches as [|y [|? ?]];
      try reflexivity.
    destruct (negb _); [reflexivity|]. destruct (Rltb 1 _); reflexivity.
  - unfold handleTouchEnd. cbv zeta. destruct (negb _); reflexivity.
  - unfold handleClick. destruct (isSnapping st); [reflexivity|].
    destruct (clickTarget clientX clientY innerWidth st); [|reflexivity].
    apply snapToSection_sections.
  - reflexivity.
  - unfold inputEndAutoSnap. destruct (_ && _); [|reflexivity].
    apply checkForAutoSnap_sections.
  - unfold updatePhysics. destruct (isPhysicsPaused st); [reflexivity|].
    cbv zeta. rewrite checkForAutoSnap_sections, updatePosition_sections.
    set (dt := if Reqb _ _ then _ else _).
    destruct (updateMomentum_geometry dt (set_lastUpdateTime now st))
      as (_ & E & _).
    rewrite E. reflexivity.
  - unfold tweenUpdate. destruct (runningTween tween st); [|reflexivity].
    cbv zeta. rewrite updateScene_sections. reflexivity.
  - unfold tweenComplete. destruct (runningTween tween st); [|reflexivity].
    cbv zeta. unfold onComplete, emit. cbv zeta.
    destruct (animationManager _); cbn; rewrite updateScene_sections;
      reflexivity.
  - reflexivity.
  - reflexivity.
Qed.

Lemma run_sections inputs : forall st, sections (run st inputs) = sections st.
Proof.
  unfold run. induction inputs as [|i rest IH]; intros st; simpl;
    [reflexivity|].
  rewrite IH. apply step_sections.
Qed.

Lemma construct_sections h p0 a0 :
  sections (construct h p0 a0) = generateSections.
Proof. reflexivity. Qed.

(** Every state of a run holds the generated section map, and so does the
    state in which a frame of the physics loop probes for an auto-snap. *)
Lemma run_generated h p0 a0 inputs :
  sections (run (construct h p0 a0) inputs) = generateSections.
Proof. rewrite run_sections. apply construct_sections. Qed.

Lemma frame_probe_sections dt now st :
  sections (updatePosition (updateMomentum dt (set_lastUpdateTime now st)))
  = sections st.
Proof.
  rewrite updatePosition_sections.
  destruct (updateMomentum_geometry dt (set_lastUpdateTime now st))
    as (_ & E & _).
  rewrite E. reflexivity.
Qed.

(** C10: in every state that holds the generated section map, the target
    that the auto-snap trigger, a key press or a click hands to
    [snapToSection] is an agent section or has magnetism at least 55, and is
    never a micro section. *)
Theorem snap_targets_acceptable st key shiftKey x y w t :
  sections st = generateSections ->
  autoSnapTarget st = Some t \/
  keyDownTarget key shiftKey st = Some t \/
  clickTarget x y w st = Some t ->
  (type t = agent \/ 55 <= magnetism t) /\ type t <> micro.
Proof.
  intros Hsec H.
  assert (Hok : In t (sections st) /\ acceptable t).
  { destruct H as [H|[H|H]].
    - exact (autoSnapTarget_ok _ _ H).
    - exact (keyDownTarget_ok _ _ _ _ H).
    - exact (clickTarget_ok _ _ _ _ _ H). }
  destruct Hok as [Hin Hacc]. split; [exact Hacc|].
  rewrite Hsec in Hin.
  intros Hmicro.
  pose proof (SectionMapFacts.generateSections_micro t Hin Hmicro) as Hm.
  clear Hin H. destruct Hacc as [Ha|Ha].
  - rewrite Hmicro in Ha. discriminate Ha.
  - rewrite Hm in Ha. exact (Ha eq_refl).
Qed.

Lemma snap_targets_acceptable_witness :
  sections start = generateSections /\
  keyDownTarget "ArrowRight" false start = Some agent60 /\
  (type agent60 = agent \/ 55 <= magnetism agent60) /\ type agent60 <> micro.
Proof.
  split; [exact (construct_sections allThere 0 0)|].
  split; [exact start_ArrowRight|].
  exact (snap_targets_acceptable start "ArrowRight" false 0 0 0 agent60
           (construct_sections allThere 0 0)
           (or_intror (or_introl start_ArrowRight))).
Defined.

(** ** The background notifier *)

(** One scene update of the momentum scroller notifies the background
    exactly when the agent index derived from the position differs from the
    last-known one and the scene manager is there, and then records the new
    index as the last-known one. *)
Lemma updateScene_notifies st :
  let currentAgent := Zfloor (positionRef st / 60) in
  let fires :=
    negb (currentAgent =? currentAgentRef st) && sceneManager (host st) in
  notifications (trace (updateScene st)) =
  notifications (trace st) ++ (if fires then [currentAgent] else []) /\
  currentAgentRef (updateScene st) =
  (if fires then currentAgent else currentAgentRef st).
Proof.
  cbv zeta. expose st. unfold updateScene, playTransitionSound, emit. cbn.
  destruct pr0; cbn;
    destruct (negb (Zfloor (pos0 / 60) =? agent0) && sm0); cbn;
    destruct played0 as [last|]; cbn;
    try destruct (last =? Zfloor (pos0 / 60)); cbn;
    destruct (0 <? Zfloor (pos0 / 60)); cbn;
    rewrite ?notifications_app; cbn; rewrite ?app_nil_r, <- ?app_assoc;
    split; reflexivity.
Qed.

(** Two scene updates in a row at positions with the same agent index: the
    second one never notifies. *)
Lemma updateScene_no_repeat st p :
  sceneManager (host st) = true ->
  Zfloor (p / 60) = Zfloor (positionRef st / 60) ->
  notifications (trace (updateScene (set_positionRef p (updateScene st)))) =
  notifications (trace (updateScene st)).
Proof.
  intros Hsm Hp.
  destruct (updateScene_notifies (set_positionRef p (updateScene st))) as [E _].
  rewrite E. cbn [positionRef currentAgentRef host set_positionRef].
  destruct (updateScene_notifies st) as [_ E2]. cbv zeta in E2.
  rewrite E2, updateScene_host, Hsm, Hp.
  destruct (negb (Zfloor (positionRef st / 60) =? currentAgentRef st) && true)
    eqn:Ef.
  - rewrite Z.eqb_refl. cbn. apply app_nil_r.
  - rewrite andb_true_r in Ef. rewrite Ef. cbn. apply app_nil_r.
Qed.

(** ** Friction *)

Lemma friction_factor dt :
  (1 <= dt)%R -> (0 < Rpower friction (dt / 16) <= 0.8)%R.
Proof.
  intros Hdt. unfold Rpower. split; [apply exp_pos|].
  assert (Hf : (0 < friction < 1)%R) by (unfold friction; lra).
  assert (Hln : (ln friction < 0)%R).
  { rewrite <- ln_1. apply ln_increasing; lra. }
  assert (Hmono : (exp (dt / 16 * ln friction) <= exp (1 / 16 * ln friction))%R).
  { assert (Hle : (dt / 16 * ln friction <= 1 / 16 * ln friction)%R) by nra.
    destruct Hle as [Hlt|Heq]; [left; apply exp_increasing; exact Hlt|].
    rewrite Heq. apply Rle_refl. }
  apply (Rle_trans _ _ _ Hmono).
  change (exp (1 / 16 * ln friction)) with (Rpower friction (1 / 16)).
  set (q := Rpower friction (1 / 16)).
  assert (Hq : (0 < q)%R) by apply exp_pos.
  assert (Hq16 : (q ^ 16 = friction)%R).
  { rewrite <- Rpower_pow by exact Hq. unfold q. rewrite Rpower_mult.
    replace (1 / 16 * INR 16)%R with 1%R.
    - apply Rpower_1. lra.
    - rewrite INR_IZR_INZ. simpl Z.of_nat. lra. }
  destruct (Rle_dec q 0.8) as [H|H]; [exact H|].
  exfalso. assert (H8 : (0.8 ^ 16 <= q ^ 16)%R) by (apply pow_incr; lra).
  rewrite Hq16 in H8. unfold friction in H8. simpl pow in H8. lra.
Qed.

Ltac Rcases :=
  unfold Rmin;
  repeat match goal with
         | |- context [Rle_dec ?a ?b] => destruct (Rle_dec a b)
         end;
  unfold Rmax;
  repeat match goal with
         | |- context [Rle_dec ?a ?b] => destruct (Rle_dec a b)
         end;
  unfold Rabs;
  repeat match goal with
         | |- context [Rcase_abs ?a] => destruct (Rcase_abs a)
         end;
  lra.

Lemma settle_decays v f :
  (0 < f <= 0.8)%R ->
  (Rabs (settle (v * f)) <= 0.8 * Rabs v)%R /\
  (Rabs (settle (v * f)) <= 25)%R /\
  (settle (v * f) = 0%R \/ (0.02 <= Rabs (settle (v * f)))%R) /\
  ((0 <= v)%R -> (0 <= settle (v * f))%R).
Proof.
  intros Hf. unfold settle, minVelocity, maxVelocity, clamp.
  assert (Hvf : (Rabs (v * f) <= 0.8 * Rabs v)%R).
  { rewrite Rabs_mult, (Rabs_pos_eq f) by lra.
    pose proof (Rabs_pos v). nra. }
  unfold Rltb. destruct (Rlt_dec (Rabs (v * f)) 0.02) as [Hs|Hs].
  - rewrite Rabs_R0. pose proof (Rabs_pos v).
    repeat split; try lra; try (left; reflexivity).
  - assert (Hsign : (0 <= v -> 0 <= v * f)%R) by (intros; nra).
    set (x := (v * f)%R) in *. clearbody x. clear Hf.
    assert (H1 : (Rabs (Rmax (- (25)) (Rmin 25 x)) <= Rabs x)%R).
    { Rcases. }
    assert (H2 : (Rabs (Rmax (- (25)) (Rmin 25 x)) <= 25)%R).
    { Rcases. }
    assert (H3 : (0.02 <= Rabs (Rmax (- (25)) (Rmin 25 x)))%R).
    { revert Hs. Rcases. }
    assert (H4 : (0 <= x -> 0 <= Rmax (- (25)) (Rmin 25 x))%R).
    { Rcases. }
    split; [lra|]. split; [exact H2|]. split; [right; exact H3|].
    intros Hv. apply H4, Hsign, Hv.
Qed.

Lemma snapToSection_velocity t st :
  velocity (snapToSection t st) = if isSnapping st then velocity st else 0%R.
Proof.
  destruct (isSnapping st) eqn:Hs.
  - rewrite snapToSection_snapping by exact Hs. reflexivity.
  - destruct (gsap (host st)) eqn:Hg.
    + destruct (snapToSection_tween t st Hs Hg) as (_ & _ & H & _). exact H.
    + rewrite snapToSection_instant by assumption.
      cbn [velocity set_isSnapping]. rewrite updateScene_velocity. reflexivity.
Qed.

Lemma checkForAutoSnap_velocity st :
  velocity (checkForAutoSnap st) = velocity st \/
  velocity (checkForAutoSnap st) = 0%R.
Proof.
  unfold checkForAutoSnap. destruct (autoSnapTarget st); [|left; reflexivity].
  rewrite snapToSection_velocity. destruct (isSnapping st); [left | right];
    reflexivity.
Qed.

Lemma filter_none {A} (p : A -> bool) l :
  (forall x, In x l -> p x = false) -> filter p l = [].
Proof.
  induction l as [|x l IH]; intros H; [reflexivity|]. simpl.
  rewrite (H x (or_introl eq_refl)). apply IH. intros y Hy. apply H. right.
  exact Hy.
Qed.

(** In free motion without impulse or pull, [updateMomentum] is friction
    followed by the clamp. *)
Lemma updateMomentum_quiet dt st :
  quiet st ->
  updateMomentum dt st =
  set_velocity (settle (velocity st * Rpower friction (dt / 16))) st.
Proof.
  intros (Hs & _ & Hacc & Hpull). unfold updateMomentum. rewrite Hs. cbv zeta.
  cbn [inputAccumulator set_velocity].
  rewrite (Rltb_false 0.001 _ Hacc).
  rewrite applyMagneticForces_eq, sum_filtered_pulls.
  cbn [positionRef sections velocity set_velocity].
  rewrite (filter_none _ _ Hpull). cbn [map sumR fold_right].
  rewrite Rplus_0_r. unfold settle.
  destruct (Rltb 5 _); cbn [velocity set_velocity];
    destruct (Rltb (Rabs _) minVelocity); reflexivity.
Qed.

Lemma friction_factor_le1 dt :
  (0 <= dt)%R -> (0 < Rpower friction (dt / 16) <= 1)%R.
Proof.
  intros Hdt. unfold Rpower. split; [apply exp_pos|].
  assert (Hf : (0 < friction < 1)%R) by (unfold friction; lra).
  assert (Hln : (ln friction < 0)%R).
  { rewrite <- ln_1. apply ln_increasing; lra. }
  rewrite <- exp_0.
  assert (Hle : (dt / 16 * ln friction <= 0)%R) by nra.
  destruct Hle as [Hlt|Heq]; [left; apply exp_increasing; exact Hlt|].
  rewrite Heq. apply Rle_refl.
Qed.

Lemma friction_factor_tick : (0.5 < Rpower friction (1 / 16))%R.
Proof.
  set (q := Rpower friction (1 / 16)).
  assert (Hq : (0 < q)%R) by apply exp_pos.
  assert (Hq16 : (q ^ 16 = friction)%R).
  { rewrite <- Rpower_pow by exact Hq. unfold q. rewrite Rpower_mult.
    replace (1 / 16 * INR 16)%R with 1%R.
    - apply Rpower_1. unfold friction. lra.
    - rewrite INR_IZR_INZ. simpl Z.of_nat. lra. }
  destruct (Rlt_dec 0.5 q) as [H|H]; [exact H|].
  exfalso. assert (H5 : (q ^ 16 <= 0.5 ^ 16)%R) by (apply pow_incr; lra).
  rewrite Hq16 in H5. unfold friction in H5. simpl pow in H5. lra.
Qed.

Lemma settle_id x : (0.02 <= Rabs x <= 25)%R -> settle x = x.
Proof.
  intros [Hlo Hhi]. unfold settle, minVelocity, maxVelocity, clamp.
  rewrite Rltb_false by exact Hlo. revert Hhi. Rcases.
Qed.

Lemma settle_fast x : (5 < Rabs x)%R -> (5 <= Rabs (settle x))%R.
Proof.
  intros H. unfold settle, minVelocity, maxVelocity, clamp.
  rewrite Rltb_false by lra. revert H. Rcases.
Qed.

(** Where friction alone acts, [updateMomentum] is friction followed by the
    clamp. *)
Lemma updateMomentum_frictionOnly dt st :
  frictionOnly dt st ->
  updateMomentum dt st =
  set_velocity (settle (velocity st * Rpower friction (dt / 16))) st.
Proof.
  intros (Hs & Hacc & Hpull). unfold updateMomentum. rewrite Hs. cbv zeta.
  cbn [inputAccumulator set_velocity].
  rewrite (Rltb_false 0.001 _ Hacc).
  rewrite applyMagneticForces_eq, sum_filtered_pulls.
  cbn [positionRef sections velocity set_velocity].
  destruct Hpull as [Hfast|Hpull].
  - rewrite (Rltb_true _ _ Hfast). unfold settle. cbn [velocity set_velocity].
    destruct (Rltb (Rabs _) minVelocity); reflexivity.
  - rewrite (filter_none _ _ Hpull). cbn [map sumR fold_right].
    rewrite Rplus_0_r. unfold settle.
    destruct (Rltb 5 _); cbn [velocity set_velocity];
      destruct (Rltb (Rabs _) minVelocity); reflexivity.
Qed.

Lemma quiet_frictionOnly dt st : quiet st -> frictionOnly dt st.
Proof.
  intros (Hs & _ & Hacc & Hpull). split; [exact Hs|]. split; [exact Hacc|].
  right. exact Hpull.
Qed.

Lemma fast_no_autoSnap st :
  (5 <= Rabs (velocity st))%R -> autoSnapTarget st = None.
Proof.
  intros H. unfold autoSnapTarget. destruct (_ || _); [reflexivity|].
  cbv zeta. rewrite (Rltb_false (Rabs (velocity st)) 2) by lra.
  rewrite andb_false_r. reflexivity.
Qed.

Lemma friction_frame now st :
  isPhysicsPaused st = false ->
  frictionOnly (frameDelta now st) st ->
  (now - lastUpdateTime st = 0)%R \/ (1 <= now - lastUpdateTime st)%R ->
  let v := (velocity st * Rpower friction (frameDelta now st / 16))%R in
  let v' := velocity (updatePhysics now st) in
  (Rabs v' <= 0.8 * Rabs (velocity st))%R /\ (Rabs v' <= 25)%R /\
  (v' = 0%R \/ (0.02 <= Rabs v')%R) /\
  (v' = settle v \/ v' = 0%R) /\
  ((5 < Rabs v)%R -> v' = settle v).
Proof.
  intros Hp Hq Ht. cbv zeta. unfold updatePhysics. rewrite Hp. cbv zeta.
  change (if Reqb (now - lastUpdateTime st) 0 then 16%R
          else (now - lastUpdateTime st)%R) with (frameDelta now st).
  assert (Hdt : (1 <= frameDelta now st)%R).
  { unfold frameDelta, Reqb. cbv zeta. destruct (Req_dec_T _ _); lra. }
  set (dt := frameDelta now st) in *.
  rewrite (updateMomentum_frictionOnly dt (set_lastUpdateTime now st) Hq).
  cbn [velocity set_lastUpdateTime].
  destruct (settle_decays (velocity st) _ (friction_factor dt Hdt))
    as (H1 & H2 & H3 & _).
  pose proof (settle_fast (velocity st * Rpower friction (dt / 16))) as Hfast.
  set (w := settle _) in *.
  assert (Hfree : (5 <= Rabs w)%R ->
                  velocity (checkForAutoSnap
                              (updatePosition
                                 (set_velocity w (set_lastUpdateTime now st))))
                  = w).
  { intros Hw. unfold checkForAutoSnap. rewrite fast_no_autoSnap.
    - rewrite updatePosition_velocity. reflexivity.
    - rewrite updatePosition_velocity. exact Hw. }
  destruct (checkForAutoSnap_velocity
              (updatePosition (set_velocity w (set_lastUpdateTime now st))))
    as [E|E].
  - rewrite updatePosition_velocity in E. cbn [velocity set_velocity] in E.
    rewrite E. split; [exact H1|]. split; [exact H2|]. split; [exact H3|].
    split; [left; reflexivity | intros _; reflexivity].
  - split; [|split; [|split; [|split]]].
    + rewrite E, Rabs_R0. pose proof (Rabs_pos (velocity st)). lra.
    + rewrite E, Rabs_R0. lra.
    + left. exact E.
    + right. exact E.
    + intros Hv. apply Hfree, Hfast, Hv.
Qed.

Lemma speeds_cons now rest st :
  speeds st (now :: rest) = velocity st :: speeds (updatePhysics now st) rest.
Proof. reflexivity. Qed.

Lemma speeds_head st nows : nth 0 (speeds st nows) 0%R = velocity st.
Proof. reflexivity. Qed.

Lemma speeds_monotone nows : forall st,
  frictionFrames st nows ->
  forall k, (S k < List.length (speeds st nows))%nat ->
            (Rabs (nth (S k) (speeds st nows) 0) <= Rabs (nth k (speeds st nows) 0))%R.
Proof.
  induction nows as [|now rest IH]; intros st Hq k Hk.
  - cbn in Hk. lia.
  - destruct Hq as (Hp & Hquiet & Ht & Hrest). rewrite speeds_cons in *.
    destruct k as [|k].
    + cbn [nth]. rewrite speeds_head.
      destruct (friction_frame now st Hp Hquiet Ht) as (H1 & _).
      pose proof (Rabs_pos (velocity st)). lra.
    + cbn [nth]. apply IH; [exact Hrest|]. cbn [List.length] in Hk. lia.
Qed.

Lemma speeds_bound nows : forall st B,
  frictionFrames st nows ->
  (Rabs (velocity st) <= B)%R ->
  (velocity st = 0%R \/ (0.02 <= Rabs (velocity st))%R) ->
  forall k, (k < List.length (speeds st nows))%nat ->
            (Rabs (nth k (speeds st nows) 0) <= B * 0.8 ^ k)%R /\
            (nth k (speeds st nows) 0%R = 0%R \/
             (0.02 <= Rabs (nth k (speeds st nows) 0))%R).
Proof.
  induction nows as [|now rest IH]; intros st B Hq HB Hz k Hk.
  - destruct k as [|k]; [|cbn in Hk; lia]. cbn [nth speeds map states pow].
    split; [lra | exact Hz].
  - destruct Hq as (Hp & Hquiet & Ht & Hrest). rewrite speeds_cons in *.
    destruct k as [|k].
    + cbn [nth pow]. split; [lra | exact Hz].
    + cbn [nth].
      destruct (friction_frame now st Hp Hquiet Ht) as (H1 & _ & H3 & _).
      assert (Hk' : (k < List.length (speeds (updatePhysics now st) rest))%nat).
      { cbn [List.length] in Hk. lia. }
      destruct (IH (updatePhysics now st) (0.8 * B)%R Hrest ltac:(lra) H3 k Hk')
        as [Hb Hd].
      split; [|exact Hd]. cbn [pow]. lra.
Qed.

Lemma frictionFrames_decays nows : forall st,
  frictionFrames st nows -> decays st nows.
Proof.
  induction nows as [|now rest IH]; intros st Hq; [exact I|].
  destruct Hq as (Hp & Hquiet & Ht & Hrest).
  destruct (friction_frame now st Hp Hquiet Ht) as (_ & _ & _ & H4 & H5).
  split; [exact H4|]. split; [exact H5|]. apply IH, Hrest.
Qed.

(** Two steps of [updateMomentum] over [dt1] and [dt2] leave the velocity a
    single step over [dt1 + dt2] leaves, as long as friction alone acts and
    the clamp does not cut in. *)
Lemma friction_splits dt1 dt2 st :
  (0 <= dt1)%R -> (0 <= dt2)%R ->
  isSnapping st = false -> (Rabs (inputAccumulator st) <= 0.001)%R ->
  (Rabs (velocity st) <= 25)%R ->
  (5 < Rabs (velocity st * Rpower friction ((dt1 + dt2) / 16)))%R ->
  velocity (updateMomentum dt2 (updateMomentum dt1 st))
  = velocity (updateMomentum (dt1 + dt2) st) /\
  velocity (updateMomentum (dt1 + dt2) st)
  = (velocity st * Rpower friction ((dt1 + dt2) / 16))%R.
Proof.
  intros H1 H2 Hs Hacc Hv H5.
  assert (E12 : Rpower friction ((dt1 + dt2) / 16)
                = (Rpower friction (dt1 / 16) * Rpower friction (dt2 / 16))%R).
  { rewrite <- Rpower_plus. f_equal. lra. }
  pose proof (friction_factor_le1 dt1 H1) as F1.
  pose proof (friction_factor_le1 dt2 H2) as F2.
  set (f1 := Rpower friction (dt1 / 16)) in *.
  set (f2 := Rpower friction (dt2 / 16)) in *.
  set (f12 := Rpower friction ((dt1 + dt2) / 16)) in *.
  set (v := velocity st) in *.
  assert (A12 : (Rabs (v * f12) = Rabs v * f1 * f2)%R).
  { rewrite E12, !Rabs_mult, (Rabs_pos_eq f1), (Rabs_pos_eq f2) by lra. ring. }
  assert (A1 : (Rabs (v * f1) = Rabs v * f1)%R).
  { rewrite Rabs_mult, (Rabs_pos_eq f1) by lra. reflexivity. }
  pose proof (Rabs_pos v) as Hv0.
  assert (B1 : (5 < Rabs (v * f1) <= 25)%R).
  { rewrite A1. rewrite A12 in H5. split; nra. }
  assert (B12 : (5 < Rabs (v * f12) <= 25)%R).
  { split; [exact H5|]. rewrite A12. nra. }
  assert (Q1 : frictionOnly dt1 st).
  { split; [exact Hs|]. split; [exact Hacc|]. left. apply B1. }
  assert (Q12 : frictionOnly (dt1 + dt2) st).
  { split; [exact Hs|]. split; [exact Hacc|]. left. exact H5. }
  rewrite (updateMomentum_frictionOnly _ _ Q1),
    (updateMomentum_frictionOnly _ _ Q12).
  fold v f1 f12.
  rewrite (settle_id (v * f1)) by lra.
  rewrite (settle_id (v * f12)) by lra.
  assert (Q2 : frictionOnly dt2 (set_velocity (v * f1) st)).
  { split; [exact Hs|]. split; [exact Hacc|]. left.
    cbn [velocity set_velocity]. fold f2.
    replace (v * f1 * f2)%R with (v * f12)%R by (rewrite E12; ring).
    exact H5. }
  rewrite (updateMomentum_frictionOnly _ _ Q2).
  cbn [velocity set_velocity]. fold f2.
  replace (v * f1 * f2)%R with (v * f12)%R by (rewrite E12; ring).
  rewrite (settle_id (v * f12)) by lra.
  split; reflexivity.
Qed.

Lemma pow_08_tail n : (32 <= n)%nat -> (0.8 ^ n <= 0.8 ^ 32)%R.
Proof.
  intros Hn. replace n with (32 + (n - 32))%nat by lia.
  rewrite pow_add.
  assert (H1 : (0 <= 0.8 ^ (n - 32) <= 1)%R).
  { split; [apply pow_le; lra|].
    rewrite <- (pow1 (n - 32)). apply pow_incr. lra. }
  assert (H2 : (0 <= 0.8 ^ 32)%R) by (apply pow_le; lra).
  nra.
Qed.


(** ** Coasting beyond the last section *)

Lemma updateScene_isPhysicsPaused st :
  isPhysicsPaused (updateScene st) = isPhysicsPaused st.
Proof. unfold updateScene, playTransitionSound, emit. branches. Qed.

Lemma updateScene_lastUpdateTime st :
  lastUpdateTime (updateScene st) = lastUpdateTime st.
Proof. unfold updateScene, playTransitionSound, emit. branches. Qed.

Lemma far_section_distance s p q :
  In s generateSections -> (3050 <= p)%R -> (p <= q)%R ->
  (50 <= Rabs (IZR (position s) - q))%R.
Proof.
  intros Hin Hp Hq. apply SectionMapFacts.generateSections_range in Hin.
  assert (IZR (position s) <= 3000)%R by (apply IZR_le; lia).
  rewrite Rabs_left1 by lra. lra.
Qed.

Lemma coasting_quiet st : coasting st -> quiet st.
Proof.
  intros (Hsec & Hs & Hp & Hacc & Hpos & Hv).
  split; [exact Hs|]. split; [exact Hp|]. split; [exact Hacc|].
  intros s Hin. rewrite Hsec in Hin.
  pose proof (far_section_distance s _ _ Hin Hpos (Rle_refl _)) as Hd.
  unfold within, snapRadius. rewrite Rleb_false by lra. apply andb_false_r.
Qed.

Lemma coasting_no_target st : coasting st -> autoSnapTarget st = None.
Proof.
  intros (Hsec & Hs & Hp & Hacc & Hpos & Hv).
  unfold autoSnapTarget. destruct (_ || _); [reflexivity|]. cbv zeta.
  destruct (_ && _); [|reflexivity].
  assert (E : findBestSnapTarget st = None); [|rewrite E; reflexivity].
  unfold findBestSnapTarget. cbv zeta. rewrite Hsec.
  rewrite filter_none; [reflexivity|].
  intros s Hin. apply Rleb_false. unfold snapRadius.
  assert (Hq : (positionRef st
                <= positionRef st
                   + sign (velocity st) * Rmin (Rabs (velocity st) * 2) 20)%R).
  { assert (0 <= sign (velocity st))%R.
    { unfold sign, Rltb.
      destruct (Rlt_dec 0 (velocity st)); [lra|].
      destruct (Rlt_dec (velocity st) 0); lra. }
    assert (0 <= Rmin (Rabs (velocity st) * 2) 20)%R.
    { pose proof (Rabs_pos (velocity st)). unfold Rmin.
      destruct (Rle_dec _ _); lra. }
    nra. }
  pose proof (far_section_distance s _ _ Hin Hpos Hq). lra.
Qed.

Lemma coasting_frame now st :
  coasting st -> (1 <= now - lastUpdateTime st)%R ->
  coasting (updatePhysics now st) /\ lastUpdateTime (updatePhysics now st) = now.
Proof.
  intros Hc Ht. pose proof (coasting_quiet st Hc) as Hq.
  destruct Hc as (Hsec & Hs & Hp & Hacc & Hpos & Hv).
  unfold updatePhysics. rewrite Hp. cbv zeta.
  set (dt := if Reqb _ _ then _ else _).
  assert (Hdt : (1 <= dt)%R).
  { unfold dt, Reqb. destruct (Req_dec_T _ _); lra. }
  rewrite (updateMomentum_quiet dt (set_lastUpdateTime now st) Hq).
  cbn [velocity set_lastUpdateTime].
  destruct (settle_decays (velocity st) _ (friction_factor dt Hdt))
    as (_ & _ & _ & Hw).
  specialize (Hw Hv). set (w := settle _) in *. clearbody w.
  set (s1 := set_velocity w (set_lastUpdateTime now st)).
  assert (C2 : coasting (updatePosition s1)).
  { unfold coasting.
    rewrite updatePosition_sections, updatePosition_isSnapping,
      updatePosition_velocity, updatePosition_positionRef.
    unfold updatePosition. cbn [velocity positionRef s1 set_velocity
                                  set_lastUpdateTime].
    split; [exact Hsec|]. split; [exact Hs|].
    assert (Hmax : (3050 <= Rmax 0 (positionRef st + w))%R).
    { unfold Rmax. destruct (Rle_dec _ _); lra. }
    destruct (Rltb 0.01 (Rabs w)); cbv zeta.
    - destruct (negb _).
      + rewrite updateScene_isPhysicsPaused, updateScene_inputAccumulator.
        cbn. repeat split; assumption.
      + cbn. repeat split; assumption.
    - cbn. repeat split; assumption. }
  unfold checkForAutoSnap. rewrite (coasting_no_target _ C2).
  split; [exact C2|].
  unfold updatePosition. destruct (Rltb 0.01 _); [|reflexivity]. cbv zeta.
  destruct (negb _); [|reflexivity]. rewrite updateScene_lastUpdateTime.
  reflexivity.
Qed.

Lemma coasting_quietFrames nows : forall st,
  coasting st -> ticking (lastUpdateTime st) nows -> quietFrames st nows.
Proof.
  induction nows as [|now rest IH]; intros st Hc Ht; [exact I|].
  destruct Ht as [Ht Hrest].
  destruct (coasting_frame now st Hc Ht) as [Hc' Hl].
  split; [apply coasting_quiet; exact Hc|]. split; [right; exact Ht|].
  apply IH; [exact Hc'|]. rewrite Hl. exact Hrest.
Qed.

Lemma everySixteen_ticking n : forall t, ticking t (everySixteen t n).
Proof.
  induction n as [|n IH]; intros t; [exact I|]. split; [lra | apply IH].
Qed.

Lemma everySixteen_length n : forall t, List.length (everySixteen t n) = n.
Proof.
  induction n as [|n IH]; intros t; [reflexivity|]. cbn [everySixteen List.length].
  rewrite IH. reflexivity.
Qed.

Lemma speeds_length nows : forall st,
  List.length (speeds st nows) = S (List.length nows).
Proof.
  induction nows as [|now rest IH]; intros st; [reflexivity|].
  rewrite speeds_cons. cbn [List.length]. rewrite IH. reflexivity.
Qed.

Lemma coastingStart_coasting : coasting coastingStart.
Proof.
  unfold coasting.
  change (inputAccumulator coastingStart) with 0%R.
  change (positionRef coastingStart) with 4000%R.
  change (velocity coastingStart) with 20%R.
  split; [reflexivity|]. split; [reflexivity|]. split; [reflexivity|].
  rewrite Rabs_R0. split; [lra|]. split; lra.
Qed.

Lemma quietFrames_frictionFrames nows : forall st,
  quietFrames st nows -> frictionFrames st nows.
Proof.
  induction nows as [|now rest IH]; intros st Hq; [exact I|].
  destruct Hq as (Hquiet & Ht & Hrest).
  split; [apply Hquiet|]. split; [apply quiet_frictionOnly, Hquiet|].
  split; [exact Ht | apply IH, Hrest].
Qed.

(** On the section map, at the start of the path: a frame one millisecond
    after the last leaves a speed above 5, so the code skips the magnetic
    forces and friction alone acts. *)
Lemma fastStart_frictionFrames : frictionFrames fastStart [1%R].
Proof.
  assert (Ht : (1 <= 1 - lastUpdateTime fastStart)%R).
  { change (lastUpdateTime fastStart) with 0%R. lra. }
  assert (Hd : frameDelta 1 fastStart = 1%R).
  { unfold frameDelta. change (lastUpdateTime fastStart) with 0%R. cbv zeta.
    rewrite Reqb_false by lra. lra. }
  split; [reflexivity|]. split; [|split; [right; exact Ht | exact I]].
  split; [reflexivity|]. split.
  - change (inputAccumulator fastStart) with 0%R. rewrite Rabs_R0. lra.
  - left. rewrite Hd. change (velocity fastStart) with 25%R.
    pose proof friction_factor_tick as Hq.
    rewrite Rabs_pos_eq; lra.
Qed.


End ScrollerFacts.

(** ** The second scroller *)

Module SmoothFacts.
Import SmoothSectionScroller.

Lemma smooth_updateScene_positionRef st : positionRef (updateScene st) = positionRef st.
Proof.
  unfold updateScene, emit.
  destruct (pathRenderer (host st)); cbn;
    destruct (negb _ && _); reflexivity.
Qed.

Lemma smooth_updateScene_activeTweens st :
  activeTweens (updateScene st) = activeTweens st.
Proof.
  unfold updateScene, emit.
  destruct (pathRenderer (host st)); cbn;
    destruct (negb _ && _); reflexivity.
Qed.

Lemma killCurrentTween_positionRef st :
  positionRef (killCurrentTween st) = positionRef st.
Proof. unfold killCurrentTween, emit. destruct (currentTween st); reflexivity. Qed.

Lemma killCurrentTween_host st : host (killCurrentTween st) = host st.
Proof. unfold killCurrentTween, emit. destruct (currentTween st); reflexivity. Qed.

Lemma killCurrentTween_incl st tw :
  In tw (activeTweens (killCurrentTween st)) -> In tw (activeTweens st).
Proof.
  unfold killCurrentTween, emit. destruct (currentTween st); cbn; [|auto].
  intros H. apply (proj1 (filter_In _ _ _)) in H. tauto.
Qed.

(** The free movement of this scroller either writes
    [max(0, position + movement)] itself or starts a tween to it. *)
Lemma applyImmediateScroll_floor st :
  (0 <= positionRef st)%R ->
  (0 <= positionRef (applyImmediateScroll st))%R /\
  forall tw, In tw (activeTweens (applyImmediateScroll st)) ->
             In tw (activeTweens st) \/
             ((0 <= tweenFrom tw)%R /\ (0 <= tweenTo tw)%R).
Proof.
  intros Hp. unfold applyImmediateScroll.
  destruct (Rltb 0.1 _); [|split; [exact Hp | auto]]. cbv zeta.
  destruct (gsap (host (killCurrentTween st))).
  - unfold gsapTo, emit. cbn. rewrite killCurrentTween_positionRef.
    split; [exact Hp|]. intros tw H. apply in_app_or in H.
    destruct H as [H|[<-|[]]].
    + left. apply killCurrentTween_incl. exact H.
    + right. cbn. split; [exact Hp | apply Rmax_l].
  - cbn. rewrite smooth_updateScene_positionRef, smooth_updateScene_activeTweens. cbn.
    split; [apply Rmax_l|]. intros tw H. left.
    apply killCurrentTween_incl. exact H.
Qed.

(** One scene update of this scroller notifies the background whenever the
    agent index derived from the position differs from [currentAgentRef],
    and leaves [currentAgentRef] as it was. *)
Lemma smooth_updateScene_notifies st :
  let currentAgent := Zfloor (positionRef st / 60) in
  notifications (trace (updateScene st)) =
  notifications (trace st)
  ++ (if negb (currentAgent =? currentAgentRef st) && sceneManager (host st)
      then [currentAgent] else []) /\
  currentAgentRef (updateScene st) = currentAgentRef st.
Proof.
  cbv zeta. unfold updateScene, emit.
  destruct (pathRenderer (host st)); cbn;
    destruct (negb _ && _); cbn; rewrite ?notifications_app; cbn;
    rewrite ?app_nil_r, <- ?app_assoc; split; reflexivity.
Qed.

(** A wheel event on a scroller that is not snapping, on a page without the
    tween driver. *)
Lemma smooth_wheel_100 st acc pos :
  isSnapping st = false -> gsap (host st) = false ->
  sceneManager (host st) = true -> currentAgentRef st = 0 ->
  scrollAccumulator st = acc -> positionRef st = pos ->
  (0 <= acc)%R -> (60 <= pos + (acc + 12) * 0.3 < 120)%R ->
  let st' := handleWheel 100 false false st in
  isSnapping st' = false /\ host st' = host st /\ currentAgentRef st' = 0 /\
  scrollAccumulator st' = ((acc + 12) * 0.7)%R /\
  positionRef st' = (pos + (acc + 12) * 0.3)%R /\
  Zfloor (positionRef st' / 60) = 1 /\
  notifications (trace st') = notifications (trace st) ++ [1].
Proof.
  intros Hs Hg Hsm Hag Hacc Hpos Ha Hp. cbv zeta.
  unfold handleWheel. cbn [orb]. rewrite Hs. cbv zeta.
  unfold applyImmediateScroll.
  cbn [scrollAccumulator positionRef set_scrollAccumulator set_isScrolling
         set_scrollVelocity set_scrollDirection].
  rewrite Hacc, Hpos. unfold SCROLL_SENSITIVITY.
  assert (E1 : Rltb 0 100 = true) by (apply Rltb_true; lra).
  rewrite E1.
  assert (E2 : Rmin (Rabs 100) 100 = 100%R).
  { rewrite Rabs_pos_eq by lra. apply Rmin_left. lra. }
  rewrite E2.
  assert (E3 : (acc + 1 * 100 * 0.8 * 0.15)%R = (acc + 12)%R) by lra.
  rewrite E3.
  assert (E4 : Rltb 0.1 (Rabs (acc + 12)) = true).
  { apply Rltb_true. rewrite Rabs_pos_eq by lra. lra. }
  rewrite E4. cbv zeta.
  assert (E5 : Rmax 0 (pos + (acc + 12) * 0.3) = (pos + (acc + 12) * 0.3)%R).
  { apply Rmax_right. lra. }
  rewrite E5.
  set (st1 := killCurrentTween _).
  assert (Hh1 : host st1 = host st).
  { unfold st1. rewrite killCurrentTween_host. reflexivity. }
  rewrite Hh1, Hg.
  set (st2 := set_positionRef _ st1).
  assert (Hf : Zfloor ((pos + (acc + 12) * 0.3) / 60) = 1).
  { apply Zfloor_eq. lra. }
  destruct (smooth_updateScene_notifies st2) as [En Ea]. cbv zeta in En.
  assert (Hh2 : host (updateScene st2) = host st).
  { unfold updateScene, emit.
    destruct (pathRenderer (host st2)); cbn; destruct (negb _ && _); cbn;
      exact Hh1. }
  assert (Hs2 : isSnapping (updateScene st2) = false).
  { unfold updateScene, emit.
    destruct (pathRenderer (host st2)); cbn; destruct (negb _ && _); cbn;
      unfold st1, killCurrentTween, emit; destruct (currentTween _); exact Hs. }
  assert (Hag2 : currentAgentRef st2 = 0).
  { unfold st2, st1, killCurrentTween, emit. destruct (currentTween _);
      exact Hag. }
  assert (Htr : notifications (trace st2) = notifications (trace st)).
  { unfold st2, st1, killCurrentTween, emit.
    destruct (currentTween _); cbn; [|reflexivity].
    rewrite notifications_app. cbn. apply app_nil_r. }
  cbn [isSnapping host currentAgentRef scrollAccumulator positionRef trace
         set_scrollAccumulator].
  rewrite smooth_updateScene_positionRef.
  change (positionRef st2) with (pos + (acc + 12) * 0.3)%R in *.
  rewrite Hf in *. rewrite Hag2 in En. rewrite Htr in En.
  change (host st2) with (host st1) in En. rewrite Hh1, Hsm in En.
  cbn in En.
  split; [exact Hs2|]. split; [exact Hh2|]. split; [rewrite Ea; exact Hag2|].
  split.
  - f_equal. unfold updateScene, emit.
    destruct (pathRenderer (host st2)); cbn; destruct (negb _ && _); cbn;
      unfold st1, killCurrentTween, emit; destruct (currentTween _); cbn;
      reflexivity.
  - split; [reflexivity|]. split; [reflexivity | exact En].
Qed.

(** C9 fails on the second scroller: from position 59 on a page without the
    tween driver, a first wheel event moves the position to 62.6 and notifies
    the background of agent 1; a second one moves it to 68.72, where the
    derived agent index is still 1, and notifies the background of agent 1
    again. *)
Theorem smooth_background_renotified :
  let st0 := construct noGsap 59 0 in
  let st1 := handleWheel 100 false false st0 in
  let st2 := handleWheel 100 false false st1 in
  Zfloor (positionRef st1 / 60) = 1 /\
  Zfloor (positionRef st2 / 60) = 1 /\
  notifications (trace st1) = [1] /\
  notifications (trace st2) = [1; 1].
Proof.
  cbv zeta.
  assert (R1 : (60 <= 59 + (0 + 12) * 0.3 < 120)%R) by lra.
  destruct (smooth_wheel_100 (construct noGsap 59 0) 0 59
              eq_refl eq_refl eq_refl eq_refl eq_refl eq_refl (Rle_refl 0) R1)
    as (Hs & Hh & Hag & Hacc & Hpos & Hf & Hn).
  set (st1 := handleWheel 100 false false (construct noGsap 59 0)) in *.
  clearbody st1.
  assert (R0 : (0 <= (0 + 12) * 0.7)%R) by lra.
  assert (R2 : (60 <= 59 + (0 + 12) * 0.3 + ((0 + 12) * 0.7 + 12) * 0.3 < 120)%R)
    by lra.
  assert (Hg1 : gsap (host st1) = false) by (rewrite Hh; reflexivity).
  assert (Hsm1 : sceneManager (host st1) = true) by (rewrite Hh; reflexivity).
  destruct (smooth_wheel_100 st1 ((0 + 12) * 0.7)%R (59 + (0 + 12) * 0.3)%R
              Hs Hg1 Hsm1 Hag Hacc Hpos R0 R2)
    as (_ & _ & _ & _ & _ & Hf2 & Hn2).
  split; [exact Hf|]. split; [exact Hf2|]. split; [exact Hn|].
  rewrite Hn2, Hn. reflexivity.
Qed.

(** The section map of this scroller: no section at position 0, no micro
    sections, horizon 2000; otherwise as the one of the momentum scroller. *)
Lemma smooth_sectionAt_position pos s : sectionAt pos = Some s -> position s = pos.
Proof.
  unfold sectionAt.
  repeat match goal with
         | |- (if ?c then _ else _) = _ -> _ => destruct c
         end; intros [= <-]; reflexivity.
Qed.

Lemma smooth_sectionAt_spec pos :
  0 <= pos ->
  match sectionAt pos with
  | Some s =>
      0 < pos /\ position s = pos /\ type s <> micro /\
      (spacing (type s) | pos) /\
      forall t, t <> micro -> (spacing t | pos) ->
                typePriority t <= typePriority (type s)
  | None => pos = 0 \/ forall t, t <> micro -> ~ (spacing t | pos)
  end.
Proof.
  intros Hpos. unfold sectionAt, AGENT_SPACING, MILESTONE_SPACING,
    SHAPE_SPACING, DECORATIVE_SPACING.
  destruct (Z.ltb_spec 0 pos) as [Hp|Hp];
    [|rewrite !andb_false_r; cbn; left; lia].
  rewrite !andb_true_r.
  destruct (jsmod pos 60 =? 0) eqn:E60; cbn [negb andb];
    [|destruct (jsmod pos 40 =? 0) eqn:E40; cbn [negb andb];
      [|destruct (jsmod pos 15 =? 0) eqn:E15; cbn [negb andb];
        [|destruct (jsmod pos 8 =? 0) eqn:E8; cbn [negb andb]]]];
    SectionMapFacts.divisors; cbn.
  1-4: repeat split; try assumption; try discriminate;
    intros [] Hm; cbn; intros; try lia; try tauto; congruence.
  right. intros [] Hm; cbn; try assumption; congruence.
Qed.

Lemma smooth_generateSections_map :
  StronglySorted Z.lt (map position generateSections) /\
  (forall pos,
      (exists s, In s generateSections /\ position s = pos) <->
      (1 <= pos <= 2000 /\ exists t, t <> micro /\ (spacing t | pos))) /\
  (forall s, In s generateSections ->
      type s <> micro /\ (spacing (type s) | position s) /\
      forall t, t <> micro -> (spacing t | position s) ->
                typePriority t <= typePriority (type s)).
Proof.
  assert (HIn : forall s, In s generateSections <->
                          exists pos, 0 <= pos <= 2000 /\ sectionAt pos = Some s).
  { intros s. unfold generateSections, generateSectionsUpTo.
    rewrite (sorted_loop_In position sectionAt smooth_sectionAt_position).
    reflexivity. }
  split; [|split].
  - unfold generateSections, generateSectionsUpTo.
    exact (sorted_loop_sorted position sectionAt smooth_sectionAt_position
             horizon).
  - intros pos. split.
    + intros (s & Hin & Hp). apply (proj1 (HIn s)) in Hin.
      destruct Hin as (q & Hr & Hs).
      pose proof (smooth_sectionAt_spec q (proj1 Hr)) as Hq. rewrite Hs in Hq.
      destruct Hq as (H0 & Hpq & Hm & Hd & _). rewrite Hp in Hpq. subst q.
      split; [lia|]. exists (type s). split; assumption.
    + intros (Hr & t & Hm & Hd).
      pose proof (smooth_sectionAt_spec pos ltac:(lia)) as Hq.
      destruct (sectionAt pos) as [s|] eqn:Hs.
      * exists s. split; [|tauto]. apply (proj2 (HIn s)).
        exists pos. split; [lia | exact Hs].
      * exfalso. destruct Hq as [Hq|Hq]; [lia | exact (Hq t Hm Hd)].
  - intros s Hin. apply (proj1 (HIn s)) in Hin.
    destruct Hin as (q & Hr & Hs).
    pose proof (smooth_sectionAt_spec q (proj1 Hr)) as Hq. rewrite Hs in Hq.
    destruct Hq as (_ & Hpq & Hm & Hd & Hmax). rewrite Hpq. tauto.
Qed.

End SmoothFacts.

(** * The claims that involve more than one component *)

Module EngineFacts.

(** C1: whatever the inputs, the position of the momentum scroller is never
    negative after any of them, provided it starts non-negative; the free-mode
    step writes [max(0, position + velocity)] when it moves at all; and the
    free movement of the second scroller keeps the position non-negative as
    well. *)
Theorem position_never_negative h p0 a0 inputs :
  (0 <= p0)%R ->
  Forall (fun st => (0 <= EnhancedMomentumScroller.positionRef st)%R)
    (EnhancedMomentumScroller.states
       (EnhancedMomentumScroller.construct h p0 a0) inputs) /\
  (forall st,
      EnhancedMomentumScroller.positionRef
        (EnhancedMomentumScroller.updatePosition st) =
      if Rltb 0.01 (Rabs (EnhancedMomentumScroller.velocity st))
      then Rmax 0 (EnhancedMomentumScroller.positionRef st
                   + EnhancedMomentumScroller.velocity st)
      else EnhancedMomentumScroller.positionRef st) /\
  (forall st,
      (0 <= SmoothSectionScroller.positionRef st)%R ->
      (0 <= SmoothSectionScroller.positionRef
              (SmoothSectionScroller.applyImmediateScroll st))%R).
Proof.
  intros Hp. split; [|split].
  - eapply Forall_impl;
      [|apply ScrollerFacts.states_wellFormed,
          ScrollerFacts.construct_wellFormed; exact Hp].
    intros st H. apply H.
  - apply ScrollerFacts.updatePosition_positionRef.
  - intros st H. apply SmoothFacts.applyImmediateScroll_floor. exact H.
Qed.

Lemma position_never_negative_witness :
  (0 <= 0)%R /\
  Forall (fun st => (0 <= EnhancedMomentumScroller.positionRef st)%R)
    (EnhancedMomentumScroller.states start
       [EnhancedMomentumScroller.Wheel (-120) false false;
        EnhancedMomentumScroller.AnimationFrame 16;
        EnhancedMomentumScroller.AnimationFrame 32]).
Proof.
  split; [apply Rle_refl|].
  exact (proj1 (position_never_negative allThere 0 0
                  [EnhancedMomentumScroller.Wheel (-120) false false;
                   EnhancedMomentumScroller.AnimationFrame 16;
                   EnhancedMomentumScroller.AnimationFrame 32]
                  (Rle_refl 0))).
Defined.

End EngineFacts.

(** * Properties beyond the claims *)

(** ** The momentum scroller *)

Module ScrollerExtras.
Import EnhancedMomentumScroller ScrollerFacts.

Lemma noRepeat_snoc l x d :
  l <> [] -> noRepeat l -> last l d <> x -> noRepeat (l ++ [x]).
Proof.
  induction l as [|a l IH]; intros Hne Hl Hx; [congruence|].
  destruct l as [|b l].
  - cbn in *. split; [exact Hx | exact I].
  - change ((a :: b :: l) ++ [x]) with (a :: (b :: l) ++ [x]).
    destruct Hl as [Hab Hl]. cbn [noRepeat app]. split; [exact Hab|].
    apply IH; [discriminate | exact Hl | exact Hx].
Qed.

Lemma notifierInv_same a0 st st' :
  host st' = host st -> notifications (trace st') = notifications (trace st) ->
  currentAgentRef st' = currentAgentRef st ->
  notifierInv a0 st -> notifierInv a0 st'.
Proof. unfold notifierInv. intros -> -> ->. tauto. Qed.

Lemma updateScene_notifierInv a0 st :
  notifierInv a0 st -> notifierInv a0 (updateScene st).
Proof.
  intros (Hsm & Hn & Hl). unfold notifierInv.
  destruct (updateScene_notifies st) as [En Er]. cbv zeta in En, Er.
  rewrite updateScene_host, En, Er, Hsm, andb_true_r.
  split; [reflexivity|].
  destruct (Z.eqb_spec (Zfloor (positionRef st / 60)) (currentAgentRef st))
    as [E|E]; cbn [negb].
  - rewrite app_nil_r. split; assumption.
  - split; [|apply last_last].
    change (noRepeat ((a0 :: notifications (trace st))
                      ++ [Zfloor (positionRef st / 60)])).
    apply (noRepeat_snoc _ _ a0); [discriminate | exact Hn|].
    change (last (a0 :: notifications (trace st)) a0)
      with (last (notifications (trace st)) a0) || idtac.
    assert (Hlast : last (a0 :: notifications (trace st)) a0
                    = last (notifications (trace st)) a0).
    { destruct (notifications (trace st)); reflexivity. }
    rewrite Hlast, Hl. intros Hc. apply E. symmetry. exact Hc.
Qed.

Ltac quiet_trace :=
  rewrite ?notifications_app; cbn [notifications app]; rewrite ?app_nil_r.

Lemma killAllTweens_view st :
  host (killAllTweens st) = host st /\
  notifications (trace (killAllTweens st)) = notifications (trace st) /\
  currentAgentRef (killAllTweens st) = currentAgentRef st.
Proof.
  unfold killAllTweens, kill, emit.
  destruct (gsap (host st)); [|tauto].
  destruct (currentTween st); [|tauto].
  cbn. quiet_trace. tauto.
Qed.

Lemma snapToSection_notifierInv a0 t st :
  notifierInv a0 st -> notifierInv a0 (snapToSection t st).
Proof.
  intros H. destruct (isSnapping st) eqn:Hs.
  - rewrite snapToSection_snapping by exact Hs. exact H.
  - destruct (gsap (host st)) eqn:Hg.
    + revert H. apply notifierInv_same.
      * destruct (snapToSection_tween t st Hs Hg)
          as (_ & _ & _ & _ & _ & Hh & _). exact Hh.
      * clear a0. expose st. cbn in Hs, Hg. subst.
        unfold snapToSection, killAllTweens, kill, gsapTo,
          playTransitionSound, emit.
        cbn. destruct tween0; cbn; destruct am0; cbn; destruct (type t); cbn;
          quiet_trace; reflexivity.
      * clear a0. expose st. cbn in Hs, Hg. subst.
        unfold snapToSection, killAllTweens, kill, gsapTo,
          playTransitionSound, emit.
        cbn. destruct tween0; cbn; destruct am0; cbn; destruct (type t); cbn;
          reflexivity.
    + rewrite snapToSection_instant by assumption.
      apply (notifierInv_same a0 (updateScene
               (set_positionRef (IZR (position t))
                  (set_inputAccumulator 0%R
                     (set_velocity 0%R
                        (set_isScrolling false (set_isSnapping true st)))))));
        try reflexivity.
      apply updateScene_notifierInv. exact H.
Qed.

Lemma checkForAutoSnap_notifierInv a0 st :
  notifierInv a0 st -> notifierInv a0 (checkForAutoSnap st).
Proof.
  intros H. unfold checkForAutoSnap.
  destruct (autoSnapTarget st); [apply snapToSection_notifierInv|]; exact H.
Qed.

Lemma updateMomentum_view dt st :
  host (updateMomentum dt st) = host st /\
  notifications (trace (updateMomentum dt st)) = notifications (trace st) /\
  currentAgentRef (updateMomentum dt st) = currentAgentRef st.
Proof.
  unfold updateMomentum. destruct (isSnapping st); [tauto|]. cbv zeta.
  rewrite applyMagneticForces_eq.
  repeat match goal with
         | |- context [if ?c then _ else _] => destruct c
         end; cbn; tauto.
Qed.

Lemma updatePosition_notifierInv a0 st :
  notifierInv a0 st -> notifierInv a0 (updatePosition st).
Proof.
  intros H. unfold updatePosition. destruct (Rltb 0.01 _); [|exact H].
  cbv zeta. destruct (negb _); [|exact H].
  apply updateScene_notifierInv. exact H.
Qed.

Lemma step_notifierInv a0 st i :
  notifierInv a0 st -> notifierInv a0 (step st i).
Proof.
  intros H. destruct i; cbn [step].
  - unfold handleWheel. destruct (_ || _); exact H.
  - unfold handleKeyDown. destruct (isSnapping st); [exact H|].
    destruct (keyDownTarget key shiftKey st);
      [apply snapToSection_notifierInv|]; exact H.
  - unfold handleTouchStart. destruct touches as [|y [|? ?]]; try exact H.
    set (st1 := set_touchState _ st).
    destruct (killAllTweens_view st1) as (E1 & E2 & E3).
    revert H. apply notifierInv_same; assumption.
  - unfold handleTouchMove. cbv zeta. destruct touches as [|y [|? ?]]; try exact H.
    destruct (negb _); [exact H|]. destruct (Rltb 1 _); exact H.
  - unfold handleTouchEnd. cbv zeta. destruct (negb _); exact H.
  - unfold handleClick. destruct (isSnapping st); [exact H|].
    destruct (clickTarget clientX clientY innerWidth st);
      [apply snapToSection_notifierInv|]; exact H.
  - exact H.
  - unfold inputEndAutoSnap. destruct (_ && _); [|exact H].
    apply checkForAutoSnap_notifierInv. exact H.
  - unfold updatePhysics. destruct (isPhysicsPaused st); [exact H|]. cbv zeta.
    apply checkForAutoSnap_notifierInv, updatePosition_notifierInv.
    set (dt := if Reqb _ _ then _ else _).
    destruct (updateMomentum_view dt (set_lastUpdateTime now st))
      as (E1 & E2 & E3).
    revert H. apply notifierInv_same; assumption.
  - unfold tweenUpdate. destruct (runningTween tween st); [|exact H].
    cbv zeta. apply updateScene_notifierInv. exact H.
  - unfold tweenComplete. destruct (runningTween tween st) as [tw|]; [|exact H].
    cbv zeta. unfold onComplete. cbv zeta.
    set (st1 := set_positionRef _ _).
    assert (W : notifierInv a0 (updateScene st1))
      by (apply updateScene_notifierInv; exact H).
    destruct (animationManager _).
    + revert W. apply notifierInv_same; try reflexivity.
      unfold emit. cbn. quiet_trace. reflexivity.
    + exact W.
  - exact H.
  - exact H.
Qed.

Lemma run_notifierInv a0 inputs : forall st,
  notifierInv a0 st -> notifierInv a0 (run st inputs).
Proof.
  unfold run. induction inputs as [|i rest IH]; intros st H; [exact H|].
  cbn [fold_left]. apply IH, step_notifierInv, H.
Qed.

(** *** The indices told follow the position *)

Lemma drawn_app tr tr' : drawn (tr ++ tr') = drawn tr ++ drawn tr'.
Proof.
  induction tr as [|e tr IH]; [reflexivity|].
  destruct e; simpl; rewrite IH; reflexivity.
Qed.

Lemma last_cons {A} (y : A) r d : last (y :: r) d = last r y.
Proof.
  revert y d. induction r as [|z r IH]; intros y d; [reflexivity|].
  change (last (y :: z :: r) d) with (last (z :: r) d).
  rewrite (IH z d), (IH z y). reflexivity.
Qed.

Lemma changes_snoc l : forall prev x,
  changes prev (l ++ [x]) =
  changes prev l ++ (if x =? last l prev then [] else [x]).
Proof.
  induction l as [|y r IH]; intros prev x; [cbn; destruct (x =? prev); reflexivity|].
  cbn [app changes]. rewrite last_cons.
  destruct (Z.eqb_spec y prev) as [->|Hne].
  - apply IH.
  - rewrite IH. reflexivity.
Qed.

Lemma last_changes l : forall prev, last (changes prev l) prev = last l prev.
Proof.
  induction l as [|y r IH]; intros prev; [reflexivity|].
  cbn [changes]. rewrite (last_cons y r prev).
  destruct (Z.eqb_spec y prev) as [->|Hne]; [apply IH|].
  rewrite last_cons. apply IH.
Qed.

Ltac quiet_drawn :=
  rewrite ?drawn_app; cbn [drawn app]; rewrite ?app_nil_r.

Lemma updateScene_drawn st :
  drawn (trace (updateScene st)) =
  drawn (trace st) ++ (if pathRenderer (host st) then [positionRef st] else []).
Proof.
  expose st. unfold updateScene, playTransitionSound, emit. cbn.
  destruct pr0; cbn;
    destruct (negb (Zfloor (pos0 / 60) =? agent0) && sm0); cbn;
    destruct played0 as [last|]; cbn;
    try destruct (last =? Zfloor (pos0 / 60)); cbn;
    destruct (0 <? Zfloor (pos0 / 60)); cbn;
    rewrite ?drawn_app; cbn; rewrite ?app_nil_r, <- ?app_assoc;
    reflexivity.
Qed.

Lemma sceneSync_same h a0 p0 st st' :
  host st' = host st -> notifications (trace st') = notifications (trace st) ->
  drawn (trace st') = drawn (trace st) ->
  currentAgentRef st' = currentAgentRef st ->
  positionRef st' = positionRef st ->
  sceneSync h a0 p0 st -> sceneSync h a0 p0 st'.
Proof. unfold sceneSync. intros -> -> -> -> -> H. exact H. Qed.

(** Writing the position and updating the scene keeps the background in
    step. *)
Lemma updateScene_sceneSync h a0 p0 x st :
  sceneSync h a0 p0 st ->
  sceneSync h a0 p0 (updateScene (set_positionRef x st)).
Proof.
  intros (Hh & Hsm & Hlast & _ & Hpr).
  destruct (updateScene_notifies (set_positionRef x st)) as [En Er].
  pose proof (updateScene_drawn (set_positionRef x st)) as Ed.
  cbv zeta in En, Er.
  cbn [host trace currentAgentRef positionRef set_positionRef] in En, Er, Ed.
  unfold sceneSync.
  rewrite updateScene_host, En, Er, Ed, updateScene_positionRef.
  cbn [host positionRef set_positionRef].
  rewrite Hh in *. rewrite Hsm in *. rewrite andb_true_r. unfold agentOf at 1.
  split; [reflexivity|]. split; [reflexivity|].
  destruct (Z.eqb_spec (Zfloor (x / 60)) (currentAgentRef st)) as [E|E];
    cbn [negb].
  - rewrite app_nil_r. split; [exact Hlast|].
    split; [right; symmetry; exact E|].
    intros Hp. rewrite Hp. destruct (Hpr Hp) as [Hn _].
    rewrite map_app. cbn [map]. rewrite changes_snoc.
    split; [|symmetry; apply last_last].
    assert (El : last (map agentOf (drawn (trace st))) a0 = agentOf x).
    { rewrite <- last_changes, <- Hn, <- Hlast. symmetry. exact E. }
    rewrite El, Z.eqb_refl, app_nil_r. exact Hn.
  - split; [symmetry; apply last_last|].
    split; [right; reflexivity|].
    intros Hp. rewrite Hp. destruct (Hpr Hp) as [Hn _].
    rewrite map_app. cbn [map]. rewrite changes_snoc.
    split; [|symmetry; apply last_last].
    assert (El : last (map agentOf (drawn (trace st))) a0 = currentAgentRef st).
    { rewrite <- last_changes, <- Hn, <- Hlast. reflexivity. }
    rewrite El. unfold agentOf at 2.
    rewrite (proj2 (Z.eqb_neq _ _) E). rewrite Hn at 1. reflexivity.
Qed.

Lemma killAllTweens_scene st :
  host (killAllTweens st) = host st /\
  notifications (trace (killAllTweens st)) = notifications (trace st) /\
  drawn (trace (killAllTweens st)) = drawn (trace st) /\
  currentAgentRef (killAllTweens st) = currentAgentRef st /\
  positionRef (killAllTweens st) = positionRef st.
Proof.
  unfold killAllTweens, kill, emit.
  destruct (gsap (host st)); [|repeat split].
  destruct (currentTween st); [|repeat split].
  cbn. quiet_trace. quiet_drawn. repeat split.
Qed.

Lemma snapToSection_tween_scene t st :
  isSnapping st = false -> gsap (host st) = true ->
  host (snapToSection t st) = host st /\
  notifications (trace (snapToSection t st)) = notifications (trace st) /\
  drawn (trace (snapToSection t st)) = drawn (trace st) /\
  currentAgentRef (snapToSection t st) = currentAgentRef st /\
  positionRef (snapToSection t st) = positionRef st.
Proof.
  intros Hs Hg. expose st. cbn in Hs, Hg. subst.
  unfold snapToSection, killAllTweens, kill, gsapTo, playTransitionSound, emit.
  cbn. destruct tween0; cbn; destruct am0; cbn; destruct (type t); cbn;
    quiet_trace; quiet_drawn; repeat split.
Qed.

Lemma snapToSection_sceneSync h a0 p0 t st :
  sceneSync h a0 p0 st -> sceneSync h a0 p0 (snapToSection t st).
Proof.
  intros H. destruct (isSnapping st) eqn:Hs.
  - rewrite snapToSection_snapping by exact Hs. exact H.
  - destruct (gsap (host st)) eqn:Hg.
    + destruct (snapToSection_tween_scene t st Hs Hg)
        as (E1 & E2 & E3 & E4 & E5).
      revert H. apply sceneSync_same; assumption.
    + rewrite snapToSection_instant by assumption.
      set (st1 := set_inputAccumulator 0%R
                    (set_velocity 0%R
                       (set_isScrolling false (set_isSnapping true st)))).
      apply (sceneSync_same h a0 p0
               (updateScene (set_positionRef (IZR (position t)) st1)));
        try reflexivity.
      apply updateScene_sceneSync. exact H.
Qed.

Lemma checkForAutoSnap_sceneSync h a0 p0 st :
  sceneSync h a0 p0 st -> sceneSync h a0 p0 (checkForAutoSnap st).
Proof.
  intros H. unfold checkForAutoSnap.
  destruct (autoSnapTarget st); [apply snapToSection_sceneSync|]; exact H.
Qed.

Lemma updateMomentum_scene dt st :
  host (updateMomentum dt st) = host st /\
  trace (updateMomentum dt st) = trace st /\
  currentAgentRef (updateMomentum dt st) = currentAgentRef st /\
  positionRef (updateMomentum dt st) = positionRef st.
Proof.
  unfold updateMomentum. destruct (isSnapping st); [repeat split|]. cbv zeta.
  rewrite applyMagneticForces_eq.
  repeat match goal with
         | |- context [if ?c then _ else _] => destruct c
         end; repeat split.
Qed.

Lemma updatePosition_sceneSync h a0 p0 st :
  sceneSync h a0 p0 st -> sceneSync h a0 p0 (updatePosition st).
Proof.
  intros H. unfold updatePosition. destruct (Rltb 0.01 _); [|exact H].
  cbv zeta. destruct (negb _); [|exact H].
  apply updateScene_sceneSync. exact H.
Qed.

Lemma step_sceneSync h a0 p0 st i :
  sceneSync h a0 p0 st -> sceneSync h a0 p0 (step st i).
Proof.
  intros H. destruct i; cbn [step].
  - unfold handleWheel. destruct (_ || _); exact H.
  - unfold handleKeyDown. destruct (isSnapping st); [exact H|].
    destruct (keyDownTarget key shiftKey st);
      [apply snapToSection_sceneSync|]; exact H.
  - unfold handleTouchStart. destruct touches as [|y [|? ?]]; try exact H.
    set (st1 := set_touchState _ st).
    destruct (killAllTweens_scene st1) as (E1 & E2 & E3 & E4 & E5).
    revert H. apply sceneSync_same; assumption.
  - unfold handleTouchMove. cbv zeta. destruct touches as [|y [|? ?]]; try exact H.
    destruct (negb _); [exact H|]. destruct (Rltb 1 _); exact H.
  - unfold handleTouchEnd. cbv zeta. destruct (negb _); exact H.
  - unfold handleClick. destruct (isSnapping st); [exact H|].
    destruct (clickTarget clientX clientY innerWidth st);
      [apply snapToSection_sceneSync|]; exact H.
  - exact H.
  - unfold inputEndAutoSnap. destruct (_ && _); [|exact H].
    apply checkForAutoSnap_sceneSync. exact H.
  - unfold updatePhysics. destruct (isPhysicsPaused st); [exact H|]. cbv zeta.
    apply checkForAutoSnap_sceneSync, updatePosition_sceneSync.
    set (dt := if Reqb _ _ then _ else _).
    destruct (updateMomentum_scene dt (set_lastUpdateTime now st))
      as (E1 & E2 & E3 & E4).
    revert H. apply sceneSync_same; try assumption; rewrite E2; reflexivity.
  - unfold tweenUpdate. destruct (runningTween tween st); [|exact H].
    cbv zeta. apply updateScene_sceneSync. exact H.
  - unfold tweenComplete. destruct (runningTween tween st) as [tw|]; [|exact H].
    cbv zeta. unfold onComplete. cbv zeta.
    assert (W : sceneSync h a0 p0
                  (updateScene (set_positionRef (tweenTo tw) st)))
      by (apply updateScene_sceneSync; exact H).
    destruct (animationManager _).
    + revert W. apply sceneSync_same; try reflexivity;
        unfold emit; cbn [trace set_trace]; [quiet_trace | quiet_drawn];
        reflexivity.
    + exact W.
  - exact H.
  - exact H.
Qed.

Lemma run_sceneSync h a0 p0 inputs : forall st,
  sceneSync h a0 p0 st -> sceneSync h a0 p0 (run st inputs).
Proof.
  unfold run. induction inputs as [|i rest IH]; intros st H; [exact H|].
  cbn [fold_left]. apply IH, step_sceneSync, H.
Qed.

Lemma construct_sceneSync h p0 a0 :
  sceneManager h = true -> sceneSync h a0 p0 (construct h p0 a0).
Proof.
  intros Hsm. split; [reflexivity|]. split; [exact Hsm|].
  split; [reflexivity|]. split; [left; split; reflexivity|].
  intros _. split; reflexivity.
Qed.

(** X1: on a page with a scene manager, over every run of the momentum
    scroller the background is told exactly once per change of the agent
    index.  The indices handed to [updateBackgroundForAgent], preceded by the
    index the page started with, never repeat a value twice in a row, and the
    last one is what [currentAgentRef] holds.  That index is the agent index
    [floor(position / 60)] of the current position, unless nothing was told
    and the position is still the initial one.  And where the path renderer
    is there, so that the trace shows every scene update, the indices told
    are exactly the changes of [floor(position / 60)] along the positions the
    path was rebuilt at, the last of which is the current position: no
    position is written without a scene update. *)
Theorem background_told_once_per_change h p0 a0 inputs :
  sceneManager h = true ->
  noRepeat (a0 :: notifications (trace (run (construct h p0 a0) inputs))) /\
  last (notifications (trace (run (construct h p0 a0) inputs))) a0
  = currentAgentRef (run (construct h p0 a0) inputs) /\
  ((positionRef (run (construct h p0 a0) inputs) = p0 /\
    notifications (trace (run (construct h p0 a0) inputs)) = []) \/
   currentAgentRef (run (construct h p0 a0) inputs)
   = agentOf (positionRef (run (construct h p0 a0) inputs))) /\
  (pathRenderer h = true ->
   notifications (trace (run (construct h p0 a0) inputs))
   = changes a0
       (map agentOf (drawn (trace (run (construct h p0 a0) inputs)))) /\
   positionRef (run (construct h p0 a0) inputs)
   = last (drawn (trace (run (construct h p0 a0) inputs))) p0).
Proof.
  intros Hsm.
  assert (H : notifierInv a0 (run (construct h p0 a0) inputs)).
  { apply run_notifierInv. split; [exact Hsm|]. split; [exact I | reflexivity]. }
  assert (S : sceneSync h a0 p0 (run (construct h p0 a0) inputs)).
  { apply run_sceneSync, construct_sceneSync, Hsm. }
  destruct H as (_ & H1 & H2). destruct S as (_ & _ & _ & S3 & S4).
  split; [exact H1|]. split; [exact H2|]. split; [exact S3 | exact S4].
Qed.

Lemma background_told_once_per_change_witness :
  sceneManager allThere = true /\
  noRepeat
    (0 :: notifications
            (trace (run start [Wheel 120 false false; AnimationFrame 16;
                               KeyDown "ArrowRight" false; TweenComplete 0]))) /\
  (pathRenderer allThere = true ->
   notifications
     (trace (run start [Wheel 120 false false; AnimationFrame 16;
                        KeyDown "ArrowRight" false; TweenComplete 0]))
   = changes 0
       (map agentOf
          (drawn
             (trace (run start [Wheel 120 false false; AnimationFrame 16;
                                KeyDown "ArrowRight" false;
                                TweenComplete 0]))))).
Proof.
  split; [reflexivity|].
  destruct (background_told_once_per_change allThere 0 0
              [Wheel 120 false false; AnimationFrame 16;
               KeyDown "ArrowRight" false; TweenComplete 0] eq_refl)
    as (H1 & _ & _ & H4).
  split; [exact H1|]. intros Hp. exact (proj1 (H4 Hp)).
Defined.

(** ** A touch that starts while a snap is in flight *)

Lemma killAllTweens_clears st :
  singleTween st -> activeTweens (killAllTweens st) = [].
Proof.
  intros [H | (Hg & tw & Hc & Ha)]; unfold killAllTweens, kill, emit.
  - destruct (gsap (host st)); [|exact H].
    destruct (currentTween st); [|exact H]. cbn. rewrite H. reflexivity.
  - rewrite Hg, Hc. cbn. rewrite Ha. cbn. rewrite Nat.eqb_refl. reflexivity.
Qed.

Lemma handleTouchStart_locks y now st :
  singleTween st -> isSnapping st = true ->
  snapLocked (handleTouchStart [y] now st).
Proof.
  intros Hsingle Hs. unfold handleTouchStart, snapLocked.
  cbn [isSnapping activeTweens set_velocity].
  rewrite killAllTweens_isSnapping. split; [exact Hs|].
  apply killAllTweens_clears.
  revert Hsingle. apply singleTween_ext; reflexivity.
Qed.

Lemma step_snapLocked st i : snapLocked st -> snapLocked (step st i).
Proof.
  intros [Hs Ha]. destruct i; cbn [step].
  - unfold handleWheel. destruct (_ || _); split; assumption.
  - unfold handleKeyDown. rewrite Hs. split; assumption.
  - unfold handleTouchStart. destruct touches as [|y [|? ?]];
      try (split; assumption).
    apply handleTouchStart_locks; [left; exact Ha | exact Hs].
  - unfold handleTouchMove. cbv zeta.
    destruct touches as [|y [|? ?]]; try (split; assumption).
    destruct (negb _); [split; assumption|].
    destruct (Rltb 1 _); split; assumption.
  - unfold handleTouchEnd. cbv zeta. destruct (negb _); split; assumption.
  - unfold handleClick. rewrite Hs. split; assumption.
  - split; assumption.
  - unfold inputEndAutoSnap. rewrite Hs, andb_false_r. split; assumption.
  - unfold updatePhysics. destruct (isPhysicsPaused st); [split; assumption|].
    cbv zeta. rewrite updateMomentum_snapping by exact Hs.
    rewrite checkForAutoSnap_snapping
      by (rewrite updatePosition_isSnapping; exact Hs).
    split; [rewrite updatePosition_isSnapping; exact Hs|].
    rewrite (proj2 (proj2 (updatePosition_tweens _))). exact Ha.
  - unfold tweenUpdate, runningTween. rewrite Ha. split; assumption.
  - unfold tweenComplete, runningTween. rewrite Ha. split; assumption.
  - split; assumption.
  - split; assumption.
Qed.

Lemma run_snapLocked inputs : forall st,
  snapLocked st -> snapLocked (run st inputs).
Proof.
  unfold run. induction inputs as [|i rest IH]; intros st H; [exact H|].
  cbn [fold_left]. apply IH, step_snapLocked, H.
Qed.

Lemma run_app st l1 l2 : run st (l1 ++ l2) = run (run st l1) l2.
Proof. unfold run. apply fold_left_app. Qed.

(** X2: a touch that starts while a snap is in flight kills the tween of the
    snap but leaves [isSnapping] set, and nothing ever clears it again:
    whatever happens afterwards, the scroller stays in the snapping state with
    no tween running, and every key press and every click is ignored. *)
Theorem touch_start_during_snap_locks h p0 a0 before y now after :
  isSnapping (run (construct h p0 a0) before) = true ->
  isSnapping
    (run (construct h p0 a0) (before ++ TouchStart [y] now :: after)) = true /\
  activeTweens
    (run (construct h p0 a0) (before ++ TouchStart [y] now :: after)) = [] /\
  (forall key shiftKey,
      handleKeyDown key shiftKey
        (run (construct h p0 a0) (before ++ TouchStart [y] now :: after))
      = run (construct h p0 a0) (before ++ TouchStart [y] now :: after)) /\
  (forall clickX clickY screenWidth,
      handleClick clickX clickY screenWidth
        (run (construct h p0 a0) (before ++ TouchStart [y] now :: after))
      = run (construct h p0 a0) (before ++ TouchStart [y] now :: after)).
Proof.
  intros Hs. rewrite run_app.
  assert (L : snapLocked
                (run (run (construct h p0 a0) before)
                   (TouchStart [y] now :: after))).
  { change (snapLocked
              (run (handleTouchStart [y] now (run (construct h p0 a0) before))
                 after)).
    apply run_snapLocked, handleTouchStart_locks; [|exact Hs].
    apply run_single. left. reflexivity. }
  destruct L as [L1 L2]. split; [exact L1|]. split; [exact L2|].
  split; intros; [unfold handleKeyDown | unfold handleClick];
    rewrite L1; reflexivity.
Qed.

Lemma touch_start_during_snap_locks_witness :
  isSnapping snapInFlight = true /\
  isSnapping
    (run start ([KeyDown "ArrowRight" false]
                ++ TouchStart [300%R] 0 :: [TweenComplete 0; TouchEnd]))
  = true.
Proof.
  split; [exact (proj1 snapInFlight_state)|].
  exact (proj1 (touch_start_during_snap_locks allThere 0 0
                  [KeyDown "ArrowRight" false] 300 0
                  [TweenComplete 0; TouchEnd] (proj1 snapInFlight_state))).
Defined.

(** ** Bounds on the velocity *)

Lemma settle_range v :
  (Rabs (settle v) <= 25)%R /\
  (settle v = 0%R \/ (0.02 <= Rabs (settle v))%R).
Proof.
  unfold settle, minVelocity, maxVelocity, clamp, Rltb.
  destruct (Rlt_dec (Rabs v) 0.02) as [Hs|Hs].
  - rewrite Rabs_R0. split; [lra | left; reflexivity].
  - split; [Rcases | right; revert Hs; Rcases].
Qed.

Lemma updateMomentum_settles dt st :
  isSnapping st = false ->
  exists v, velocity (updateMomentum dt st) = settle v.
Proof.
  intros Hs. unfold updateMomentum. rewrite Hs. cbv zeta.
  match goal with
  | |- context [Rltb (Rabs (velocity ?s)) minVelocity] =>
      exists (velocity s); unfold settle;
      destruct (Rltb (Rabs (velocity s)) minVelocity); reflexivity
  end.
Qed.

(** X3: a frame of the physics loop that starts in free motion (not paused,
    no snap in flight) leaves a velocity of magnitude at most [maxVelocity]
    (25) that is either exactly 0 or of magnitude at least [minVelocity]
    (0.02): the scroller never creeps. *)
Theorem frame_velocity_settled now st :
  isPhysicsPaused st = false -> isSnapping st = false ->
  (Rabs (velocity (updatePhysics now st)) <= 25)%R /\
  (velocity (updatePhysics now st) = 0%R \/
   (0.02 <= Rabs (velocity (updatePhysics now st)))%R).
Proof.
  intros Hp Hs. unfold updatePhysics. rewrite Hp. cbv zeta.
  set (dt := if Reqb _ _ then _ else _).
  destruct (updateMomentum_settles dt (set_lastUpdateTime now st) Hs)
    as [v Hv].
  destruct (checkForAutoSnap_velocity
              (updatePosition (updateMomentum dt (set_lastUpdateTime now st))))
    as [E|E]; rewrite E.
  - rewrite updatePosition_velocity, Hv. apply settle_range.
  - rewrite Rabs_R0. split; [lra | left; reflexivity].
Qed.

Lemma frame_velocity_settled_witness :
  isPhysicsPaused coastingStart = false /\ isSnapping coastingStart = false /\
  (Rabs (velocity (updatePhysics 16 coastingStart)) <= 25)%R.
Proof.
  split; [reflexivity|]. split; [reflexivity|].
  exact (proj1 (frame_velocity_settled 16 coastingStart eq_refl eq_refl)).
Defined.


(** ** Navigation targets *)

Lemma find_app {A} (p : A -> bool) l1 l2 :
  find p (l1 ++ l2) =
  match find p l1 with Some x => Some x | None => find p l2 end.
Proof.
  induction l1 as [|x l1 IH]; [reflexivity|]. simpl.
  destruct (p x); [reflexivity | exact IH].
Qed.

Lemma sorted_filter {A} (key : A -> Z) (f : A -> bool) l :
  StronglySorted Z.lt (map key l) ->
  StronglySorted Z.lt (map key (filter f l)).
Proof.
  induction l as [|x l IH]; intros H; [constructor|].
  inversion H as [|? ? Hs Hall]; subst. simpl.
  destruct (f x); [|apply IH, Hs]. simpl. constructor; [apply IH, Hs|].
  rewrite Forall_forall in *. intros k Hk. apply Hall.
  rewrite in_map_iff in *. destruct Hk as (y & <- & Hy).
  exists y. split; [reflexivity|]. apply filter_In in Hy. tauto.
Qed.

Section FindSorted.
Context {A : Type} (key : A -> Z) (p : A -> bool).

Lemma find_first_least l t :
  StronglySorted Z.lt (map key l) -> find p l = Some t ->
  forall s, In s l -> p s = true -> key t <= key s.
Proof.
  induction l as [|x l IH]; intros H Hf s Hin Hp; [contradiction|].
  inversion H as [|? ? Hs Hall]; subst. rewrite Forall_forall in Hall.
  simpl in Hf. destruct (p x) eqn:Hx.
  - injection Hf as <-. destruct Hin as [<-|Hin]; [lia|].
    assert (key x < key s); [|lia]. apply Hall, in_map, Hin.
  - destruct Hin as [<-|Hin]; [congruence|]. apply IH; assumption.
Qed.

Lemma find_last_greatest l t :
  StronglySorted Z.lt (map key l) -> find p (rev l) = Some t ->
  forall s, In s l -> p s = true -> key s <= key t.
Proof.
  induction l as [|x l IH]; intros H Hf s Hin Hp; [contradiction|].
  inversion H as [|? ? Hs Hall]; subst. rewrite Forall_forall in Hall.
  simpl in Hf. rewrite find_app in Hf.
  destruct (find p (rev l)) as [t'|] eqn:Hr.
  - injection Hf as <-. destruct Hin as [<-|Hin]; [|apply IH; auto].
    assert (key x < key t'); [|lia]. apply Hall, in_map, in_rev.
    apply (find_some _ _ Hr).
  - simpl in Hf. destruct (p x) eqn:Hx; [|discriminate]. injection Hf as <-.
    destruct Hin as [<-|Hin]; [lia|].
    pose proof (find_none _ _ Hr s (proj1 (in_rev _ _) Hin)). congruence.
Qed.

End FindSorted.

Lemma generateSections_sorted :
  StronglySorted Z.lt (map position generateSections).
Proof.
  unfold generateSections, generateSectionsUpTo.
  apply (sorted_loop_sorted position sectionAt
           SectionMapFacts.sectionAt_position).
Qed.

Lemma eligible_filter type_ l s :
  In s (match type_ with
        | snapAgent => filter (fun s => SectionType_eqb (type s) agent) l
        | snapAny => filter (fun s => 55 <=? magnetism s) l
        end) <-> In s l /\ eligible type_ s.
Proof.
  destruct type_; rewrite filter_In; unfold eligible;
    [rewrite SectionType_eqb_eq | rewrite Z.leb_le]; reflexivity.
Qed.

Lemma candidates_sorted type_ l :
  StronglySorted Z.lt (map position l) ->
  StronglySorted Z.lt
    (map position
       (match type_ with
        | snapAgent => filter (fun s => SectionType_eqb (type s) agent) l
        | snapAny => filter (fun s => 55 <=? magnetism s) l
        end)).
Proof. intros H. destruct type_; apply sorted_filter, H. Qed.

Lemma findTargetSection_ahead direction type_ st :
  StronglySorted Z.lt (map position (sections st)) -> 0 < direction ->
  nearestAhead type_ (positionRef st) (sections st)
    (findTargetSection direction type_ st).
Proof.
  intros Hsorted Hd. unfold findTargetSection. cbv zeta.
  rewrite (proj2 (Z.ltb_lt 0 direction) Hd).
  set (cands := match type_ with snapAgent => _ | snapAny => _ end).
  assert (Hc : forall s, In s cands <-> In s (sections st) /\ eligible type_ s)
    by (intros s; apply eligible_filter).
  assert (Hcs : StronglySorted Z.lt (map position cands))
    by (apply candidates_sorted, Hsorted).
  clearbody cands.
  destruct (find _ cands) as [t|] eqn:Hf; unfold nearestAhead.
  - destruct (find_some _ _ Hf) as [Hin Hp].
    apply Hc in Hin. destruct Hin as [Hin He].
    apply Rltb_spec in Hp.
    repeat split; try assumption.
    intros s Hs Hes Hps.
    apply (find_first_least position _ cands t Hcs Hf s).
    + apply Hc. split; assumption.
    + apply Rltb_spec. exact Hps.
  - intros s Hs Hes.
    assert (Hn := find_none _ _ Hf s (proj2 (Hc s) (conj Hs Hes))).
    cbv beta in Hn. unfold Rltb in Hn. destruct (Rlt_dec _ _); [discriminate|].
    lra.
Qed.

Lemma findTargetSection_behind direction type_ st :
  StronglySorted Z.lt (map position (sections st)) -> direction <= 0 ->
  nearestBehind type_ (positionRef st) (sections st)
    (findTargetSection direction type_ st).
Proof.
  intros Hsorted Hd. unfold findTargetSection. cbv zeta.
  rewrite (proj2 (Z.ltb_ge 0 direction) Hd).
  set (cands := match type_ with snapAgent => _ | snapAny => _ end).
  assert (Hc : forall s, In s cands <-> In s (sections st) /\ eligible type_ s)
    by (intros s; apply eligible_filter).
  assert (Hcs : StronglySorted Z.lt (map position cands))
    by (apply candidates_sorted, Hsorted).
  clearbody cands.
  destruct (find _ (rev cands)) as [t|] eqn:Hf; unfold nearestBehind.
  - destruct (find_some _ _ Hf) as [Hin Hp].
    apply in_rev, Hc in Hin. destruct Hin as [Hin He].
    apply Rltb_spec in Hp.
    repeat split; try assumption.
    intros s Hs Hes Hps.
    apply (find_last_greatest position _ cands t Hcs Hf s).
    + apply Hc. split; assumption.
    + apply Rltb_spec. exact Hps.
  - intros s Hs Hes.
    assert (Hn := find_none _ _ Hf s
                    (proj1 (in_rev _ _) (proj2 (Hc s) (conj Hs Hes)))).
    cbv beta in Hn. unfold Rltb in Hn. destruct (Rlt_dec _ _); [discriminate|].
    lra.
Qed.

Lemma run_sorted h p0 a0 inputs :
  StronglySorted Z.lt
    (map position (sections (run (construct h p0 a0) inputs))).
Proof. rewrite run_generated. exact generateSections_sorted. Qed.

(** X5: in every state a run can reach, [findTargetSection] with a positive
    direction returns the nearest section of the requested kind (agent
    sections, or sections of magnetism at least 55) that lies more than 1
    ahead of the position, and with any other direction the nearest one more
    than 1 behind; it returns nothing exactly when there is no such
    section. *)
Theorem navigation_target_is_nearest h p0 a0 inputs direction type_ :
  (0 < direction ->
   nearestAhead type_ (positionRef (run (construct h p0 a0) inputs))
     generateSections
     (findTargetSection direction type_ (run (construct h p0 a0) inputs))) /\
  (direction <= 0 ->
   nearestBehind type_ (positionRef (run (construct h p0 a0) inputs))
     generateSections
     (findTargetSection direction type_ (run (construct h p0 a0) inputs))).
Proof.
  split; intros Hd.
  - rewrite <- (run_generated h p0 a0 inputs) at 1.
    apply findTargetSection_ahead; [apply run_sorted | exact Hd].
  - rewrite <- (run_generated h p0 a0 inputs) at 1.
    apply findTargetSection_behind; [apply run_sorted | exact Hd].
Qed.

Lemma nothing_behind type_ st :
  StronglySorted Z.lt (map position (sections st)) ->
  (forall s, In s (sections st) -> 0 <= position s) ->
  (positionRef st <= 1)%R ->
  findTargetSection (-1) type_ st = None.
Proof.
  intros Hsorted Hpos Hp.
  pose proof (findTargetSection_behind (-1) type_ st Hsorted ltac:(lia)) as H.
  destruct (findTargetSection (-1) type_ st) as [t|]; [|reflexivity].
  destruct H as (Hin & _ & Hlt & _). apply Hpos in Hin.
  apply IZR_le in Hin. lra.
Qed.

Lemma keyDownTarget_back key shiftKey st :
  (forall type_, findTargetSection (-1) type_ st = None) ->
  keyIn key ["ArrowUp"; "w"; "W"; "ArrowLeft"; "a"; "A"]%string = true ->
  keyDownTarget key shiftKey st = None.
Proof.
  intros Hnone Hk. unfold keyIn in Hk. apply existsb_exists in Hk.
  destruct Hk as (x & Hin & E). apply String.eqb_eq in E. subst x.
  simpl in Hin.
  repeat (destruct Hin as [<-|Hin]; [unfold keyDownTarget; simpl; apply Hnone|]).
  contradiction.
Qed.

Lemma clickTarget_back clickX clickY screenWidth st :
  (forall type_, findTargetSection (-1) type_ st = None) ->
  (0 <= screenWidth)%R -> (clickX < screenWidth * 0.35)%R ->
  clickTarget clickX clickY screenWidth st = None.
Proof.
  intros Hnone Hw Hx. unfold clickTarget.
  destruct (_ && _); [reflexivity|].
  destruct (Rltb clickX _); [apply Hnone|].
  rewrite (Rltb_false (screenWidth * 0.85) clickX) by lra.
  rewrite (Rltb_true clickX (screenWidth * 0.35)) by exact Hx.
  apply Hnone.
Qed.

(** X6: at the start of the path (position at most 1) there is nothing to go
    back to: in every state a run can reach there, the keys that navigate
    backwards (ArrowUp, w, W, ArrowLeft, a, A, with or without shift) and a
    click in the left 35 percent of the screen change nothing at all. *)
Theorem nothing_to_go_back_to h p0 a0 inputs :
  (positionRef (run (construct h p0 a0) inputs) <= 1)%R ->
  (forall key shiftKey,
      keyIn key ["ArrowUp"; "w"; "W"; "ArrowLeft"; "a"; "A"]%string = true ->
      handleKeyDown key shiftKey (run (construct h p0 a0) inputs)
      = run (construct h p0 a0) inputs) /\
  (forall clickX clickY screenWidth,
      (0 <= screenWidth)%R -> (clickX < screenWidth * 0.35)%R ->
      handleClick clickX clickY screenWidth (run (construct h p0 a0) inputs)
      = run (construct h p0 a0) inputs).
Proof.
  intros Hp.
  assert (Hnone : forall type_,
             findTargetSection (-1) type_ (run (construct h p0 a0) inputs)
             = None).
  { intros type_. apply nothing_behind; [apply run_sorted | | exact Hp].
    rewrite run_generated. apply SectionMapFacts.generateSections_nonneg. }
  split.
  - intros key shiftKey Hk. unfold handleKeyDown.
    rewrite (keyDownTarget_back key shiftKey _ Hnone Hk).
    destruct (isSnapping _); reflexivity.
  - intros clickX clickY screenWidth Hw Hx. unfold handleClick.
    rewrite (clickTarget_back clickX clickY screenWidth _ Hnone Hw Hx).
    destruct (isSnapping _); reflexivity.
Qed.

Lemma nothing_to_go_back_to_witness :
  (positionRef start <= 1)%R /\
  handleKeyDown "ArrowLeft" false start = start.
Proof.
  assert (H : (positionRef start <= 1)%R).
  { change (positionRef start) with 0%R. lra. }
  split; [exact H|].
  exact (proj1 (nothing_to_go_back_to allThere 0 0 [] H)
           "ArrowLeft"%string false eq_refl).
Defined.

(** ** The auto-snap target *)

Lemma insertByScore_head x l :
  (match l with
   | [] => True
   | b :: _ => forall z, In z l -> (score z <= score b)%R
   end) ->
  match insertByScore x l with
  | [] => False
  | b :: _ => forall z, In z (x :: l) -> (score z <= score b)%R
  end.
Proof.
  destruct l as [|y r]; intros H; cbn [insertByScore].
  - intros z [<-|[]]. apply Rle_refl.
  - unfold Rleb. destruct (Rle_dec (score y) (score x)) as [Hle|Hgt].
    + intros z [<-|Hz]; [apply Rle_refl|].
      apply Rle_trans with (score y); [apply H, Hz | exact Hle].
    + intros z [<-|Hz]; [lra | apply H, Hz].
Qed.

Lemma sortByScore_head l :
  match sortByScore l with
  | [] => l = []
  | b :: _ => forall z, In z l -> (score z <= score b)%R
  end.
Proof.
  induction l as [|x l IH]; [reflexivity|].
  change (sortByScore (x :: l)) with (insertByScore x (sortByScore l)).
  pose proof (insertByScore_head x (sortByScore l)) as H.
  destruct (sortByScore l) as [|b r] eqn:E.
  - subst l. cbn in *. intros z [<-|[]]. apply Rle_refl.
  - specialize (H (fun z Hz => IH z (proj1 (sortByScore_In z l)
                                        ltac:(rewrite E; exact Hz)))).
    destruct (insertByScore x (b :: r)) as [|b' r']; [contradiction|].
    intros z [<-|Hz]; [apply H; left; reflexivity|].
    apply H. right. apply (proj2 (sortByScore_In z l)) in Hz.
    rewrite E in Hz. exact Hz.
Qed.

(** X7: [findBestSnapTarget] returns a section
    of the map within 1.5 snap radii of the predicted position whose score,
    [0.4 * magnetism/100 + 0.4 * (1 - distance/snapRadius)
     + 0.2 * (1 - predictedDistance/(1.5 * snapRadius))], is not exceeded by
    any other section within that range; it returns nothing exactly when no
    section is within that range. *)
Theorem best_snap_target_has_best_score st :
  bestScored st (findBestSnapTarget st).
Proof.
  unfold findBestSnapTarget, bestScored. cbv zeta.
  fold (predictedPosition st).
  set (near := fun s : ScrollSection =>
                 Rleb (Rabs (IZR (position s) - predictedPosition st))
                   (snapRadius * 1.5)).
  set (f := fun s : ScrollSection => mkScored s _).
  assert (Hf : forall s, score (f s) = scoreOf st s) by reflexivity.
  assert (Hsec : forall s, section (f s) = s) by reflexivity.
  clearbody f.
  destruct (filter near (sections st)) as [|c cs] eqn:Ec.
  - intros s Hs.
    assert (Hn : near s = false).
    { destruct (near s) eqn:E; [|reflexivity].
      assert (In s (filter near (sections st)))
        by (apply filter_In; split; assumption).
      rewrite Ec in H. contradiction. }
    unfold near, Rleb in Hn. destruct (Rle_dec _ _); [discriminate | lra].
  - rewrite <- Ec.
    pose proof (sortByScore_head (map f (filter near (sections st)))) as H.
    destruct (sortByScore (map f (filter near (sections st))))
      as [|best rest] eqn:Es.
    + rewrite Ec in H. discriminate.
    + assert (Hb : In best (map f (filter near (sections st)))).
      { apply sortByScore_In. rewrite Es. left. reflexivity. }
      apply in_map_iff in Hb. destruct Hb as (t & <- & Ht).
      apply filter_In in Ht. destruct Ht as [Hin Hnear].
      rewrite Hsec. split; [exact Hin|]. split.
      * unfold near in Hnear. apply Rleb_spec in Hnear. exact Hnear.
      * intros s Hs Hd. rewrite <- !Hf. apply H, in_map, filter_In.
        split; [exact Hs|]. unfold near. apply Rleb_spec. exact Hd.
Qed.

(** ** The duration of a snap *)



(** ** Touch gestures *)

Lemma killAllTweens_touchState st :
  touchState (killAllTweens st) = touchState st.
Proof. unfold killAllTweens, kill, emit. branches. Qed.

Lemma killAllTweens_isScrolling st :
  isScrolling (killAllTweens st) = isScrolling st.
Proof. unfold killAllTweens, kill, emit. branches. Qed.

(** X19: [handleTouchStart] with one finger stops the scroller (velocity 0),
    so the first [handleTouchMove] of more than 1 pixel sets the velocity
    from the finger displacement alone, [(startY - y) * 0.18] clamped to
    [maxVelocity], whatever the velocity was before the touch; the position
    itself is not written by either handler. *)
Theorem first_touch_move_sets_velocity y0 t0 y1 t1 st :
  (1 < Rabs (y0 - y1))%R ->
  velocity (handleTouchMove [y1] t1 (handleTouchStart [y0] t0 st))
  = clamp (- maxVelocity) maxVelocity ((y0 - y1) * 0.18) /\
  isScrolling (handleTouchMove [y1] t1 (handleTouchStart [y0] t0 st)) = true /\
  positionRef (handleTouchMove [y1] t1 (handleTouchStart [y0] t0 st))
  = positionRef st.
Proof.
  intros Hd. unfold handleTouchMove, handleTouchStart. cbv zeta.
  cbn [touchState set_velocity]. rewrite killAllTweens_touchState.
  cbn [touchState set_touchState Touch.isActive Touch.lastY negb].
  rewrite (Rltb_true _ _ Hd).
  cbn [velocity isScrolling positionRef set_isScrolling set_touchState
       set_velocity].
  rewrite killAllTweens_positionRef. cbn [positionRef set_touchState].
  rewrite Rplus_0_l. repeat split.
Qed.

Lemma first_touch_move_sets_velocity_witness :
  (1 < Rabs (300 - 200))%R /\
  velocity (handleTouchMove [200%R] 16 (handleTouchStart [300%R] 0 coastingStart))
  = clamp (- maxVelocity) maxVelocity ((300 - 200) * 0.18).
Proof.
  assert (H : (1 < Rabs (300 - 200))%R).
  { rewrite Rabs_pos_eq; lra. }
  split; [exact H|].
  exact (proj1 (first_touch_move_sets_velocity 300 0 200 16 coastingStart H)).
Defined.

End ScrollerExtras.

(** ** The scene window *)

Module SceneExtras.
Import PathRenderer SceneWindowFacts.

Lemma createRow_placement p i :
  Forall (fun o =>
            match o with
            | RowObject g k row c d e =>
                row = Zfloor p + i /\ d = i * 8 /\
                c = (if hasScrollStarted p
                     then calculateRoundedCurve p (Zfloor p + i) else 0%R) /\
                (e = (if hasScrollStarted p
                      then calculateHelixElevation p (Zfloor p + i)
                      else 0.01%R) \/
                 e = ((if hasScrollStarted p
                       then calculateHelixElevation p (Zfloor p + i)
                       else 0.01%R) + 2)%R)
            | StartText => False
            end) (createRow p i).
Proof.
  unfold createRow. destruct (Zfloor p + i <? 0); [constructor|]. cbv zeta.
  unfold when.
  repeat (apply Forall_app; split);
    repeat match goal with
           | |- context [if ?c then _ :: _ else []] => destruct c
           end;
    cbn [map];
    repeat (first [apply Forall_nil | apply Forall_cons]);
    (split; [reflexivity|]); (split; [reflexivity|]); (split; [reflexivity|]);
    first [left; reflexivity | right; reflexivity].
Qed.

(** X9: whatever the position [p], a rebuild of the path holds objects only
    for the non-negative rows from [floor p - 30] to [floor p + 29]; it holds
    all six dots of each of these rows; every object of a row sits at the
    distance [8 * (row - floor p)], so between -240 and 232; and the
    'Scroll to Explore' label is added on every rebuild. *)
Theorem rebuild_window p :
  (forall k row, emits k row (createDottedPath p) ->
                 0 <= row /\ Zfloor p - 30 <= row < Zfloor p + 30) /\
  (forall row col,
      0 <= row -> Zfloor p - 30 <= row < Zfloor p + 30 -> 0 <= col < 6 ->
      emits (Dot col) row (createDottedPath p)) /\
  (forall g k row c d e,
      In (RowObject g k row c d e) (createDottedPath p) ->
      d = 8 * (row - Zfloor p) /\ -240 <= d <= 232) /\
  In StartText (createDottedPath p).
Proof.
  split; [|split; [|split]].
  - intros k row H. apply createDottedPath_emits in H.
    unfold visibleRange in H. lia.
  - intros row col H0 Hw Hc. apply createDottedPath_emits.
    unfold visibleRange. split; [lia|]. split; [exact H0|].
    cbn [rowHas]. apply andb_true_iff. split; [apply Z.leb_le | apply Z.ltb_lt];
      lia.
  - intros g k row c d e H. unfold createDottedPath in H.
    rewrite in_app_iff, in_flat_map in H.
    destruct H as [(i & Hi & H)|[H|[]]]; [|discriminate H].
    apply rowOffsets_In in Hi. unfold visibleRange in Hi.
    pose proof (createRow_placement p i) as F. rewrite Forall_forall in F.
    specialize (F _ H). cbv beta iota in F. destruct F as (-> & -> & _).
    lia.
  - unfold createDottedPath. apply in_or_app. right. left. reflexivity.
Qed.

Lemma createRow_flat p i :
  hasScrollStarted p = false ->
  Forall (fun o => exists col row d,
                     o = RowObject dotsGroup (Dot col) row 0 d 0.01)
    (createRow p i).
Proof.
  intros Hs. unfold createRow. rewrite Hs.
  destruct (Zfloor p + i <? 0); [constructor|]. cbv zeta.
  rewrite !andb_false_r. unfold when. rewrite !app_nil_r. cbn [map].
  repeat constructor; do 3 eexists; reflexivity.
Qed.

(** X10: until the scroll has started (position at most the threshold 0.1), a
    rebuild holds nothing but dots and the label: no text, no panel, no
    shape; and every dot lies flat, with no curve offset and at the ground
    height 0.01. *)
Theorem before_scroll_only_flat_dots p :
  (p <= scrollThreshold)%R ->
  Forall (fun o => o = StartText \/
                   exists col row d,
                     o = RowObject dotsGroup (Dot col) row 0 d 0.01)
    (createDottedPath p).
Proof.
  intros Hp. unfold createDottedPath. apply Forall_app. split.
  - apply Forall_flat_map. rewrite Forall_forall. intros i _.
    eapply Forall_impl; [|apply createRow_flat].
    + intros o H. right. exact H.
    + unfold hasScrollStarted. apply Rltb_false. exact Hp.
  - constructor; [left; reflexivity | constructor].
Qed.

Lemma before_scroll_only_flat_dots_witness :
  (0 <= scrollThreshold)%R /\
  Forall (fun o => o = StartText \/
                   exists col row d,
                     o = RowObject dotsGroup (Dot col) row 0 d 0.01)
    (createDottedPath 0).
Proof.
  assert (H : (0 <= scrollThreshold)%R) by (unfold scrollThreshold; lra).
  split; [exact H|]. exact (before_scroll_only_flat_dots 0 H).
Defined.

Lemma every_false row n :
  0 <= row -> 0 < n -> (jsmod row n =? 0) = false <-> ~ (n | row).
Proof.
  intros H0 Hn. rewrite <- (jsmod_divide row n H0 Hn).
  destruct (jsmod row n =? 0); split; intros; congruence.
Qed.

Lemma divides_30_40 row : (30 | row) -> (40 | row) -> (120 | row).
Proof. intros [a Ha] [b Hb]. exists (a - b). lia. Qed.

Lemma divides_16_40 row : (16 | row) /\ (40 | row) <-> (80 | row).
Proof.
  split.
  - intros [[a Ha] [b Hb]]. exists (a - 2 * b). lia.
  - intros [c Hc]. split; [exists (5 * c) | exists (2 * c)]; lia.
Qed.

Lemma divides_30_80 row : (30 | row) /\ (80 | row) <-> (240 | row).
Proof.
  split.
  - intros [[a Ha] [b Hb]]. exists (3 * b - a). lia.
  - intros [c Hc]. split; [exists (8 * c) | exists (3 * c)]; lia.
Qed.

Lemma divides_60_30 row : (60 | row) -> (30 | row).
Proof. intros [a Ha]. exists (2 * a). lia. Qed.

(** X11: which meshes built by [createVariousShapes] share a row of a
    rebuild with what, whatever the position.  The one left on the path (the
    every-30 block) never shares a row with the milestone text, with the two
    moved beside the path (the every-40 block) or with a decorative shape:
    30 and 40 both divide only the multiples of 120, which the every-30 block
    skips.  The two beside the path do share rows with a decorative shape,
    exactly at the positive rows of the window that are multiples of 80 and
    not of 240, once the scroll has started.  And a row with an agent box
    also holds the one on the path unless it is a multiple of 120 (so rows
    60, 180, ... hold both). *)
Theorem rebuild_row_companions p row :
  ~ (emits (VariousShape onPath) row (createDottedPath p) /\
     emits MilestoneText row (createDottedPath p)) /\
  ~ (emits (VariousShape onPath) row (createDottedPath p) /\
     emits (VariousShape leftOfPath) row (createDottedPath p)) /\
  ~ (emits (VariousShape onPath) row (createDottedPath p) /\
     emits (VariousShape rightOfPath) row (createDottedPath p)) /\
  ~ (emits (VariousShape onPath) row (createDottedPath p) /\
     emits DecorativeShape row (createDottedPath p)) /\
  (emits DecorativeShape row (createDottedPath p) /\
   emits (VariousShape leftOfPath) row (createDottedPath p) /\
   emits (VariousShape rightOfPath) row (createDottedPath p) <->
   Zfloor p - visibleRange <= row < Zfloor p + visibleRange /\ 0 < row /\
   hasScrollStarted p = true /\ (80 | row) /\ ~ (240 | row)) /\
  (emits AgentBox row (createDottedPath p) ->
   (emits (VariousShape onPath) row (createDottedPath p) <-> ~ (120 | row))).
Proof.
  rewrite !createDottedPath_emits. cbn [rowHas].
  generalize (hasScrollStarted p). generalize (Zfloor p). intros z started.
  destruct (Z.le_gt_cases 0 row) as [H0|Hneg];
    [|repeat split; intros; intuition lia].
  rewrite !andb_true_iff, !negb_true_iff, !Z.ltb_lt.
  rewrite (jsmod_divide row 16 H0 eq_refl), (jsmod_divide row 30 H0 eq_refl),
    (jsmod_divide row 40 H0 eq_refl), (jsmod_divide row 60 H0 eq_refl),
    (every_false row 30 H0 eq_refl), (every_false row 120 H0 eq_refl).
  pose proof (divides_30_40 row) as A1.
  pose proof (divides_16_40 row) as A2.
  pose proof (divides_30_80 row) as A3.
  pose proof (divides_60_30 row) as A4.
  set (W := z - visibleRange <= row < z + visibleRange). clearbody W.
  set (P0 := 0 <= row) in *. set (P1 := 0 < row).
  clearbody P0 P1.
  tauto.
Qed.

(** ** The helix *)

Lemma smoothStep_mirror t : smoothStep (1 - t) = (1 - smoothStep t)%R.
Proof. unfold smoothStep. ring. Qed.

Lemma smoothStep_nonneg t : (0 <= t)%R -> (0 <= smoothStep t)%R.
Proof.
  intros Ht. unfold smoothStep.
  assert (H3 : (0 <= t * t * t)%R).
  { apply Rmult_le_pos; [apply Rmult_le_pos|]; exact Ht. }
  assert (Hq : (0 <= t * (t * 6 - 15) + 10)%R).
  { pose proof (Rle_0_sqr (t - 5 / 4)) as Hsq. unfold Rsqr in Hsq. lra. }
  apply Rmult_le_pos; assumption.
Qed.

Lemma smoothStep_range t : (0 <= t <= 1)%R -> (0 <= smoothStep t <= 1)%R.
Proof.
  intros [H0 H1]. split; [apply smoothStep_nonneg, H0|].
  assert (H : (0 <= smoothStep (1 - t))%R) by (apply smoothStep_nonneg; lra).
  rewrite smoothStep_mirror in H. lra.
Qed.

Lemma progress_range a : (0 <= Rmin 1 (Rmax 0 a / 10) <= 1)%R.
Proof.
  assert (H : (0 <= Rmax 0 a)%R) by apply Rmax_l.
  unfold Rmin. destruct (Rle_dec _ _); lra.
Qed.

(** X12: [smoothStep] maps the interval from 0 to 1 into itself, keeps both
    end points, and is point-symmetric about one half:
    [smoothStep (1 - t) = 1 - smoothStep t]. *)
Theorem smoothStep_unit_interval t :
  smoothStep 0 = 0%R /\ smoothStep 1 = 1%R /\
  smoothStep (1 - t) = (1 - smoothStep t)%R /\
  ((0 <= t <= 1)%R -> (0 <= smoothStep t <= 1)%R).
Proof.
  split; [unfold smoothStep; ring|]. split; [unfold smoothStep; ring|].
  split; [apply smoothStep_mirror | apply smoothStep_range].
Qed.

Lemma screenWidth_pos : (0 < screenWidth)%R.
Proof.
  unfold screenWidth. pose proof PI_RGT_0 as Hpi.
  assert (H : (0 < tan (75 * PI / 180 / 2))%R).
  { apply tan_gt_0; lra. }
  lra.
Qed.

(** X13: the height of a row stays within 4.4 of the ground height 0.01,
    whatever the position and the row, and a row at or before the start
    (row 0) is at the ground height exactly; the sideways offset of a row
    never exceeds 0.335 times the screen width. *)
Theorem helix_stays_bounded p row :
  (Rabs (calculateHelixElevation p row - 0.01) <= 4.4)%R /\
  (row <= 0 -> calculateHelixElevation p row = 0.01%R) /\
  (Rabs (calculateRoundedCurve p row) <= 0.335 * screenWidth)%R.
Proof.
  pose proof screenWidth_pos as Hw.
  unfold calculateHelixElevation, calculateRoundedCurve.
  destruct (negb (hasScrollStarted p)).
  - replace (0.01 - 0.01)%R with 0%R by ring. rewrite Rabs_R0.
    split; [lra|]. split; [reflexivity | lra].
  - cbv zeta. unfold scrollThreshold.
    set (a := (IZR row - 0.1)%R).
    pose proof (smoothStep_range _ (progress_range a)) as He.
    split; [|split].
    + set (E := smoothStep _) in *. clearbody E.
      pose proof (SIN_bound (Rmax 0 a * 0.15)) as H1.
      pose proof (COS_bound (Rmax 0 a * 0.15 * 2)) as H2.
      pose proof (SIN_bound (a * 0.02)) as H3.
      set (s1 := sin (Rmax 0 a * 0.15)) in *. clearbody s1.
      set (c1 := cos (Rmax 0 a * 0.15 * 2)) in *. clearbody c1.
      set (s2 := sin (a * 0.02)) in *. clearbody s2.
      apply Rabs_le. split; nra.
    + intros Hrow.
      assert (Ha : (a <= 0)%R).
      { unfold a. apply IZR_le in Hrow. lra. }
      rewrite (Rmax_left 0 a Ha).
      replace (0 / 10)%R with 0%R by field.
      rewrite (Rmin_right 1 0) by lra.
      replace (smoothStep 0) with 0%R by (unfold smoothStep; ring).
      ring.
    + set (E := smoothStep _) in *. clearbody E.
      pose proof (COS_bound (Rmax 0 a * 0.1)) as H1.
      pose proof (SIN_bound (Rmax 0 a * 0.1 * 2)) as H2.
      pose proof (COS_bound (Rmax 0 a * 0.1 * 3)) as H3.
      pose proof (SIN_bound (a * 0.015)) as H4.
      pose proof (COS_bound (a * 0.025)) as H5.
      set (c1 := cos (Rmax 0 a * 0.1)) in *. clearbody c1.
      set (s2 := sin (Rmax 0 a * 0.1 * 2)) in *. clearbody s2.
      set (c3 := cos (Rmax 0 a * 0.1 * 3)) in *. clearbody c3.
      set (s4 := sin (a * 0.015)) in *. clearbody s4.
      set (c5 := cos (a * 0.025)) in *. clearbody c5.
      set (W := screenWidth) in *. clearbody W.
      assert (Hh : (- (0.32 * W) <= c1 * (W * 0.25) + s2 * (W * 0.05)
                                    + c3 * (W * 0.02) <= 0.32 * W)%R)
        by (split; nra).
      assert (Ho : (- (0.015 * W) <= s4 * (W * 0.01) + c5 * (W * 0.005)
                    <= 0.015 * W)%R) by (split; nra).
      set (h := (c1 * (W * 0.25) + s2 * (W * 0.05) + c3 * (W * 0.02))%R) in *.
      clearbody h.
      set (o := (s4 * (W * 0.01) + c5 * (W * 0.005))%R) in *. clearbody o.
      apply Rabs_le. split; nra.
Qed.

End SceneExtras.

(** ** The section scroller *)

Module SmoothExtras.
Import SmoothSectionScroller SmoothFacts.

(** *** Choosing a section *)

Section HeadOfSort.
Context {A : Type} (compare : A -> A -> R).
Let le (a b : A) : Prop := Rleb (compare a b) 0 = true.
Hypothesis le_refl : forall a, le a a.
Hypothesis le_trans : forall a b c, le a b -> le b c -> le a c.
Hypothesis le_total : forall a b, le a b \/ le b a.

Lemma insertBy_In x y l : In x (insertBy compare y l) <-> x = y \/ In x l.
Proof.
  induction l as [|z l IH]; simpl; [intuition auto|].
  destruct (Rleb (compare y z) 0); simpl; [intuition auto|].
  rewrite IH. intuition auto.
Qed.

Lemma sortBy_In x l : In x (sortBy compare l) <-> In x l.
Proof.
  induction l as [|y l IH]; simpl; [tauto|].
  rewrite insertBy_In, IH. intuition auto.
Qed.

Lemma insertBy_head x l :
  (match l with
   | [] => True
   | b :: _ => forall z, In z l -> le b z
   end) ->
  match insertBy compare x l with
  | [] => False
  | b :: _ => forall z, In z (x :: l) -> le b z
  end.
Proof.
  destruct l as [|y r]; intros H; cbn [insertBy].
  - intros z [<-|[]]. apply le_refl.
  - destruct (Rleb (compare x y) 0) eqn:E.
    + intros z [<-|Hz]; [apply le_refl|].
      apply le_trans with y; [exact E | apply H, Hz].
    + assert (Hyx : le y x).
      { destruct (le_total x y) as [Hxy|Hyx]; [|exact Hyx].
        unfold le in Hxy. congruence. }
      intros z [<-|Hz]; [exact Hyx | apply H, Hz].
Qed.

Lemma sortBy_head l :
  match sortBy compare l with
  | [] => l = []
  | b :: _ => In b l /\ forall z, In z l -> le b z
  end.
Proof.
  induction l as [|x l IH]; [reflexivity|].
  change (sortBy compare (x :: l)) with (insertBy compare x (sortBy compare l)).
  pose proof (insertBy_head x (sortBy compare l)) as H.
  pose proof (fun z => insertBy_In z x (sortBy compare l)) as HIn.
  destruct (sortBy compare l) as [|b r] eqn:E.
  - subst l. cbn in *. split; [left; reflexivity|].
    intros z [<-|[]]. apply le_refl.
  - destruct IH as [_ IH].
    assert (Hl : forall z, In z l <-> In z (b :: r)).
    { intros z. rewrite <- E. symmetry. apply sortBy_In. }
    specialize (H (fun z Hz => IH z (proj2 (Hl z) Hz))).
    destruct (insertBy compare x (b :: r)) as [|b' r']; [contradiction|].
    split.
    + assert (Hb : b' = x \/ In b' (b :: r))
        by (apply HIn; left; reflexivity).
      destruct Hb as [->|Hb]; [left; reflexivity|]. right. apply Hl, Hb.
    + intros z [<-|Hz]; [apply H; left; reflexivity|].
      apply H. right. apply Hl, Hz.
Qed.

End HeadOfSort.

Lemma compareTargets_le p a b :
  Rleb (compareTargets p a b) 0 = true <->
  priority b < priority a \/
  (priority a = priority b /\
   (Rabs (IZR (position a) - p) <= Rabs (IZR (position b) - p))%R).
Proof.
  unfold compareTargets. cbv zeta. rewrite Rleb_spec.
  destruct (Z.eqb_spec (priority a) (priority b)) as [E|E]; cbn [negb].
  - split; [intros H; right; split; [exact E | lra]|].
    intros [H|[_ H]]; [lia | lra].
  - split.
    + intros H. left. apply le_IZR in H. lia.
    + intros [H|[H _]]; [|contradiction]. apply IZR_le. lia.
Qed.

Lemma findBestSnapTarget_bestNearby st :
  bestNearby st (findBestSnapTarget st).
Proof.
  unfold findBestSnapTarget, bestNearby. cbv zeta.
  set (near := fun s : SectionConfig =>
                 Rleb (Rabs (IZR (position s) - positionRef st)) 30).
  destruct (filter near (sections st)) as [|c cs] eqn:Ec.
  - intros s Hs.
    assert (Hn : near s = false).
    { destruct (near s) eqn:E; [|reflexivity].
      assert (H : In s (filter near (sections st)))
        by (apply filter_In; split; assumption).
      rewrite Ec in H. contradiction. }
    unfold near, Rleb in Hn. destruct (Rle_dec _ _); [discriminate | lra].
  - rewrite <- Ec.
    pose proof (sortBy_head (compareTargets (positionRef st))) as H.
    specialize (H ltac:(intros a; apply compareTargets_le; right;
                        split; [reflexivity | apply Rle_refl])).
    specialize (H ltac:(intros a b c0; rewrite !compareTargets_le;
                        intros [?|[? ?]] [?|[? ?]];
                        [left; lia | left; lia | left; lia
                        | right; split; [lia | lra]])).
    specialize (H ltac:(intros a b; rewrite !compareTargets_le;
                        destruct (Z.lt_total (priority a) (priority b))
                          as [?|[?|?]];
                        [right; left; assumption
                        | destruct (Rle_or_lt
                                      (Rabs (IZR (position a) - positionRef st))
                                      (Rabs (IZR (position b) - positionRef st)));
                          [left; right; split; assumption
                          | right; right; split; [lia | lra]]
                        | left; left; assumption])).
    specialize (H (filter near (sections st))).
    destruct (sortBy _ (filter near (sections st))) as [|t rest].
    + rewrite Ec in H. discriminate.
    + cbn [hd_error]. destruct H as [Ht Hmin].
      apply filter_In in Ht. destruct Ht as [Hin Hnear].
      split; [exact Hin|]. split.
      * unfold near in Hnear. apply Rleb_spec in Hnear. exact Hnear.
      * intros s Hs Hd.
        assert (Hle := Hmin s ltac:(apply filter_In; split;
                                    [exact Hs | unfold near; apply Rleb_spec;
                                                exact Hd])).
        apply compareTargets_le in Hle.
        destruct Hle as [Hlt|[He Hdist]]; split; try lia; intros; try lia.
        exact Hdist.
Qed.

(** X14: [findBestSnapTarget] of the section scroller returns a section
    within 30 of the position that has the highest priority among the
    sections within 30 and, among those of that priority, is nearest to the
    position; it returns nothing exactly when no section is within 30. *)
Theorem smooth_best_target_by_priority st :
  bestNearby st (findBestSnapTarget st).
Proof. apply findBestSnapTarget_bestNearby. Qed.

(** *** What every reachable state satisfies *)

Ltac openS st :=
  destruct st as [pos0 agent0 [g0 pr0 sm0 am0] scrolling0 snapping0 vel0 acc0
                  dir0 secs0 tween0 touch0 active0 next0 trace0].

Ltac smoothInv_unfold :=
  unfold smoothInv, smoothWellFormed, smoothSingleTween, smoothSnapQuiet.

Lemma smooth_updateScene_inv st : smoothInv st -> smoothInv (updateScene st).
Proof.
  smoothInv_unfold. openS st. unfold updateScene, emit. cbn.
  destruct pr0; cbn; destruct (negb _ && sm0); cbn; intros H; exact H.
Qed.

Lemma smooth_updateScene_isSnapping st :
  isSnapping (updateScene st) = isSnapping st.
Proof.
  openS st. unfold updateScene, emit. cbn.
  destruct pr0; cbn; destruct (negb _ && sm0); reflexivity.
Qed.

Lemma applyImmediateScroll_inv st :
  smoothInv st -> isSnapping st = false ->
  smoothInv (applyImmediateScroll st) /\
  isSnapping (applyImmediateScroll st) = false.
Proof.
  intros H Hs. unfold applyImmediateScroll.
  destruct (Rltb 0.1 _); [|split; assumption]. cbv zeta.
  revert H Hs. smoothInv_unfold. openS st. cbn.
  intros ((Hp & Hsec & Htw) & Hsingle & _ & Hgen) ->.
  assert (Hnew : (0 <= Rmax 0 (pos0 + acc0 * 0.3))%R) by apply Rmax_l.
  unfold killCurrentTween, gsapTo, updateScene, emit.
  destruct Hsingle as [->|(tw & -> & ->)]; cbn.
  - destruct tween0; cbn; destruct g0; cbn;
      try (destruct pr0; cbn; destruct (negb _ && sm0); cbn);
      (split; [|reflexivity]);
      (split; [split; [assumption|split; [assumption|]]|]);
      try (intros tw' [<-|[]]; cbn; split; assumption);
      try (intros tw' []);
      (split; [|split; [discriminate | assumption]]);
      try (left; reflexivity); right; eexists; split; reflexivity.
  - rewrite Nat.eqb_refl. cbn. destruct g0; cbn;
      try (destruct pr0; cbn; destruct (negb _ && sm0); cbn);
      (split; [|reflexivity]);
      (split; [split; [assumption|split; [assumption|]]|]);
      try (intros tw' [<-|[]]; cbn; split; assumption);
      try (intros tw' []);
      (split; [|split; [discriminate | assumption]]);
      try (left; reflexivity); right; eexists; split; reflexivity.
Qed.

Ltac finishInv :=
  first
    [ assumption
    | split;
      [ split;
        [ first [assumption | apply Rmax_l]
        | split;
          [ assumption
          | let tw' := fresh "tw" in
            let Hin := fresh "Hin" in
            intros tw' Hin; cbn in Hin;
            first [ contradiction
                  | destruct Hin as [<-|[]]; cbn; split;
                    first [assumption | apply Rmax_l] ] ] ]
      | split;
        [ first [ left; reflexivity
                | right; eexists; split; reflexivity ]
        | split;
          [ first [ assumption
                  | let Hx := fresh "Hx" in intros Hx; discriminate Hx
                  | intros _; split; reflexivity ]
          | assumption ] ] ] ].

Ltac rec_simpl :=
  cbn [positionRef currentAgentRef host isScrolling isSnapping scrollVelocity
       scrollAccumulator scrollDirection sections currentTween touchStartY
       activeTweens nextTweenId trace
       set_positionRef set_isScrolling set_isSnapping
       set_scrollVelocity set_scrollAccumulator set_scrollDirection
       set_currentTween set_touchStartY set_activeTweens
       set_nextTweenId set_trace emit gsap pathRenderer sceneManager
       animationManager tweenFrom tweenTo tweenId negb andb orb app filter].

Ltac cases :=
  repeat (match goal with
          | |- context [match find ?f ?l with _ => _ end] => destruct (find f l)
          | |- context [match type ?s with _ => _ end] => destruct (type s)
          | |- context [if ?c then _ else _] => destruct c
          end; rec_simpl).

Lemma snapToSection_inv target seconds st :
  smoothInv st -> (0 <= target)%R ->
  smoothInv (snapToSection target seconds st).
Proof.
  intros H Ht. unfold snapToSection.
  destruct (isSnapping st || Reqb _ _) eqn:E; [exact H|].
  apply orb_false_iff in E. destruct E as [Hs _]. cbv zeta.
  revert H Hs. smoothInv_unfold. openS st. rec_simpl.
  intros ((Hp & Hsec & Htw) & Hsingle & _ & Hgen) ->.
  unfold killCurrentTween, gsapTo, updateScene, playTransitionSound.
  destruct Hsingle as [->|(tw & -> & ->)]; [destruct tween0|];
    destruct g0, am0, pr0; rec_simpl; rewrite ?Nat.eqb_refl; rec_simpl;
    cases; finishInv.
Qed.

Lemma smoothInv_fields st st' :
  (0 <= positionRef st')%R -> sections st' = sections st ->
  activeTweens st' = activeTweens st -> currentTween st' = currentTween st ->
  (isSnapping st' = true ->
   isScrolling st' = false /\ scrollAccumulator st' = 0%R) ->
  smoothInv st -> smoothInv st'.
Proof.
  smoothInv_unfold. intros Hp -> -> -> HQ ((_ & Hsec & Htw) & Hs & _ & Hgen).
  split; [split; [exact Hp | split; assumption]|].
  split; [exact Hs|]. split; assumption.
Qed.

Lemma smoothInv_position st : smoothInv st -> (0 <= positionRef st)%R.
Proof. intros H. apply H. Qed.

Lemma smooth_findNearestSection_In from direction type_ st t :
  findNearestSection from direction type_ st = Some t -> In t (sections st).
Proof.
  unfold findNearestSection. cbv zeta. intros H.
  assert (Hc : In t (match type_ with
                     | None => sections st
                     | Some ty =>
                         filter (fun s => SectionType_eqb (type s) ty)
                           (sections st)
                     end)).
  { destruct (0 <? direction); apply find_some in H; destruct H as [H _];
      [exact H | apply in_rev; exact H]. }
  destruct type_; [apply filter_In in Hc; tauto | exact Hc].
Qed.

Lemma smooth_keyDownTarget_In key shiftKey st t :
  keyDownTarget key shiftKey st = Some t -> In t (sections st).
Proof.
  unfold keyDownTarget.
  repeat match goal with
         | |- context [if keyIn ?k ?l then _ else _] => destruct (keyIn k l)
         end; try discriminate; apply smooth_findNearestSection_In.
Qed.

Lemma smooth_clickTarget_In x w st t :
  clickTarget x w st = Some t -> In t (sections st).
Proof.
  unfold clickTarget.
  repeat match goal with
         | |- context [if ?c then _ else _] => destruct c
         end; try discriminate; apply smooth_findNearestSection_In.
Qed.

Lemma smooth_findBestSnapTarget_In st t :
  findBestSnapTarget st = Some t -> In t (sections st).
Proof.
  unfold findBestSnapTarget. cbv zeta.
  destruct (filter _ (sections st)) as [|c cs] eqn:Ec; [discriminate|].
  rewrite <- Ec. intros H.
  destruct (sortBy _ _) as [|b r] eqn:Es; [discriminate|].
  injection H as <-.
  assert (Hb : In b (sortBy (compareTargets (positionRef st))
                       (filter (fun s => Rleb (Rabs (IZR (position s)
                                                     - positionRef st)) 30)
                          (sections st))))
    by (rewrite Es; left; reflexivity).
  apply sortBy_In, filter_In in Hb. tauto.
Qed.

Lemma smooth_scrollEndTarget_In st t :
  scrollEndTarget st = Some t -> In t (sections st).
Proof.
  unfold scrollEndTarget.
  destruct (findBestSnapTarget st) as [s|] eqn:E; [|discriminate].
  cbv zeta. destruct (_ || _); [|discriminate]. intros [= <-].
  apply smooth_findBestSnapTarget_In, E.
Qed.

Lemma section_target_nonneg st t :
  smoothInv st -> In t (sections st) -> (0 <= IZR (position t))%R.
Proof. intros ((_ & Hsec & _) & _) Hin. apply IZR_le, Hsec, Hin. Qed.

Lemma eased_range e p : (0 <= p <= 1)%R -> (0 <= eased e p <= 1)%R.
Proof.
  intros Hp. destruct e; cbn [eased].
  - apply ScrollerFacts.power2out_range, Hp.
  - unfold Rltb. destruct (Rlt_dec p 0.5) as [Hlt|Hge].
    + assert (H2 : (0 <= p * p <= 0.25)%R) by nra. nra.
    + assert (H2 : (0 <= (1 - p) * (1 - p) <= 0.25)%R) by nra. nra.
  - assert (H2 : (0 <= (1 - p) * (1 - p) <= 1)%R) by nra.
    assert (H3 : (0 <= (1 - p) * (1 - p) * (1 - p) <= 1)%R) by nra. nra.
Qed.

Lemma smooth_runningTween_In id st tw :
  runningTween id st = Some tw -> In tw (activeTweens st) /\ tweenId tw = id.
Proof.
  unfold runningTween. intros H. apply find_some in H.
  destruct H as [H E]. split; [exact H | apply Nat.eqb_eq, E].
Qed.

Lemma tweenUpdate_inv id progress st :
  smoothInv st -> smoothInv (tweenUpdate id progress st).
Proof.
  intros H. unfold tweenUpdate.
  destruct (runningTween id st) as [tw|] eqn:E; [|exact H]. cbv zeta.
  apply smooth_runningTween_In in E. destruct E as [Hin _].
  apply smooth_updateScene_inv.
  assert (Htw : (0 <= tweenFrom tw)%R /\ (0 <= tweenTo tw)%R)
    by (apply H, Hin).
  pose proof (eased_range (tweenEase tw) (clamp 0 1 progress)
                (ScrollerFacts.clamp_range 0 1 progress ltac:(lra))) as He.
  assert (HQ := proj1 (proj2 (proj2 H))).
  revert H. apply smoothInv_fields; try reflexivity; [|exact HQ].
  cbn [positionRef set_positionRef].
  set (e := eased _ _) in *. clearbody e. nra.
Qed.

Lemma tweenComplete_inv id st : smoothInv st -> smoothInv (tweenComplete id st).
Proof.
  intros H. unfold tweenComplete.
  destruct (runningTween id st) as [tw|] eqn:E; [|exact H]. cbv zeta.
  apply smooth_runningTween_In in E. destruct E as [Hin Hid].
  revert H Hin. smoothInv_unfold. openS st. rec_simpl.
  intros ((Hp & Hsec & Htw) & Hsingle & HQ & Hgen) Hin.
  destruct (Htw tw Hin) as [_ Hto].
  destruct Hsingle as [->|(tw' & -> & ->)]; [contradiction|].
  destruct Hin as [->|[]].
  unfold updateScene. rec_simpl.
  destruct pr0; rec_simpl; destruct (negb _ && sm0); rec_simpl;
    rewrite Hid, Nat.eqb_refl; rec_simpl;
    destruct (tweenSnap tw); rec_simpl; try destruct am0; rec_simpl;
    (split; [split; [assumption | split; [assumption | intros ? []]]|]);
    (split; [left; reflexivity|]);
    (split; [first [assumption | intros Hx; discriminate Hx] | assumption]).
Qed.

Lemma update_inv st : smoothInv st -> smoothInv (update st).
Proof.
  intros H. unfold update. destruct (isScrolling st) eqn:Hsc; [|exact H].
  cbn [andb]. destruct (Rltb 0.01 _); [|exact H].
  apply applyImmediateScroll_inv; [exact H|].
  destruct (isSnapping st) eqn:Hs; [|reflexivity].
  destruct H as (_ & _ & HQ & _). destruct (HQ Hs) as [Hf _]. congruence.
Qed.

Lemma smooth_step_inv st i : smoothInv st -> smoothInv (step st i).
Proof.
  intros H. destruct i; cbn [step].
  - unfold handleWheel. destruct (_ || _); [exact H|].
    destruct (isSnapping st) eqn:Hs; [exact H|]. cbv zeta.
    apply applyImmediateScroll_inv; [|exact Hs].
    assert (Hp := smoothInv_position st H).
    revert H. apply smoothInv_fields; try reflexivity; [exact Hp|].
    intros Hx. change (isSnapping st = true) in Hx. rewrite Hs in Hx.
    discriminate Hx.
  - unfold handleKeyDown. destruct (isSnapping st); [exact H|].
    destruct (keyDownTarget key shiftKey st) as [t|] eqn:E; [|exact H].
    apply snapToSection_inv; [exact H|].
    apply (section_target_nonneg st); [exact H|].
    apply (smooth_keyDownTarget_In _ _ _ _ E).
  - unfold handleTouchStart. destruct touches as [|y [|? ?]]; exact H.
  - unfold handleTouchMove. destruct (isSnapping st) eqn:Hs; [exact H|].
    destruct touches as [|y [|? ?]]; try exact H. cbv zeta.
    destruct (Rltb 5 _); [|exact H].
    set (st1 := set_scrollAccumulator _ st).
    assert (H1 : smoothInv st1).
    { assert (Hp := smoothInv_position st H).
      revert H. apply smoothInv_fields; try reflexivity; [exact Hp|].
      intros Hx. change (isSnapping st = true) in Hx. rewrite Hs in Hx.
      discriminate Hx. }
    destruct (applyImmediateScroll_inv st1 H1 Hs) as [H2 Hs2].
    assert (Hp2 := smoothInv_position _ H2).
    revert H2. apply smoothInv_fields; try reflexivity; [exact Hp2|].
    intros Hx. change (isSnapping (applyImmediateScroll st1) = true) in Hx.
    rewrite Hs2 in Hx. discriminate Hx.
  - exact H.
  - unfold handleClick. destruct (isSnapping st); [exact H|].
    destruct (clickTarget clientX innerWidth st) as [t|] eqn:E; [|exact H].
    apply snapToSection_inv; [exact H|].
    apply (section_target_nonneg st); [exact H|].
    apply (smooth_clickTarget_In _ _ _ _ E).
  - unfold handleScrollEnd. destruct (isSnapping st) eqn:Hs; [exact H|].
    cbv zeta. set (st1 := set_scrollVelocity _ _).
    assert (H1 : smoothInv st1).
    { assert (Hp := smoothInv_position st H).
      revert H. apply smoothInv_fields; try reflexivity; [exact Hp|].
      intros Hx. change (isSnapping st = true) in Hx. rewrite Hs in Hx.
      discriminate Hx. }
    destruct (scrollEndTarget st1) as [t|] eqn:E; [|exact H1].
    apply snapToSection_inv; [exact H1|].
    apply (section_target_nonneg st1); [exact H1|].
    apply (smooth_scrollEndTarget_In _ _ E).
  - apply update_inv, H.
  - apply tweenUpdate_inv, H.
  - apply tweenComplete_inv, H.
Qed.

Lemma smooth_run_inv inputs : forall st, smoothInv st -> smoothInv (run st inputs).
Proof.
  unfold run. induction inputs as [|i rest IH]; intros st H; [exact H|].
  cbn [fold_left]. apply IH, smooth_step_inv, H.
Qed.

Lemma smooth_generateSections_In s :
  In s generateSections <->
  exists pos, 0 <= pos <= 2000 /\ sectionAt pos = Some s.
Proof.
  unfold generateSections, generateSectionsUpTo.
  rewrite (sorted_loop_In position sectionAt smooth_sectionAt_position).
  reflexivity.
Qed.

Lemma smooth_generateSections_sorted :
  StronglySorted Z.lt (map position generateSections).
Proof.
  unfold generateSections, generateSectionsUpTo.
  exact (sorted_loop_sorted position sectionAt smooth_sectionAt_position
           horizon).
Qed.

Lemma smooth_sectionAt_facts pos s :
  sectionAt pos = Some s ->
  0 < position s /\ priority s <= 100 /\ (priority s = 100 <-> type s = agent).
Proof.
  unfold sectionAt. destruct (Z.ltb_spec 0 pos) as [Hp|Hp];
    [|rewrite !andb_false_r; discriminate].
  repeat match goal with
         | |- (if ?c then _ else _) = _ -> _ => destruct c
         end; intros [= <-]; cbn; (split; [exact Hp|]); (split; [lia|]);
    split; intros; try reflexivity; try lia; discriminate.
Qed.

Lemma smooth_construct_sections h p0 a0 :
  sections (construct h p0 a0) = generateSections.
Proof. reflexivity. Qed.

Lemma smooth_construct_inv h p0 a0 :
  (0 <= p0)%R -> smoothInv (construct h p0 a0).
Proof.
  intros Hp. split; [split; [exact Hp | split]|].
  - intros s Hin. rewrite smooth_construct_sections in Hin.
    apply (proj1 (smooth_generateSections_In s)) in Hin.
    destruct Hin as (pos & _ & Hs).
    destruct (smooth_sectionAt_facts pos s Hs) as [H0 _]. lia.
  - intros tw [].
  - split; [left; reflexivity|]. split; [|apply smooth_construct_sections].
    intros Hx. discriminate Hx.
Qed.

Lemma smooth_reachable_inv h p0 a0 inputs :
  (0 <= p0)%R -> smoothInv (run (construct h p0 a0) inputs).
Proof. intros Hp. apply smooth_run_inv, smooth_construct_inv, Hp. Qed.

(** X15: over every run of the section scroller that starts at a
    non-negative position, the position never becomes negative, at most one
    tween is running on it (the one the scroller holds), and while a snap is
    in flight the scroller is not scrolling and holds no pending scroll. *)
Theorem smooth_run_stays_well_formed h p0 a0 inputs :
  (0 <= p0)%R ->
  (0 <= positionRef (run (construct h p0 a0) inputs))%R /\
  (List.length (activeTweens (run (construct h p0 a0) inputs)) <= 1)%nat /\
  (forall tw, In tw (activeTweens (run (construct h p0 a0) inputs)) ->
              currentTween (run (construct h p0 a0) inputs) = Some tw) /\
  (isSnapping (run (construct h p0 a0) inputs) = true ->
   isScrolling (run (construct h p0 a0) inputs) = false /\
   scrollAccumulator (run (construct h p0 a0) inputs) = 0%R).
Proof.
  intros Hp. pose proof (smooth_reachable_inv h p0 a0 inputs Hp) as H.
  destruct H as ((H0 & _ & _) & Hs & HQ & _).
  split; [exact H0|]. split; [|split; [|exact HQ]].
  - destruct Hs as [->|(tw & _ & ->)]; cbn; lia.
  - intros tw Hin. destruct Hs as [E|(tw' & Hc & E)]; rewrite E in Hin.
    + contradiction.
    + destruct Hin as [<-|[]]. exact Hc.
Qed.

Lemma smooth_run_stays_well_formed_witness :
  (0 <= 0)%R /\
  (0 <= positionRef
          (run (construct allThere 0 0)
             [Wheel (-100) false false; TweenComplete 0; ScrollEndTimer]))%R.
Proof.
  split; [apply Rle_refl|].
  exact (proj1 (smooth_run_stays_well_formed allThere 0 0
                  [Wheel (-100) false false; TweenComplete 0; ScrollEndTimer]
                  (Rle_refl 0))).
Defined.

(** X16: while a snap of the section scroller is in flight, nothing but the
    tween driver moves the position: every wheel event, key press, touch,
    click, scroll-end timer and per-frame update leaves the position, the
    running tween and the snapping state as they are. *)
Theorem smooth_snap_is_protected h p0 a0 inputs i :
  (0 <= p0)%R ->
  isSnapping (run (construct h p0 a0) inputs) = true ->
  fromDriver i = false ->
  positionRef (step (run (construct h p0 a0) inputs) i)
  = positionRef (run (construct h p0 a0) inputs) /\
  activeTweens (step (run (construct h p0 a0) inputs) i)
  = activeTweens (run (construct h p0 a0) inputs) /\
  currentTween (step (run (construct h p0 a0) inputs) i)
  = currentTween (run (construct h p0 a0) inputs) /\
  isSnapping (step (run (construct h p0 a0) inputs) i) = true.
Proof.
  intros Hp Hs Hi.
  pose proof (smooth_reachable_inv h p0 a0 inputs Hp) as H.
  destruct H as (_ & _ & HQ & _). destruct (HQ Hs) as [Hsc _].
  set (st := run (construct h p0 a0) inputs) in *. clearbody st.
  destruct i; cbn [step]; try discriminate Hi.
  - unfold handleWheel. rewrite Hs. destruct (_ || _); repeat split; exact Hs.
  - unfold handleKeyDown. rewrite Hs. repeat split; exact Hs.
  - unfold handleTouchStart. destruct touches as [|y [|? ?]];
      repeat split; exact Hs.
  - unfold handleTouchMove. rewrite Hs. repeat split; exact Hs.
  - repeat split; exact Hs.
  - unfold handleClick. rewrite Hs. repeat split; exact Hs.
  - unfold handleScrollEnd. rewrite Hs. repeat split; exact Hs.
  - unfold update. rewrite Hsc. repeat split; exact Hs.
Qed.

Lemma smooth_generateSections_eq :
  generateSections = flat_map (fun pos => pushOpt (sectionAt pos)) (upto horizon).
Proof.
  unfold generateSections, generateSectionsUpTo.
  apply (sorted_loop_eq position sectionAt smooth_sectionAt_position).
Qed.

(** The first agent section of the map. *)
Lemma smooth_generateSections_agents :
  exists rest,
    filter (fun s => SectionType_eqb (type s) agent) generateSections =
    mkSection 60 agent 100 :: rest.
Proof.
  rewrite smooth_generateSections_eq. unfold upto, horizon.
  change (seq 0 2001) with (seq 0 (61 + 1940)).
  rewrite seq_app, map_app, flat_map_app, filter_app.
  eexists.
  change (filter (fun s => SectionType_eqb (type s) agent)
            (flat_map (fun pos => pushOpt (sectionAt pos))
               (map Z.of_nat (seq 0 61))))
    with [mkSection 60 agent 100].
  reflexivity.
Qed.

Lemma snapToSection_starts target seconds st :
  isSnapping st = false -> target <> positionRef st ->
  gsap (host st) = true ->
  isSnapping (snapToSection target seconds st) = true.
Proof.
  intros Hs Hne Hg. unfold snapToSection.
  rewrite Hs, (Reqb_false _ _ Hne). cbn [orb]. cbv zeta.
  revert Hs Hg. openS st. rec_simpl. intros -> ->.
  unfold killCurrentTween, gsapTo, playTransitionSound.
  destruct tween0, am0; rec_simpl; cases; reflexivity.
Qed.

Lemma smooth_first_key :
  run (construct allThere 0 0) [KeyDown "ArrowRight" false]
  = snapToSection 60 1.5 (construct allThere 0 0).
Proof.
  unfold run. cbn [fold_left step]. unfold handleKeyDown.
  change (isSnapping (construct allThere 0 0)) with false. cbv iota.
  change (keyDownTarget "ArrowRight" false (construct allThere 0 0))
    with (findNearestSection 0 1 (Some agent) (construct allThere 0 0)).
  unfold findNearestSection. cbv zeta.
  change (sections (construct allThere 0 0)) with generateSections.
  destruct smooth_generateSections_agents as (rest & ->).
  cbn [Z.ltb Z.compare find position].
  rewrite Rltb_true by lra. reflexivity.
Qed.

Lemma smooth_first_key_snapping :
  isSnapping (run (construct allThere 0 0) [KeyDown "ArrowRight" false])
  = true.
Proof.
  rewrite smooth_first_key. apply snapToSection_starts; try reflexivity.
  change (positionRef (construct allThere 0 0)) with 0%R. lra.
Qed.

Lemma smooth_snap_is_protected_witness :
  (0 <= 0)%R /\
  isSnapping (run (construct allThere 0 0) [KeyDown "ArrowRight" false])
  = true /\
  fromDriver (Wheel 100 false false) = false /\
  positionRef
    (step (run (construct allThere 0 0) [KeyDown "ArrowRight" false])
       (Wheel 100 false false))
  = positionRef (run (construct allThere 0 0) [KeyDown "ArrowRight" false]).
Proof.
  split; [apply Rle_refl|]. split; [exact smooth_first_key_snapping|].
  split; [reflexivity|].
  exact (proj1 (smooth_snap_is_protected allThere 0 0
                  [KeyDown "ArrowRight" false] (Wheel 100 false false)
                  (Rle_refl 0) smooth_first_key_snapping eq_refl)).
Defined.

(** *** Navigation *)

Lemma ofType_filter type_ l s :
  In s (match type_ with
        | None => l
        | Some t => filter (fun s => SectionType_eqb (type s) t) l
        end) <-> In s l /\ ofType type_ s.
Proof.
  destruct type_ as [t|]; unfold ofType;
    [rewrite filter_In, ScrollerFacts.SectionType_eqb_eq; reflexivity | tauto].
Qed.

(** X17: on a section map in ascending order of position (the generated one
    is), [findNearestSection] with a positive direction returns the first
    section of the requested type after the given position, with any other
    direction the last one before it, and nothing exactly when there is no
    such section; unlike the momentum scroller it has no dead band and no
    magnetism threshold. *)
Theorem smooth_navigation_target_is_nearest from direction type_ st :
  StronglySorted Z.lt (map position (sections st)) ->
  (0 < direction ->
   nextOfType type_ from (sections st)
     (findNearestSection from direction type_ st)) /\
  (direction <= 0 ->
   previousOfType type_ from (sections st)
     (findNearestSection from direction type_ st)).
Proof.
  intros Hsorted. unfold findNearestSection. cbv zeta.
  set (cands := match type_ with None => _ | Some _ => _ end).
  assert (Hc : forall s, In s cands <-> In s (sections st) /\ ofType type_ s)
    by (intros s; apply ofType_filter).
  assert (Hcs : StronglySorted Z.lt (map position cands)).
  { unfold cands. destruct type_; [apply ScrollerExtras.sorted_filter|];
      exact Hsorted. }
  clearbody cands. split; intros Hd.
  - rewrite (proj2 (Z.ltb_lt 0 direction) Hd).
    destruct (find _ cands) as [t|] eqn:Hf; unfold nextOfType.
    + destruct (find_some _ _ Hf) as [Hin Hp].
      apply Hc in Hin. destruct Hin as [Hin He]. apply Rltb_spec in Hp.
      repeat split; try assumption.
      intros s Hs Hes Hps.
      apply (ScrollerExtras.find_first_least position _ cands t Hcs Hf s).
      * apply Hc. split; assumption.
      * apply Rltb_spec. exact Hps.
    + intros s Hs Hes.
      assert (Hn := find_none _ _ Hf s (proj2 (Hc s) (conj Hs Hes))).
      cbv beta in Hn. unfold Rltb in Hn.
      destruct (Rlt_dec _ _); [discriminate | lra].
  - rewrite (proj2 (Z.ltb_ge 0 direction) Hd).
    destruct (find _ (rev cands)) as [t|] eqn:Hf; unfold previousOfType.
    + destruct (find_some _ _ Hf) as [Hin Hp].
      apply in_rev, Hc in Hin. destruct Hin as [Hin He]. apply Rltb_spec in Hp.
      repeat split; try assumption.
      intros s Hs Hes Hps.
      apply (ScrollerExtras.find_last_greatest position _ cands t Hcs Hf s).
      * apply Hc. split; assumption.
      * apply Rltb_spec. exact Hps.
    + intros s Hs Hes.
      assert (Hn := find_none _ _ Hf s
                      (proj1 (in_rev _ _) (proj2 (Hc s) (conj Hs Hes)))).
      cbv beta in Hn. unfold Rltb in Hn.
      destruct (Rlt_dec _ _); [discriminate | lra].
Qed.

Lemma smooth_navigation_target_is_nearest_witness :
  StronglySorted Z.lt (map position (sections (construct allThere 0 0))) /\
  (0 < 1 ->
   nextOfType (Some agent) 0 (sections (construct allThere 0 0))
     (findNearestSection 0 1 (Some agent) (construct allThere 0 0))).
Proof.
  assert (H : StronglySorted Z.lt
                (map position (sections (construct allThere 0 0)))).
  { rewrite smooth_construct_sections. exact smooth_generateSections_sorted. }
  split; [exact H|].
  exact (proj1 (smooth_navigation_target_is_nearest 0 1 (Some agent)
                  (construct allThere 0 0) H)).
Defined.

(** *** Where a scroll ends *)

Lemma agent_within_30 p :
  (30 <= p < 2010)%R ->
  exists a, In a generateSections /\ type a = agent /\ priority a = 100 /\
            (Rabs (IZR (position a) - p) <= 30)%R.
Proof.
  intros Hp. set (q := Zfloor ((p + 30) / 60)).
  pose proof (Zfloor_bound ((p + 30) / 60)) as Hq. fold q in Hq.
  assert (Hq1 : 1 <= q).
  { apply Zfloor_lub. lra. }
  assert (Hq2 : q <= 33).
  { assert (IZR q < 34)%R by lra. apply lt_IZR in H. lia. }
  exists (mkSection (60 * q) agent 100).
  split; [|split; [reflexivity|split; [reflexivity|]]].
  - apply (proj2 (smooth_generateSections_In _)). exists (60 * q).
    split; [lia|]. unfold sectionAt, AGENT_SPACING.
    assert (E : (jsmod (60 * q) 60 =? 0) = true).
    { apply jsmod_divide; [lia | lia|]. exists q. lia. }
    rewrite E. rewrite (proj2 (Z.ltb_lt 0 (60 * q))) by lia. reflexivity.
  - cbn [position]. rewrite mult_IZR. apply Rabs_le. lra.
Qed.

(** X18: wherever a scroll of the section scroller ends between 30 and 2010,
    it settles on an agent section: an agent section is always within 30, so
    [handleScrollEnd] snaps, with the agent duration 1.5, to an agent section
    within 30 of the position. *)
Theorem smooth_scroll_end_settles_on_agent st :
  sections st = generateSections -> isSnapping st = false ->
  (30 <= positionRef st < 2010)%R ->
  exists t,
    In t generateSections /\ type t = agent /\
    (Rabs (IZR (position t) - positionRef st) <= 30)%R /\
    handleScrollEnd st =
    snapToSection (IZR (position t)) 1.5
      (set_scrollVelocity 0 (set_isScrolling false st)).
Proof.
  intros Hgen Hs Hp. unfold handleScrollEnd. rewrite Hs. cbv zeta.
  set (st1 := set_scrollVelocity 0 (set_isScrolling false st)).
  assert (Hgen1 : sections st1 = generateSections) by exact Hgen.
  assert (Hpos1 : positionRef st1 = positionRef st) by reflexivity.
  destruct (agent_within_30 _ Hp) as (a & Ha & _ & Hpa & Hda).
  pose proof (findBestSnapTarget_bestNearby st1) as Hbest.
  unfold scrollEndTarget.
  destruct (findBestSnapTarget st1) as [t|]; unfold bestNearby in Hbest.
  - rewrite Hgen1, Hpos1 in Hbest. destruct Hbest as (Hin & Hd & Hmax).
    destruct (Hmax a Ha Hda) as [Hle _].
    assert (Hin' := Hin). apply (proj1 (smooth_generateSections_In t)) in Hin'.
    destruct Hin' as (pos & _ & Hst).
    destruct (smooth_sectionAt_facts pos t Hst) as (_ & H100 & Hagent).
    assert (Hpt : priority t = 100) by lia.
    assert (Hty : type t = agent) by (apply Hagent, Hpt).
    exists t. split; [exact Hin|]. split; [exact Hty|]. split; [exact Hd|].
    cbv zeta. rewrite Hpt. cbn [Z.leb Z.compare Pos.compare Pos.compare_cont].
    rewrite orb_true_r. rewrite Hty. reflexivity.
  - rewrite Hgen1, Hpos1 in Hbest. specialize (Hbest a Ha). lra.
Qed.

Lemma smooth_scroll_end_settles_on_agent_witness :
  sections (construct allThere 100 1) = generateSections /\
  isSnapping (construct allThere 100 1) = false /\
  (30 <= positionRef (construct allThere 100 1) < 2010)%R /\
  exists t,
    In t generateSections /\ type t = agent /\
    (Rabs (IZR (position t) - positionRef (construct allThere 100 1)) <= 30)%R /\
    handleScrollEnd (construct allThere 100 1) =
    snapToSection (IZR (position t)) 1.5
      (set_scrollVelocity 0 (set_isScrolling false (construct allThere 100 1))).
Proof.
  assert (H : (30 <= positionRef (construct allThere 100 1) < 2010)%R).
  { change (positionRef (construct allThere 100 1)) with 100%R. lra. }
  split; [apply smooth_construct_sections|]. split; [reflexivity|].
  split; [exact H|].
  exact (smooth_scroll_end_settles_on_agent (construct allThere 100 1)
           (smooth_construct_sections allThere 100 1) eq_refl H).
Defined.

(** *** The section map *)

Lemma smooth_sectionAt_priority pos s :
  sectionAt pos = Some s ->
  priority s = match type s with
               | agent => 100
               | milestone => 80
               | shape => 60
               | decorative => 40
               | micro => priority s
               end.
Proof.
  unfold sectionAt.
  repeat match goal with
         | |- (if ?c then _ else _) = _ -> _ => destruct c
         end; intros [= <-]; reflexivity.
Qed.

(** X20: the section map of the section scroller is strictly ascending by
    position; it holds a section at a position exactly when the position is
    between 1 and 2000 and one of the spacings 60, 40, 15, 8 divides it (so
    nothing at 0, and no micro sections); the type of each section is the
    one of highest priority among the spacings that divide its position; and
    its priority is 100, 80, 60, 40 for agent, milestone, shape,
    decorative. *)
Theorem smooth_section_map :
  StronglySorted Z.lt (map position generateSections) /\
  (forall pos,
      (exists s, In s generateSections /\ position s = pos) <->
      (1 <= pos <= 2000 /\ exists t, t <> micro /\ (spacing t | pos))) /\
  (forall s, In s generateSections ->
      type s <> micro /\ (spacing (type s) | position s) /\
      (forall t, t <> micro -> (spacing t | position s) ->
                 typePriority t <= typePriority (type s)) /\
      priority s = match type s with
                   | agent => 100
                   | milestone => 80
                   | shape => 60
                   | decorative => 40
                   | micro => priority s
                   end).
Proof.
  destruct smooth_generateSections_map as (H1 & H2 & H3).
  split; [exact H1|]. split; [exact H2|].
  intros s Hin. destruct (H3 s Hin) as (Ha & Hb & Hc).
  split; [exact Ha|]. split; [exact Hb|]. split; [exact Hc|].
  apply (proj1 (smooth_generateSections_In s)) in Hin.
  destruct Hin as (pos & _ & Hs). apply (smooth_sectionAt_priority pos s Hs).
Qed.

End SmoothExtras.
